(** * Safepoint coordination and JVMTI raw monitors: a shallow embedding

    This development embeds the parts of

      - [src/hotspot/share/runtime/safepoint.cpp]
      - [src/hotspot/share/prims/jvmtiRawMonitor.cpp]

    that the specification talks about, and states the specification's
    properties as theorems over that embedding.

    Conventions.
      - A [uint64_t] is a [Z] in [0, 2^64); every C++ [+ 1] on it is
        written with its wrap-around ([wrap_u64]).  An [int] is a [Z] in
        [-2^31, 2^31); [static_cast<int>] is [static_cast_int].
      - A function that touches shared memory returns, next to its
        result, the list of the shared-memory actions it performs, in
        program order.  The interleaving semantics runs these actions
        one at a time.
      - [guarantee] and [fatal] are outcomes of their own; [assert] is
        debug-only and is proved as an invariant where a theorem needs it. *)

From Stdlib Require Import ZArith Lia Bool List.
From stdpp Require Import base option list gmap.

#[local] Open Scope Z_scope.

(** ** Machine integers *)

Definition wrap_u64 (z : Z) : Z := z mod 2 ^ 64.

(** [static_cast<int>(x)]: keep the low 32 bits, read as two's complement. *)
Definition static_cast_int (z : Z) : Z := (z + 2 ^ 31) mod 2 ^ 32 - 2 ^ 31.

(** [wrap_s32] is what [++] does to an [int] on the targets the code is
    built for (two's complement). *)
Definition wrap_s32 (z : Z) : Z := (z + 2 ^ 31) mod 2 ^ 32 - 2 ^ 31.

Definition wrap_s64 (z : Z) : Z := (z + 2 ^ 63) mod 2 ^ 64 - 2 ^ 63.

Definition in_u64 (z : Z) : Prop := 0 <= z < 2 ^ 64.

(** [(x & 0x1) == 1] *)
Definition is_odd (z : Z) : bool := Z.land z 1 =? 1.


(** ** safepoint.cpp *)

Module Safepoint.

(** *** Constants and types declared outside safepoint.cpp *)

(** Modelled from the spec: the time-unit constants of
    utilities/globalDefinitions.hpp, which is not among the sources at
    hand.  The spec fixes the back-off as "10 microseconds for the first
    millisecond", i.e. [10 * (NANOUNITS / MICROUNITS)] nanoseconds is 10
    microseconds and [NANOSECS_PER_MILLISEC] nanoseconds is one millisecond. *)
Definition NANOUNITS : Z := 1000000000.
Definition MICROUNITS : Z := 1000000.
Definition MILLIUNITS : Z := 1000.
Definition NANOSECS_PER_MILLISEC : Z := 1000000.

(** Modelled from the spec: the execution modes of a worker.  The
    enumerators are the ones safepoint.cpp names ([_thread_in_native],
    [_thread_blocked], the five [_trans]/[_in_Java] cases of [block]) and
    the remaining members of the enumeration; its declaration
    (utilities/globalDefinitions.hpp) is not among the sources at hand. *)
Inductive JavaThreadState :=
| _thread_uninitialized
| _thread_new
| _thread_new_trans
| _thread_in_native
| _thread_in_native_trans
| _thread_in_vm
| _thread_in_vm_trans
| _thread_in_Java
| _thread_in_Java_trans
| _thread_blocked
| _thread_blocked_trans.

#[export] Instance JavaThreadState_eq_dec : EqDecision JavaThreadState.
Proof. solve_decision. Defined.

(** [SafepointSynchronize::SynchronizeState] *)
Inductive SynchronizeState :=
| _not_synchronized
| _synchronizing
| _synchronized.

#[export] Instance SynchronizeState_eq_dec : EqDecision SynchronizeState.
Proof. solve_decision. Defined.

(** [const uint64_t SafepointSynchronize::InactiveSafepointCounter = 0;] *)
Definition InactiveSafepointCounter : Z := 0.

(** The command-line flags and build choices the code branches on. *)
Record Flags := {
  SafepointTimeout : bool;
  AbortVMOnSafepointTimeout : bool;
  uses_thread_local_poll : bool;
  uses_global_page_poll : bool;
}.

(** *** ThreadSafepointState and the part of JavaThread the code reads *)

Record ThreadSafepointState := {
  _at_poll_safepoint : bool;
  _safepoint_safe : bool;
  _safepoint_id : Z;                      (* volatile uint64_t *)
  _orig_thread_state : JavaThreadState;
}.

(** [ThreadSafepointState::ThreadSafepointState] *)
Definition new_ThreadSafepointState : ThreadSafepointState :=
  {| _at_poll_safepoint := false;
     _safepoint_safe := false;
     _safepoint_id := InactiveSafepointCounter;
     _orig_thread_state := _thread_uninitialized |}.

(** [bool is_running() const { return !_safepoint_safe; }] *)
Definition is_running (tss : ThreadSafepointState) : bool :=
  negb (_safepoint_safe tss).

(** [uint64_t ThreadSafepointState::get_safepoint_id() const] (load-acquire) *)
Definition get_safepoint_id (tss : ThreadSafepointState) : Z := _safepoint_id tss.

(** [void ThreadSafepointState::set_safepoint_id(uint64_t)] (release store) *)
Definition set_safepoint_id (safepoint_id : Z) (tss : ThreadSafepointState)
  : ThreadSafepointState :=
  {| _at_poll_safepoint := _at_poll_safepoint tss;
     _safepoint_safe := _safepoint_safe tss;
     _safepoint_id := safepoint_id;
     _orig_thread_state := _orig_thread_state tss |}.

(** [void ThreadSafepointState::reset_safepoint_id()] *)
Definition reset_safepoint_id (tss : ThreadSafepointState) : ThreadSafepointState :=
  set_safepoint_id InactiveSafepointCounter tss.

Definition set_safepoint_safe (b : bool) (tss : ThreadSafepointState)
  : ThreadSafepointState :=
  {| _at_poll_safepoint := _at_poll_safepoint tss;
     _safepoint_safe := b;
     _safepoint_id := _safepoint_id tss;
     _orig_thread_state := _orig_thread_state tss |}.

Definition set_orig_thread_state (s : JavaThreadState) (tss : ThreadSafepointState)
  : ThreadSafepointState :=
  {| _at_poll_safepoint := _at_poll_safepoint tss;
     _safepoint_safe := _safepoint_safe tss;
     _safepoint_id := _safepoint_id tss;
     _orig_thread_state := s |}.

(** [void ThreadSafepointState::restart()] *)
Definition restart (tss : ThreadSafepointState) : ThreadSafepointState :=
  set_safepoint_safe false tss.

(** The fields of a [JavaThread] that safepoint.cpp reads or writes,
    named after the accessors it calls. *)
Record JavaThread := {
  thread_state : JavaThreadState;
  safepoint_state : ThreadSafepointState;
  is_terminated : bool;
  is_ext_suspended : bool;
  has_last_Java_frame : bool;
  walkable : bool;                        (* frame_anchor()->walkable() *)
  jni_active_critical : Z;                (* in_critical() is [> 0] *)
  in_lazy_critical_native : bool;         (* last_frame() is a lazy critical native nmethod *)
  do_critical_native_unlock : bool;
  has_special_runtime_exit_condition : bool;
  local_poll_armed : bool;                (* SafepointMechanism's per-thread poll word *)
}.

Definition with_thread_state (s : JavaThreadState) (t : JavaThread) : JavaThread :=
  {| thread_state := s;
     safepoint_state := safepoint_state t;
     is_terminated := is_terminated t;
     is_ext_suspended := is_ext_suspended t;
     has_last_Java_frame := has_last_Java_frame t;
     walkable := walkable t;
     jni_active_critical := jni_active_critical t;
     in_lazy_critical_native := in_lazy_critical_native t;
     do_critical_native_unlock := do_critical_native_unlock t;
     has_special_runtime_exit_condition := has_special_runtime_exit_condition t;
     local_poll_armed := local_poll_armed t |}.

Definition with_safepoint_state (tss : ThreadSafepointState) (t : JavaThread)
  : JavaThread :=
  {| thread_state := thread_state t;
     safepoint_state := tss;
     is_terminated := is_terminated t;
     is_ext_suspended := is_ext_suspended t;
     has_last_Java_frame := has_last_Java_frame t;
     walkable := walkable t;
     jni_active_critical := jni_active_critical t;
     in_lazy_critical_native := in_lazy_critical_native t;
     do_critical_native_unlock := do_critical_native_unlock t;
     has_special_runtime_exit_condition := has_special_runtime_exit_condition t;
     local_poll_armed := local_poll_armed t |}.

(** [frame_anchor()->make_walkable(thread)] *)
Definition make_walkable (t : JavaThread) : JavaThread :=
  {| thread_state := thread_state t;
     safepoint_state := safepoint_state t;
     is_terminated := is_terminated t;
     is_ext_suspended := is_ext_suspended t;
     has_last_Java_frame := has_last_Java_frame t;
     walkable := true;
     jni_active_critical := jni_active_critical t;
     in_lazy_critical_native := in_lazy_critical_native t;
     do_critical_native_unlock := do_critical_native_unlock t;
     has_special_runtime_exit_condition := has_special_runtime_exit_condition t;
     local_poll_armed := local_poll_armed t |}.

(** [enter_critical(); set_critical_native_unlock();] *)
Definition enter_critical_for_unlock (t : JavaThread) : JavaThread :=
  {| thread_state := thread_state t;
     safepoint_state := safepoint_state t;
     is_terminated := is_terminated t;
     is_ext_suspended := is_ext_suspended t;
     has_last_Java_frame := has_last_Java_frame t;
     walkable := walkable t;
     jni_active_critical := jni_active_critical t + 1;
     in_lazy_critical_native := in_lazy_critical_native t;
     do_critical_native_unlock := true;
     has_special_runtime_exit_condition := has_special_runtime_exit_condition t;
     local_poll_armed := local_poll_armed t |}.

Definition with_local_poll (b : bool) (t : JavaThread) : JavaThread :=
  {| thread_state := thread_state t;
     safepoint_state := safepoint_state t;
     is_terminated := is_terminated t;
     is_ext_suspended := is_ext_suspended t;
     has_last_Java_frame := has_last_Java_frame t;
     walkable := walkable t;
     jni_active_critical := jni_active_critical t;
     in_lazy_critical_native := in_lazy_critical_native t;
     do_critical_native_unlock := do_critical_native_unlock t;
     has_special_runtime_exit_condition := has_special_runtime_exit_condition t;
     local_poll_armed := b |}.

(** After [handle_special_runtime_exit_condition] the condition is consumed. *)
Definition clear_special_runtime_exit_condition (t : JavaThread) : JavaThread :=
  {| thread_state := thread_state t;
     safepoint_state := safepoint_state t;
     is_terminated := is_terminated t;
     is_ext_suspended := is_ext_suspended t;
     has_last_Java_frame := has_last_Java_frame t;
     walkable := walkable t;
     jni_active_critical := jni_active_critical t;
     in_lazy_critical_native := in_lazy_critical_native t;
     do_critical_native_unlock := do_critical_native_unlock t;
     has_special_runtime_exit_condition := false;
     local_poll_armed := local_poll_armed t |}.

Definition in_critical (t : JavaThread) : bool := 0 <? jni_active_critical t.

(** *** The statics of SafepointSynchronize and its wait barrier *)

Record SafepointSynchronize := {
  _state : SynchronizeState;
  _waiting_to_block : Z;                  (* int *)
  _safepoint_counter : Z;                 (* volatile uint64_t *)
  _current_jni_active_count : Z;          (* int *)
}.

(** Modelled from the spec: the wait barrier (utilities/waitBarrier.hpp is
    not among the sources at hand).  It "holds the current tag T; tag 0
    means disarmed; arm sets T := new_tag; disarm sets T := 0 and wakes
    all waiters; a worker only blocks if T == expected_tag, otherwise it
    returns immediately". *)
Record WaitBarrier := { _barrier_tag : Z }.

Definition arm (barrier_tag : Z) (b : WaitBarrier) : WaitBarrier :=
  {| _barrier_tag := barrier_tag |}.

Definition disarm (b : WaitBarrier) : WaitBarrier := {| _barrier_tag := 0 |}.

(** [wait(expected)] returns in a state of the barrier iff its tag is not
    [expected]. *)
Definition wait_returns (expected : Z) (b : WaitBarrier) : bool :=
  negb (_barrier_tag b =? expected).

(** *** back_off *)

Inductive Sleep :=
| naked_short_nanosleep (ns : Z)
| naked_short_sleep (ms : Z).

(** [static void back_off(int64_t start_time)]; [now] is what
    [os::javaTimeNanos()] returns in the call. *)
Definition back_off (now start_time : Z) : Sleep :=
  if wrap_s64 (now - start_time) <? NANOSECS_PER_MILLISEC then
    naked_short_nanosleep (10 * (NANOUNITS / MICROUNITS))
  else
    naked_short_sleep 1.

(** *** Deciding whether a thread is safepoint safe *)

(** [SafepointSynchronize::try_stable_load_state]: [state1] and [state2]
    are the two reads of [thread->thread_state()], [sid] the read of the
    thread's safepoint id between them.  [None] is the C++ [false]. *)
Definition try_stable_load_state (state1 : JavaThreadState) (sid : Z)
    (state2 : JavaThreadState) (safepoint_count : Z) : option JavaThreadState :=
  if negb (sid =? InactiveSafepointCounter) && negb (sid =? safepoint_count) then
    None
  else if decide (state1 = state2) then Some state1
  else None.

(** [static bool safepoint_safe_with(JavaThread*, JavaThreadState)] *)
Definition safepoint_safe_with (thread : JavaThread) (state : JavaThreadState) : bool :=
  match state with
  | _thread_in_native => negb (has_last_Java_frame thread) || walkable thread
  | _thread_blocked => true
  | _ => false
  end.

(** [SafepointSynchronize::handshake_safe]; a thread read at rest, so both
    reads of its state agree. *)
Definition handshake_safe (thread : JavaThread) : bool :=
  if is_ext_suspended thread || is_terminated thread then true
  else
    match try_stable_load_state (thread_state thread)
            (get_safepoint_id (safepoint_state thread)) (thread_state thread)
            InactiveSafepointCounter with
    | Some stable_state => safepoint_safe_with thread stable_state
    | None => false
    end.

(** [static void check_for_lazy_critical_native(JavaThread*, JavaThreadState)] *)
Definition check_for_lazy_critical_native (thread : JavaThread)
    (state : JavaThreadState) : JavaThread :=
  if bool_decide (state = _thread_in_native)
     && has_last_Java_frame thread && walkable thread then
    if in_lazy_critical_native thread then
      if negb (do_critical_native_unlock thread) then
        enter_critical_for_unlock thread
      else thread
    else thread
  else thread.

(** [SafepointSynchronize::decrement_waiting_to_block] *)
Definition decrement_waiting_to_block (ss : SafepointSynchronize)
  : SafepointSynchronize :=
  {| _state := _state ss;
     _waiting_to_block := _waiting_to_block ss - 1;
     _safepoint_counter := _safepoint_counter ss;
     _current_jni_active_count := _current_jni_active_count ss |}.

(** [SafepointSynchronize::increment_jni_active_count] *)
Definition increment_jni_active_count (ss : SafepointSynchronize)
  : SafepointSynchronize :=
  {| _state := _state ss;
     _waiting_to_block := _waiting_to_block ss;
     _safepoint_counter := _safepoint_counter ss;
     _current_jni_active_count := _current_jni_active_count ss + 1 |}.

(** [ThreadSafepointState::account_safe_thread] *)
Definition account_safe_thread (ss : SafepointSynchronize) (thread : JavaThread)
  : SafepointSynchronize * JavaThread :=
  let ss := decrement_waiting_to_block ss in
  let ss := if in_critical thread then increment_jni_active_count ss else ss in
  (ss, with_safepoint_state (set_safepoint_safe true (safepoint_state thread)) thread).

(** [ThreadSafepointState::examine_state_of_thread]; the three loads of
    [try_stable_load_state] are passed in. *)
Definition examine_state_of_thread (state1 : JavaThreadState) (sid : Z)
    (state2 : JavaThreadState) (safepoint_count : Z)
    (ss : SafepointSynchronize) (thread : JavaThread)
  : SafepointSynchronize * JavaThread :=
  match try_stable_load_state state1 sid state2 safepoint_count with
  | None => (ss, thread)
  | Some stable_state =>
      let thread :=
        with_safepoint_state
          (set_orig_thread_state stable_state (safepoint_state thread)) thread in
      if is_ext_suspended thread then account_safe_thread ss thread
      else if safepoint_safe_with thread stable_state then
        account_safe_thread ss (check_for_lazy_critical_native thread stable_state)
      else (ss, thread)
  end.

(** [static bool thread_not_running(ThreadSafepointState *cur_state)], on a thread
    whose state does not change during the call. *)
Definition thread_not_running (ss : SafepointSynchronize) (thread : JavaThread)
  : bool * (SafepointSynchronize * JavaThread) :=
  if negb (is_running (safepoint_state thread)) then (true, (ss, thread))
  else
    let '(ss', thread') :=
      examine_state_of_thread (thread_state thread)
        (get_safepoint_id (safepoint_state thread)) (thread_state thread)
        (_safepoint_counter ss) ss thread in
    if negb (is_running (safepoint_state thread')) then (true, (ss', thread'))
    else (false, (ss', thread')).

(** *** synchronize_threads *)

Inductive Outcome (A : Type) :=
| Done (a : A)
| Fatal                                   (* a failed [guarantee], or [fatal] *)
| OutOfFuel.                              (* the environment given was too short *)
Arguments Done {A} a.
Arguments Fatal {A}.
Arguments OutOfFuel {A}.

(** What the rest of the system does during one iteration of the spin
    loop: the two clock readings of the iteration, and the workers that
    moved to another state (and safepoint id) before the pass. *)
Record Move := {
  who : nat;
  new_thread_state : JavaThreadState;
  new_safepoint_id : Z;
}.

Record Tick := {
  now_at_limit_check : Z;                 (* os::javaTimeNanos() at the timeout test *)
  moved : list Move;
  now_at_back_off : Z;                    (* os::javaTimeNanos() inside back_off *)
}.

Definition apply_move (threads : list JavaThread) (m : Move) : list JavaThread :=
  alter (fun t =>
           with_thread_state (new_thread_state m)
             (with_safepoint_state
                (set_safepoint_id (new_safepoint_id m) (safepoint_state t)) t))
        (who m) threads.

Inductive SyncEvent :=
| ev_print_safepoint_timeout
| ev_pass (still_running : Z)             (* one walk of the list, and what it left *)
| ev_back_off (s : Sleep).

#[export] Instance Sleep_eq_dec : EqDecision Sleep.
Proof. solve_decision. Defined.

#[export] Instance SyncEvent_eq_dec : EqDecision SyncEvent.
Proof. solve_decision. Defined.

(** One walk over the list [tss] of still-running threads (the [while
    (cur_tss != NULL)] loop, and the [for] loop of the first iteration):
    threads found not running are unlinked and [still_running] is
    decremented. *)
Fixpoint walk (tss : list nat) (ss : SafepointSynchronize) (threads : list JavaThread)
    (still_running : Z)
  : list nat * SafepointSynchronize * list JavaThread * Z :=
  match tss with
  | [] => ([], ss, threads, still_running)
  | cur :: rest =>
      match threads !! cur with
      | None => walk rest ss threads still_running
      | Some thread =>
          let '(not_running, (ss', thread')) := thread_not_running ss thread in
          let threads' := <[cur := thread']> threads in
          if not_running then walk rest ss' threads' (still_running - 1)
          else
            let '(tss', ss'', threads'', still'') :=
              walk rest ss' threads' still_running in
            (cur :: tss', ss'', threads'', still'')
      end
  end.

(** [SafepointSynchronize::print_safepoint_timeout]: reports, and is fatal
    under [AbortVMOnSafepointTimeout]. *)
Definition print_safepoint_timeout (f : Flags) : Outcome unit :=
  if AbortVMOnSafepointTimeout f then Fatal else Done tt.

Record SyncResult := {
  sync_iterations : Z;
  sync_initial_running : Z;
  sync_statics : SafepointSynchronize;
  sync_threads : list JavaThread;
  sync_events : list SyncEvent;
}.

(** The [do { ... } while (still_running > 0)] loop; one [Tick] is
    consumed per iteration. *)
Fixpoint spin (f : Flags) (page_armed : bool) (safepoint_limit_time start_time : Z)
    (ticks : list Tick) (tss : list nat) (ss : SafepointSynchronize)
    (threads : list JavaThread) (still_running iterations initial_running : Z)
    (events : list SyncEvent) : Outcome SyncResult :=
  match ticks with
  | [] => OutOfFuel
  | tick :: ticks' =>
      let timed_out :=
        SafepointTimeout f && (safepoint_limit_time <? now_at_limit_check tick) in
      match (if timed_out then print_safepoint_timeout f else Done tt) with
      | Fatal => Fatal
      | OutOfFuel => OutOfFuel
      | Done _ =>
          let events :=
            if timed_out then events ++ [ev_print_safepoint_timeout] else events in
          if (iterations =? -1) && page_armed then Fatal
          else
            let threads := foldl apply_move threads (moved tick) in
            let '(tss', ss', threads', still') := walk tss ss threads still_running in
            let events := events ++ [ev_pass still'] in
            let events :=
              if 0 <? still' then
                events ++ [ev_back_off (back_off (now_at_back_off tick) start_time)]
              else events in
            let iterations := wrap_s32 (iterations + 1) in
            if 0 <? still' then
              spin f page_armed safepoint_limit_time start_time ticks' tss' ss'
                threads' still' iterations initial_running events
            else
              Done {| sync_iterations := iterations;
                      sync_initial_running := initial_running;
                      sync_statics := ss';
                      sync_threads := threads';
                      sync_events := events |}
      end
  end.

(** [SafepointSynchronize::synchronize_threads]; [start_time] is the
    clock reading taken before the loop. *)
Definition synchronize_threads (f : Flags) (page_armed : bool)
    (safepoint_limit_time : Z) (nof_threads : Z) (start_time : Z)
    (ticks : list Tick) (ss : SafepointSynchronize) (threads : list JavaThread)
  : Outcome SyncResult :=
  let still_running := nof_threads in
  let '(tss_head, ss, threads, still_running) :=
    walk (seq 0 (length threads)) ss threads still_running in
  let initial_running := still_running in
  if still_running <=? 0 then
    Done {| sync_iterations := 1;
            sync_initial_running := initial_running;
            sync_statics := ss;
            sync_threads := threads;
            sync_events := [] |}
  else
    spin f page_armed safepoint_limit_time start_time ticks tss_head ss threads
      still_running 1 initial_running [].

(** *** block *)

(** The actions of [SafepointSynchronize::block] that other threads can
    observe or that can suspend the caller, in program order. *)
Inductive BlockAction :=
| do_break_tty_lock_for_safepoint
| do_block_if_vm_exited
| do_make_walkable
| do_set_safepoint_id (safepoint_id : Z)
| do_storestore
| do_set_thread_state_fence (s : JavaThreadState)
| do_wait (barrier_tag : Z)                (* _wait_barrier->wait(tag) *)
| do_loadstore
| do_set_thread_state (s : JavaThreadState)
| do_reset_safepoint_id
| do_fence
| do_guarantee_safepoint_id_inactive
| do_special_runtime_exit_condition (check_asyncs : bool).

#[export] Instance BlockAction_eq_dec : EqDecision BlockAction.
Proof. solve_decision. Defined.

Inductive BlockEnd :=
| block_returns
| block_never_returns                      (* parked in block_if_vm_exited *)
| block_fatal.                             (* fatal("Illegal threadstate encountered") *)

(** [SafepointSynchronize::block(JavaThread *thread)].  [vm_exited] decides
    whether [block_if_vm_exited] parks the thread for good;
    [safepoint_counter] is the value [SafepointSynchronize::safepoint_counter()]
    returns when the thread loads it. *)
Definition block (vm_exited : bool) (safepoint_counter : Z) (thread : JavaThread)
  : list BlockAction * BlockEnd :=
  if is_terminated thread then
    ([do_break_tty_lock_for_safepoint; do_block_if_vm_exited],
     if vm_exited then block_never_returns else block_returns)
  else
    let state := thread_state thread in
    let safepoint_id := safepoint_counter in
    match state with
    | _thread_in_vm_trans
    | _thread_in_Java
    | _thread_in_native_trans
    | _thread_blocked_trans
    | _thread_new_trans =>
        ([do_break_tty_lock_for_safepoint;
          do_make_walkable;
          do_set_safepoint_id safepoint_id;
          do_storestore;
          do_set_thread_state_fence _thread_blocked;
          do_wait (static_cast_int safepoint_id);
          do_loadstore;
          do_set_thread_state state;
          do_reset_safepoint_id;
          do_fence;
          do_guarantee_safepoint_id_inactive]
         ++ (if negb (bool_decide (state = _thread_blocked_trans))
                && negb (bool_decide (state = _thread_in_vm_trans)) then
               [do_special_runtime_exit_condition
                  (negb (_at_poll_safepoint (safepoint_state thread))
                   && negb (bool_decide (state = _thread_in_native_trans)))]
             else []),
         block_returns)
    | _ =>
        ([do_break_tty_lock_for_safepoint; do_make_walkable], block_fatal)
    end.

(** What one action of [block] does to the calling thread's own record;
    [None] is a failed [guarantee]. *)
Definition run_block_action (a : BlockAction) (thread : JavaThread)
  : option JavaThread :=
  match a with
  | do_make_walkable => Some (make_walkable thread)
  | do_set_safepoint_id id =>
      Some (with_safepoint_state (set_safepoint_id id (safepoint_state thread)) thread)
  | do_set_thread_state_fence s => Some (with_thread_state s thread)
  | do_set_thread_state s => Some (with_thread_state s thread)
  | do_reset_safepoint_id =>
      Some (with_safepoint_state (reset_safepoint_id (safepoint_state thread)) thread)
  | do_guarantee_safepoint_id_inactive =>
      if get_safepoint_id (safepoint_state thread) =? InactiveSafepointCounter
      then Some thread else None
  | do_special_runtime_exit_condition _ =>
      if has_special_runtime_exit_condition thread
      then Some (clear_special_runtime_exit_condition thread)
      else Some thread
  | do_break_tty_lock_for_safepoint | do_block_if_vm_exited
  | do_storestore | do_wait _ | do_loadstore | do_fence => Some thread
  end.

Fixpoint run_block_actions (l : list BlockAction) (thread : JavaThread)
  : option JavaThread :=
  match l with
  | [] => Some thread
  | a :: l' =>
      match run_block_action a thread with
      | Some thread' => run_block_actions l' thread'
      | None => None
      end
  end.

(** *** begin and end, as the VM thread's sequence of actions *)

(** One constructor per statement of [begin], [arm_safepoint] and
    [disarm_safepoint] that touches shared state (or orders such accesses). *)
Inductive VMAction :=
| Threads_lock_lock
| store_current_jni_active_count_0         (* _current_jni_active_count = 0 *)
| store_waiting_to_block_nof_threads       (* _waiting_to_block = nof_threads *)
| wait_barrier_arm                         (* _wait_barrier->arm(static_cast<int>(_safepoint_counter + 1)) *)
| release_store_safepoint_counter          (* release_store(&_safepoint_counter, _safepoint_counter + 1) *)
| OrderAccess_storestore
| OrderAccess_fence
| store_state (s : SynchronizeState)       (* _state = s *)
| arm_local_polls                          (* SafepointMechanism::arm_local_poll(cur), all threads *)
| notice_safepoints
| guarantee_PageArmed (b : bool)           (* guarantee(PageArmed == b) *)
| store_PageArmed (b : bool)
| make_polling_page_unreadable
| call_synchronize_threads
| set_jni_lock_count                       (* GCLocker::set_jni_lock_count(_current_jni_active_count) *)
| call_do_cleanup_tasks
| make_polling_page_readable
| ignore_safepoints
| restart_threads                          (* cur_state->restart(); disarm_if_needed(current), all threads *)
| Threads_lock_unlock
| wait_barrier_disarm.

#[export] Instance VMAction_eq_dec : EqDecision VMAction.
Proof. solve_decision. Defined.

(** [SafepointSynchronize::arm_safepoint] *)
Definition arm_safepoint (f : Flags) : list VMAction :=
  [wait_barrier_arm;
   release_store_safepoint_counter;
   OrderAccess_storestore;
   store_state _synchronizing]
  ++ (if uses_thread_local_poll f then [OrderAccess_storestore; arm_local_polls]
      else [])
  ++ [OrderAccess_fence]
  ++ (if uses_global_page_poll f then
        [notice_safepoints; guarantee_PageArmed false; store_PageArmed true;
         make_polling_page_unreadable]
      else []).

(** [SafepointSynchronize::begin] *)
Definition SafepointSynchronize_begin (f : Flags) : list VMAction :=
  [Threads_lock_lock;
   store_current_jni_active_count_0;
   store_waiting_to_block_nof_threads]
  ++ arm_safepoint f
  ++ [call_synchronize_threads;
      store_state _synchronized;
      OrderAccess_fence;
      set_jni_lock_count;
      call_do_cleanup_tasks].

(** [SafepointSynchronize::disarm_safepoint] *)
Definition disarm_safepoint (f : Flags) : list VMAction :=
  (if uses_global_page_poll f then
     [guarantee_PageArmed true; make_polling_page_readable; store_PageArmed false;
      ignore_safepoints]
   else [])
  ++ [OrderAccess_fence;
      store_state _not_synchronized;
      release_store_safepoint_counter;
      OrderAccess_fence;
      restart_threads;
      Threads_lock_unlock;
      wait_barrier_disarm].

(** [SafepointSynchronize::end] *)
Definition SafepointSynchronize_end (f : Flags) : list VMAction :=
  disarm_safepoint f.

(** *** The system: the VM thread, the workers, and what they share *)

Record Worker := {
  java_thread : JavaThread;
  in_block : option (list BlockAction * BlockEnd);  (* what is left of a call of block *)
}.

Record World := {
  statics : SafepointSynchronize;
  barrier : WaitBarrier;                   (* *_wait_barrier *)
  PageArmed : bool;
  Threads_lock_owned : bool;               (* by the VM thread *)
  jni_lock_count : Z;
  Threads : list Worker;
  vm_thread : list VMAction;               (* what is left of begin() or end() *)
}.

Definition with_statics (ss : SafepointSynchronize) (w : World) : World :=
  {| statics := ss; barrier := barrier w; PageArmed := PageArmed w;
     Threads_lock_owned := Threads_lock_owned w; jni_lock_count := jni_lock_count w;
     Threads := Threads w; vm_thread := vm_thread w |}.

Definition with_barrier (b : WaitBarrier) (w : World) : World :=
  {| statics := statics w; barrier := b; PageArmed := PageArmed w;
     Threads_lock_owned := Threads_lock_owned w; jni_lock_count := jni_lock_count w;
     Threads := Threads w; vm_thread := vm_thread w |}.

Definition with_PageArmed (b : bool) (w : World) : World :=
  {| statics := statics w; barrier := barrier w; PageArmed := b;
     Threads_lock_owned := Threads_lock_owned w; jni_lock_count := jni_lock_count w;
     Threads := Threads w; vm_thread := vm_thread w |}.

Definition with_Threads_lock (b : bool) (w : World) : World :=
  {| statics := statics w; barrier := barrier w; PageArmed := PageArmed w;
     Threads_lock_owned := b; jni_lock_count := jni_lock_count w;
     Threads := Threads w; vm_thread := vm_thread w |}.

Definition with_jni_lock_count (n : Z) (w : World) : World :=
  {| statics := statics w; barrier := barrier w; PageArmed := PageArmed w;
     Threads_lock_owned := Threads_lock_owned w; jni_lock_count := n;
     Threads := Threads w; vm_thread := vm_thread w |}.

Definition with_Threads (l : list Worker) (w : World) : World :=
  {| statics := statics w; barrier := barrier w; PageArmed := PageArmed w;
     Threads_lock_owned := Threads_lock_owned w; jni_lock_count := jni_lock_count w;
     Threads := l; vm_thread := vm_thread w |}.

Definition with_vm_thread (l : list VMAction) (w : World) : World :=
  {| statics := statics w; barrier := barrier w; PageArmed := PageArmed w;
     Threads_lock_owned := Threads_lock_owned w; jni_lock_count := jni_lock_count w;
     Threads := Threads w; vm_thread := l |}.

Definition with_state (s : SynchronizeState) (ss : SafepointSynchronize)
  : SafepointSynchronize :=
  {| _state := s;
     _waiting_to_block := _waiting_to_block ss;
     _safepoint_counter := _safepoint_counter ss;
     _current_jni_active_count := _current_jni_active_count ss |}.

Definition with_waiting_to_block (n : Z) (ss : SafepointSynchronize)
  : SafepointSynchronize :=
  {| _state := _state ss;
     _waiting_to_block := n;
     _safepoint_counter := _safepoint_counter ss;
     _current_jni_active_count := _current_jni_active_count ss |}.

Definition with_safepoint_counter (n : Z) (ss : SafepointSynchronize)
  : SafepointSynchronize :=
  {| _state := _state ss;
     _waiting_to_block := _waiting_to_block ss;
     _safepoint_counter := n;
     _current_jni_active_count := _current_jni_active_count ss |}.

Definition with_current_jni_active_count (n : Z) (ss : SafepointSynchronize)
  : SafepointSynchronize :=
  {| _state := _state ss;
     _waiting_to_block := _waiting_to_block ss;
     _safepoint_counter := _safepoint_counter ss;
     _current_jni_active_count := n |}.

Definition on_thread (g : JavaThread -> JavaThread) (wk : Worker) : Worker :=
  {| java_thread := g (java_thread wk); in_block := in_block wk |}.

(** [void SafepointSynchronize::... release_store(&_safepoint_counter,
    _safepoint_counter + 1)]: the one store to the counter. *)
Definition increment_safepoint_counter (ss : SafepointSynchronize)
  : SafepointSynchronize :=
  with_safepoint_counter (wrap_u64 (_safepoint_counter ss + 1)) ss.

(** What an action of the VM thread does to the shared state.  [None]: the
    action cannot be taken in [w] (a failed [guarantee], or
    [synchronize_threads] while a thread is still running).  The call of
    [synchronize_threads] is the wait for its return; the runs in which it
    ends the VM instead (the abort on a timeout, the [guarantee] on the
    overflow of its iteration count) go no further and are no transition
    here: [spin] has them. *)
Definition run_vm_action (a : VMAction) (w : World) : option World :=
  match a with
  | Threads_lock_lock =>
      if Threads_lock_owned w then None else Some (with_Threads_lock true w)
  | store_current_jni_active_count_0 =>
      Some (with_statics (with_current_jni_active_count 0 (statics w)) w)
  | store_waiting_to_block_nof_threads =>
      Some (with_statics
              (with_waiting_to_block (Z.of_nat (length (Threads w))) (statics w)) w)
  | wait_barrier_arm =>
      Some (with_barrier
              (arm (static_cast_int (wrap_u64 (_safepoint_counter (statics w) + 1)))
                   (barrier w)) w)
  | release_store_safepoint_counter =>
      Some (with_statics (increment_safepoint_counter (statics w)) w)
  | store_state s => Some (with_statics (with_state s (statics w)) w)
  | arm_local_polls =>
      Some (with_Threads (on_thread (with_local_poll true) <$> Threads w) w)
  | guarantee_PageArmed b =>
      if bool_decide (PageArmed w = b) then Some w else None
  | store_PageArmed b => Some (with_PageArmed b w)
  | call_synchronize_threads =>
      if forallb (fun wk => negb (is_running (safepoint_state (java_thread wk))))
           (Threads w)
      then Some w else None
  | set_jni_lock_count =>
      Some (with_jni_lock_count (_current_jni_active_count (statics w)) w)
  | restart_threads =>
      Some (with_Threads
              (on_thread (fun t =>
                 with_local_poll false
                   (with_safepoint_state (restart (safepoint_state t)) t))
               <$> Threads w) w)
  | Threads_lock_unlock => Some (with_Threads_lock false w)
  | wait_barrier_disarm => Some (with_barrier (disarm (barrier w)) w)
  | OrderAccess_storestore | OrderAccess_fence | notice_safepoints
  | make_polling_page_unreadable | call_do_cleanup_tasks
  | make_polling_page_readable | ignore_safepoints => Some w
  end.

(** Modelled from the spec: the poll check of SafepointMechanism ("a
    direct load of the per-worker poll word plus a conditional branch to
    the slow path"; with the global page, the global state stands for the
    page).  runtime/safepointMechanism.hpp is not among the sources at hand. *)
Definition should_block (f : Flags) (w : World) (thread : JavaThread) : bool :=
  if uses_thread_local_poll f then local_poll_armed thread
  else negb (bool_decide (_state (statics w) = _not_synchronized)).

Inductive Label :=
| VM_begin                                 (* the VM thread calls begin() *)
| VM_end                                   (* the VM thread calls end() *)
| VM_step                                  (* the VM thread takes its next action *)
| VM_examine (i : nat)                     (* in synchronize_threads: thread_not_running on thread i *)
| Thread_poll (i : nat)                    (* thread i enters block() and loads the counter *)
| Thread_step (i : nat)                    (* thread i takes its next action of block() *)
| Thread_transition (i : nat) (s : JavaThreadState).  (* thread i, running, changes state *)

#[export] Instance Label_eq_dec : EqDecision Label.
Proof. solve_decision. Defined.

Definition step (f : Flags) (l : Label) (w : World) : option World :=
  match l with
  | VM_begin =>
      match vm_thread w with
      | [] => if Threads_lock_owned w then None
              else Some (with_vm_thread (SafepointSynchronize_begin f) w)
      | _ => None
      end
  | VM_end =>
      match vm_thread w with
      | [] => if Threads_lock_owned w
              then Some (with_vm_thread (SafepointSynchronize_end f) w)
              else None
      | _ => None
      end
  | VM_step =>
      match vm_thread w with
      | [] => None
      | a :: rest => with_vm_thread rest <$> run_vm_action a w
      end
  | VM_examine i =>
      match vm_thread w, Threads w !! i with
      | call_synchronize_threads :: _, Some wk =>
          let '(_, (ss, thread)) := thread_not_running (statics w) (java_thread wk) in
          Some (with_statics ss
                  (with_Threads
                     (<[i := {| java_thread := thread; in_block := in_block wk |}]>
                        (Threads w)) w))
      | _, _ => None
      end
  | Thread_poll i =>
      match Threads w !! i with
      | Some {| java_thread := thread; in_block := None |} =>
          Some (with_Threads
                  (<[i := {| java_thread := thread;
                             in_block :=
                               Some (block false (_safepoint_counter (statics w))
                                       thread) |}]> (Threads w)) w)
      | _ => None
      end
  | Thread_step i =>
      match Threads w !! i with
      | Some {| java_thread := thread; in_block := Some (a :: rest, e) |} =>
          if match a with
             | do_wait tag => wait_returns tag (barrier w)
             | _ => true
             end
          then
            thread' ← run_block_action a thread;
            Some (with_Threads
                    (<[i := {| java_thread := thread';
                               in_block := Some (rest, e) |}]> (Threads w)) w)
          else None
      | Some {| java_thread := thread; in_block := Some ([], block_returns) |} =>
          Some (with_Threads
                  (<[i := {| java_thread := thread; in_block := None |}]> (Threads w)) w)
      | _ => None
      end
  | Thread_transition i s =>
      match Threads w !! i with
      | Some {| java_thread := thread; in_block := None |} =>
          if should_block f w thread then None
          else
            Some (with_Threads
                    (<[i := {| java_thread := with_thread_state s thread;
                               in_block := None |}]> (Threads w)) w)
      | _ => None
      end
  end.

Fixpoint run (f : Flags) (ls : list Label) (w : World) : option World :=
  match ls with
  | [] => Some w
  | l :: ls' =>
      match step f l w with
      | Some w' => run f ls' w'
      | None => None
      end
  end.

(** The VM at start-up: the statics as initialised in safepoint.cpp, the
    barrier disarmed, and some registered threads. *)
Definition init (threads : list JavaThread) : World :=
  {| statics := {| _state := _not_synchronized;
                   _waiting_to_block := 0;
                   _safepoint_counter := 0;
                   _current_jni_active_count := 0 |};
     barrier := {| _barrier_tag := 0 |};
     PageArmed := false;
     Threads_lock_owned := false;
     jni_lock_count := 0;
     Threads := (fun t => {| java_thread := t; in_block := None |}) <$> threads;
     vm_thread := [] |}.

Definition reachable (f : Flags) (threads : list JavaThread) (w : World) : Prop :=
  exists ls, run f ls (init threads) = Some w.

(** *** The cleanup tasks *)

(** Modelled from the spec: the "fixed enumerated set of cleanup subtasks
    (idle-lock deflation, inline-cache update, compilation policy tick,
    symbol-table rehash, string-table rehash, class-loader purge,
    dictionary resize)"; the enumeration is declared in
    runtime/safepoint.hpp, which is not among the sources at hand, and
    [work] names its members. *)
Inductive SafepointCleanupTasks :=
| SAFEPOINT_CLEANUP_DEFLATE_MONITORS
| SAFEPOINT_CLEANUP_UPDATE_INLINE_CACHES
| SAFEPOINT_CLEANUP_COMPILATION_POLICY
| SAFEPOINT_CLEANUP_SYMBOL_TABLE_REHASH
| SAFEPOINT_CLEANUP_STRING_TABLE_REHASH
| SAFEPOINT_CLEANUP_CLD_PURGE
| SAFEPOINT_CLEANUP_SYSTEM_DICTIONARY_RESIZE.

#[export] Instance SafepointCleanupTasks_eq_dec : EqDecision SafepointCleanupTasks.
Proof. solve_decision. Defined.

Definition SAFEPOINT_CLEANUP_NUM_TASKS : nat := 7.

(** The value of an enumerator. *)
Definition task_number (t : SafepointCleanupTasks) : nat :=
  match t with
  | SAFEPOINT_CLEANUP_DEFLATE_MONITORS => 0
  | SAFEPOINT_CLEANUP_UPDATE_INLINE_CACHES => 1
  | SAFEPOINT_CLEANUP_COMPILATION_POLICY => 2
  | SAFEPOINT_CLEANUP_SYMBOL_TABLE_REHASH => 3
  | SAFEPOINT_CLEANUP_STRING_TABLE_REHASH => 4
  | SAFEPOINT_CLEANUP_CLD_PURGE => 5
  | SAFEPOINT_CLEANUP_SYSTEM_DICTIONARY_RESIZE => 6
  end%nat.

(** Modelled from the spec: the single-claim counter of the dispatcher
    ("each worker thread in the dispatcher pool performs cas on a per-task
    claimed bit; only the winner runs the task; a final barrier waits
    until all workers report completion").  [SubTasksDone] is declared in
    gc/shared/workgroup.hpp, which is not among the sources at hand. *)
Record SubTasksDone := {
  _tasks : list bool;                      (* the claimed bit of each task *)
  _threads_completed : nat;
}.

Definition new_SubTasksDone (n : nat) : SubTasksDone :=
  {| _tasks := replicate n false; _threads_completed := 0 |}.

(** The [cas] on the claimed bit of task [t]: it succeeds iff the bit was clear. *)
Definition try_claim_task (t : nat) (st : SubTasksDone) : bool * SubTasksDone :=
  match _tasks st !! t with
  | Some false =>
      (true, {| _tasks := <[t := true]> (_tasks st);
                _threads_completed := _threads_completed st |})
  | _ => (false, st)
  end.

Definition all_tasks_completed (st : SubTasksDone) : SubTasksDone :=
  {| _tasks := _tasks st; _threads_completed := S (_threads_completed st) |}.

(** What the guarded blocks of [work] call. *)
Inductive CleanupCall :=
| deflate_idle_monitors
| update_inline_caches
| do_safepoint_work
| SymbolTable_rehash_table
| StringTable_rehash_table
| purge_if_needed
| resize_if_needed.

Record Needs := {
  SymbolTable_needs_rehashing : bool;
  StringTable_needs_rehashing : bool;
}.

(** The block [work] runs when its claim of [t] succeeds. *)
Definition task_body (needs : Needs) (t : SafepointCleanupTasks) : list CleanupCall :=
  match t with
  | SAFEPOINT_CLEANUP_DEFLATE_MONITORS => [deflate_idle_monitors]
  | SAFEPOINT_CLEANUP_UPDATE_INLINE_CACHES => [update_inline_caches]
  | SAFEPOINT_CLEANUP_COMPILATION_POLICY => [do_safepoint_work]
  | SAFEPOINT_CLEANUP_SYMBOL_TABLE_REHASH =>
      if SymbolTable_needs_rehashing needs then [SymbolTable_rehash_table] else []
  | SAFEPOINT_CLEANUP_STRING_TABLE_REHASH =>
      if StringTable_needs_rehashing needs then [StringTable_rehash_table] else []
  | SAFEPOINT_CLEANUP_CLD_PURGE => [purge_if_needed]
  | SAFEPOINT_CLEANUP_SYSTEM_DICTIONARY_RESIZE => [resize_if_needed]
  end.

(** The steps of [ParallelSPCleanupTask::work(uint worker_id)]. *)
Inductive WorkStep :=
| threads_do                               (* Threads::possibly_parallel_threads_do *)
| claim (t : SafepointCleanupTasks)        (* if (_subtasks.try_claim_task(t)) *)
| body (t : SafepointCleanupTasks)         (* the block guarded by that claim *)
| completed.                               (* _subtasks.all_tasks_completed(_num_workers) *)

#[export] Instance WorkStep_eq_dec : EqDecision WorkStep.
Proof. solve_decision. Defined.

Definition all_cleanup_tasks : list SafepointCleanupTasks :=
  [SAFEPOINT_CLEANUP_DEFLATE_MONITORS;
   SAFEPOINT_CLEANUP_UPDATE_INLINE_CACHES;
   SAFEPOINT_CLEANUP_COMPILATION_POLICY;
   SAFEPOINT_CLEANUP_SYMBOL_TABLE_REHASH;
   SAFEPOINT_CLEANUP_STRING_TABLE_REHASH;
   SAFEPOINT_CLEANUP_CLD_PURGE;
   SAFEPOINT_CLEANUP_SYSTEM_DICTIONARY_RESIZE].

(** [ParallelSPCleanupTask::work]: what a worker has to do, in order. *)
Definition work : list WorkStep :=
  [threads_do;
   claim SAFEPOINT_CLEANUP_DEFLATE_MONITORS;
   claim SAFEPOINT_CLEANUP_UPDATE_INLINE_CACHES;
   claim SAFEPOINT_CLEANUP_COMPILATION_POLICY;
   claim SAFEPOINT_CLEANUP_SYMBOL_TABLE_REHASH;
   claim SAFEPOINT_CLEANUP_STRING_TABLE_REHASH;
   claim SAFEPOINT_CLEANUP_CLD_PURGE;
   claim SAFEPOINT_CLEANUP_SYSTEM_DICTIONARY_RESIZE;
   completed].

(** The cleanup of one safepoint: the counter, what each worker of the
    gang has left to do, and what has happened so far ([claims]: the
    claims that succeeded, [runs]: the guarded blocks that were run, each
    with the worker's id; [calls]: what those blocks called). *)
Record Cleanup := {
  _subtasks : SubTasksDone;
  gang : list (list WorkStep);
  claims : list (nat * SafepointCleanupTasks);
  runs : list (nat * SafepointCleanupTasks);
  calls : list CleanupCall;
}.

(** [SafepointSynchronize::do_cleanup_tasks]: [cleanup_workers] is
    [heap->get_safepoint_workers()] with its [active_workers()], [None] for
    [NULL]: then the VM thread runs [work(0)] alone. *)
Definition do_cleanup_tasks (cleanup_workers : option nat) : Cleanup :=
  let num_cleanup_workers :=
    match cleanup_workers with
    | Some active_workers => active_workers
    | None => 1%nat
    end in
  {| _subtasks := new_SubTasksDone SAFEPOINT_CLEANUP_NUM_TASKS;
     gang := replicate num_cleanup_workers work;
     claims := [];
     runs := [];
     calls := [] |}.

(** The worker with id [worker_id] takes its next step. *)
Definition work_step (needs : Needs) (worker_id : nat) (c : Cleanup) : option Cleanup :=
  match gang c !! worker_id with
  | Some (st :: rest) =>
      match st with
      | threads_do =>
          Some {| _subtasks := _subtasks c; gang := <[worker_id := rest]> (gang c);
                  claims := claims c; runs := runs c; calls := calls c |}
      | claim t =>
          let '(won, subtasks) := try_claim_task (task_number t) (_subtasks c) in
          if won : bool then
            Some {| _subtasks := subtasks;
                    gang := <[worker_id := body t :: rest]> (gang c);
                    claims := claims c ++ [(worker_id, t)];
                    runs := runs c; calls := calls c |}
          else
            Some {| _subtasks := subtasks; gang := <[worker_id := rest]> (gang c);
                    claims := claims c; runs := runs c; calls := calls c |}
      | body t =>
          Some {| _subtasks := _subtasks c; gang := <[worker_id := rest]> (gang c);
                  claims := claims c;
                  runs := runs c ++ [(worker_id, t)];
                  calls := calls c ++ task_body needs t |}
      | completed =>
          Some {| _subtasks := all_tasks_completed (_subtasks c);
                  gang := <[worker_id := rest]> (gang c);
                  claims := claims c; runs := runs c; calls := calls c |}
      end
  | _ => None
  end.

Fixpoint work_run (needs : Needs) (schedule : list nat) (c : Cleanup) : option Cleanup :=
  match schedule with
  | [] => Some c
  | worker_id :: schedule' =>
      match work_step needs worker_id c with
      | Some c' => work_run needs schedule' c'
      | None => None
      end
  end.

(** [run_task] returns when every worker has finished [work]. *)
Definition all_done (c : Cleanup) : bool :=
  forallb (fun todo => bool_decide (todo = [])) (gang c).

(** How often [t] was claimed, and how often its block was run. *)
Definition times (t : SafepointCleanupTasks) (l : list (nat * SafepointCleanupTasks))
  : nat :=
  length (filter (fun e => e.2 = t) l).

(** A thread in one of the states [block] accepts. *)
Definition may_block (s : JavaThreadState) : Prop :=
  s = _thread_in_vm_trans \/ s = _thread_in_Java \/ s = _thread_in_native_trans
  \/ s = _thread_blocked_trans \/ s = _thread_new_trans.

(** The actions of [block] up to and including the state restore. *)
Definition block_protocol (g : Z) (state : JavaThreadState) : list BlockAction :=
  [do_break_tty_lock_for_safepoint;
   do_make_walkable;
   do_set_safepoint_id g;
   do_storestore;
   do_set_thread_state_fence _thread_blocked;
   do_wait (static_cast_int g);
   do_loadstore;
   do_set_thread_state state;
   do_reset_safepoint_id;
   do_fence;
   do_guarantee_safepoint_id_inactive].

(** *** What the parity argument looks at *)

(** Of a world: whether the counter is odd, the global state, and whether
    the VM thread holds [Threads_lock]. *)
Record View := {
  counter_is_odd : bool;
  state_is : SynchronizeState;
  lock_is_held : bool;
}.

Definition view (w : World) : View :=
  {| counter_is_odd := is_odd (_safepoint_counter (statics w));
     state_is := _state (statics w);
     lock_is_held := Threads_lock_owned w |}.

(** What an action of the VM thread does to the view. *)
Definition view_after (a : VMAction) (v : View) : View :=
  match a with
  | Threads_lock_lock =>
      {| counter_is_odd := counter_is_odd v; state_is := state_is v;
         lock_is_held := true |}
  | Threads_lock_unlock =>
      {| counter_is_odd := counter_is_odd v; state_is := state_is v;
         lock_is_held := false |}
  | release_store_safepoint_counter =>
      {| counter_is_odd := negb (counter_is_odd v); state_is := state_is v;
         lock_is_held := lock_is_held v |}
  | store_state s =>
      {| counter_is_odd := counter_is_odd v; state_is := s;
         lock_is_held := lock_is_held v |}
  | _ => v
  end.

(** [_state] is [_synchronizing] or [_synchronized] only while the counter is odd. *)
Definition active_implies_odd (v : View) : bool :=
  match state_is v with
  | _not_synchronized => true
  | _synchronizing | _synchronized => counter_is_odd v
  end.

(** Between [end] and [begin], and between [begin] and [end]. *)
Definition at_rest (v : View) : bool :=
  if lock_is_held v
  then counter_is_odd v && bool_decide (state_is v = _synchronized)
  else negb (counter_is_odd v) && bool_decide (state_is v = _not_synchronized).

(** [assert((_safepoint_counter & 0x1) == 0, "must be even")] where the
    barrier is armed. *)
Definition asserted (a : VMAction) (v : View) : bool :=
  match a with
  | wait_barrier_arm => negb (counter_is_odd v)
  | _ => true
  end.

(** The two windows in which the counter is already (or still) odd while
    [_state] is [_not_synchronized]: in [arm_safepoint] the store
    [_state = _synchronizing] is still ahead, in [disarm_safepoint] the
    store to the counter is. *)
Definition in_window (todo : list VMAction) : bool :=
  bool_decide (store_state _synchronizing ∈ todo)
  || bool_decide (release_store_safepoint_counter ∈ todo).

Definition odd_but_inactive (v : View) : bool :=
  counter_is_odd v && bool_decide (state_is v = _not_synchronized).

(** The rest of the VM thread's call keeps [active_implies_odd], is in a
    window whenever the counter is odd while the state is inactive, and
    ends at rest. *)
Fixpoint on_track (todo : list VMAction) (v : View) : bool :=
  active_implies_odd v &&
  (if odd_but_inactive v then in_window todo else true) &&
  match todo with
  | [] => at_rest v
  | a :: rest => asserted a v && on_track rest (view_after a v)
  end.

Definition counter (w : World) : Z := _safepoint_counter (statics w).

(** The armed tag is never even: it is 0 (disarmed) or odd. *)
Definition barrier_tag_ok (w : World) : Prop :=
  _barrier_tag (barrier w) = 0 \/ is_odd (_barrier_tag (barrier w)) = true.

Definition Inv (w : World) : Prop :=
  in_u64 (counter w)
  /\ on_track (vm_thread w) (view w) = true
  /\ barrier_tag_ok w.

(** The calls of [begin] and of [end] in an execution, and the stores to
    the counter the VM thread still has ahead of it in the current call. *)
Definition begins (ls : list Label) : Z :=
  Z.of_nat (length (filter (fun l => l = VM_begin) ls)).

Definition ends (ls : list Label) : Z :=
  Z.of_nat (length (filter (fun l => l = VM_end) ls)).

Definition pending_stores (todo : list VMAction) : Z :=
  Z.of_nat (length (filter (fun a => a = release_store_safepoint_counter) todo)).

(** *** The back-off policy in the specification's words *)





(** Whether a label is a call of [begin] or of [end]. *)
Definition is_call (l : Label) : Z :=
  match l with
  | VM_begin | VM_end => 1
  | _ => 0
  end.

(** *** Example inputs *)

Definition example_flags : Flags :=
  {| SafepointTimeout := false; AbortVMOnSafepointTimeout := false;
     uses_thread_local_poll := true; uses_global_page_poll := false |}.

(** A registered thread in state [s], not yet seen by any safepoint. *)
Definition example_thread (s : JavaThreadState) : JavaThread :=
  {| thread_state := s;
     safepoint_state := new_ThreadSafepointState;
     is_terminated := false;
     is_ext_suspended := false;
     has_last_Java_frame := true;
     walkable := false;
     jni_active_critical := 0;
     in_lazy_critical_native := false;
     do_critical_native_unlock := false;
     has_special_runtime_exit_condition := false;
     local_poll_armed := false |}.

Definition example_terminated_thread : JavaThread :=
  {| thread_state := _thread_in_native_trans;
     safepoint_state := new_ThreadSafepointState;
     is_terminated := true;
     is_ext_suspended := false;
     has_last_Java_frame := false;
     walkable := false;
     jni_active_critical := 0;
     in_lazy_critical_native := false;
     do_critical_native_unlock := false;
     has_special_runtime_exit_condition := false;
     local_poll_armed := true |}.

(** The world an execution leads to (the initial one if a label of the
    execution cannot be taken). *)
Definition world_after (f : Flags) (threads : list JavaThread) (ls : list Label)
  : World :=
  default (init threads) (run f ls (init threads)).

(** One worker running Java code; the VM thread arms the safepoint, the
    worker polls and blocks, the VM thread finds it blocked and finishes
    [begin]. *)
Definition schedule_into_safepoint : list Label :=
  VM_begin :: replicate 5 VM_step
  ++ Thread_poll 0 :: replicate 5 (Thread_step 0)
  ++ replicate 5 VM_step
  ++ VM_examine 0 :: replicate 5 VM_step.

(** The same, up to the VM thread's store to the counter in [arm_safepoint]. *)
Definition schedule_into_arm_window : list Label :=
  VM_begin :: replicate 5 VM_step.

(** A whole safepoint: [begin], then [end], the worker released. *)
Definition schedule_of_a_cycle : list Label :=
  schedule_into_safepoint
  ++ VM_end :: replicate 7 VM_step
  ++ replicate 8 (Thread_step 0).

(** Scenario S1 of the specification, seen from [synchronize_threads]:
    one worker in Java code while the safepoint with id 1 is being
    synchronized; it is still running in the first iteration of the loop
    (half a microsecond after the spin started) and is found blocked, with
    safepoint id 1, in the second. *)
Definition example_synchronizing : SafepointSynchronize :=
  {| _state := _synchronizing; _waiting_to_block := 1; _safepoint_counter := 1;
     _current_jni_active_count := 0 |}.

Definition example_ticks : list Tick :=
  [ {| now_at_limit_check := 7000100; moved := []; now_at_back_off := 7000500 |};
    {| now_at_limit_check := 7010600;
       moved := [ {| who := 0; new_thread_state := _thread_blocked;
                     new_safepoint_id := 1 |} ];
       now_at_back_off := 7010700 |} ].

(** *** What the single-claim argument looks at *)

Definition is_claimed (t : SafepointCleanupTasks) (c : Cleanup) : bool :=
  bool_decide (_tasks (_subtasks c) !! task_number t = Some true).

(** The guarded blocks of [t] that workers have claimed and not yet run. *)
Fixpoint pending_bodies (t : SafepointCleanupTasks) (g : list (list WorkStep)) : nat :=
  match g with
  | [] => 0
  | todo :: g' => (length (filter (fun st => st = body t) todo) + pending_bodies t g')%nat
  end.

Definition CleanupInv (c : Cleanup) : Prop :=
  length (_tasks (_subtasks c)) = SAFEPOINT_CLEANUP_NUM_TASKS
  /\ (forall t, times t (claims c) = if is_claimed t c then 1%nat else 0%nat)
  /\ (forall t, (times t (runs c) + pending_bodies t (gang c))%nat = times t (claims c))
  /\ (forall todo t, todo ∈ gang c -> claim t ∈ todo \/ is_claimed t c = true).

(** A bound on the steps a gang has left: a [claim] that succeeds is
    followed by its guarded block, so it counts twice. *)
Definition weight (st : WorkStep) : nat :=
  match st with
  | claim _ => 2
  | _ => 1
  end.

Fixpoint steps_in (todo : list WorkStep) : nat :=
  match todo with
  | [] => 0
  | st :: rest => weight st + steps_in rest
  end.

Fixpoint steps_left (g : list (list WorkStep)) : nat :=
  match g with
  | [] => 0
  | todo :: g' => steps_in todo + steps_left g'
  end.

(** Two workers of a gang taking turns. *)
Definition example_cleanup_schedule : list nat :=
  [0; 0; 1; 1; 1; 0; 0; 0; 0; 1; 1; 1; 1; 1; 1; 0; 0; 0; 0; 0; 0; 0; 1; 1; 1]%nat.

Definition example_needs : Needs :=
  {| SymbolTable_needs_rehashing := true; StringTable_needs_rehashing := false |}.

(** *** What the further properties of [block] and of the examination look at *)

(** The actions of a call of [block] that come before its wait on the barrier. *)
Fixpoint before_wait (l : list BlockAction) : list BlockAction :=
  match l with
  | [] => []
  | do_wait _ :: _ => []
  | a :: l' => a :: before_wait l'
  end.

(** The calling thread's record when it reaches [_wait_barrier->wait]. *)
Definition at_the_barrier (vm_exited : bool) (safepoint_counter : Z)
    (thread : JavaThread) : option JavaThread :=
  run_block_actions (before_wait (block vm_exited safepoint_counter thread).1) thread.

(** How many elements of a list pass a test. *)
Fixpoint number_of {A : Type} (p : A -> bool) (l : list A) : Z :=
  match l with
  | [] => 0
  | x :: l' => (if p x then 1 else 0) + number_of p l'
  end.

Definition is_safe (t : JavaThread) : bool := negb (is_running (safepoint_state t)).

(** The threads found safe that are inside a JNI critical region. *)
Definition safe_in_critical (t : JavaThread) : bool := is_safe t && in_critical t.

(** A thread in native code inside a lazy critical native, not yet seen by a
    safepoint. *)
Definition example_native_thread : JavaThread :=
  {| thread_state := _thread_in_native;
     safepoint_state := new_ThreadSafepointState;
     is_terminated := false;
     is_ext_suspended := false;
     has_last_Java_frame := true;
     walkable := true;
     jni_active_critical := 0;
     in_lazy_critical_native := true;
     do_critical_native_unlock := false;
     has_special_runtime_exit_condition := false;
     local_poll_armed := false |}.

(** Two records of a thread that agree on what the accounting looks at:
    the safe/running flag and the critical count. *)
Definition same_account (t t' : JavaThread) : Prop :=
  is_running (safepoint_state t') = is_running (safepoint_state t)
  /\ jni_active_critical t' = jni_active_critical t.

(** Three registered threads: one running Java code, one blocked, and one
    in native code inside a JNI critical region. *)
Definition example_threads : list JavaThread :=
  [example_thread _thread_in_Java; example_thread _thread_blocked; example_native_thread].

(** The first thread reaches the wait of [block] before the second pass. *)
Definition example_ticks_for_three : list Tick :=
  [ {| now_at_limit_check := 7000100; moved := []; now_at_back_off := 7000500 |};
    {| now_at_limit_check := 7010600;
       moved := [ {| who := 0; new_thread_state := _thread_blocked;
                     new_safepoint_id := 1 |} ];
       now_at_back_off := 7010700 |} ].

Definition example_synchronizing_three : SafepointSynchronize :=
  {| _state := _synchronizing; _waiting_to_block := 3; _safepoint_counter := 1;
     _current_jni_active_count := 0 |}.

(** [synchronize_threads] on the three threads, in the safepoint with id 1. *)
Definition example_outcome_three : Outcome SyncResult :=
  synchronize_threads example_flags false 0 3 7000000 example_ticks_for_three
    example_synchronizing_three example_threads.

(** *** What the VM thread has established, along [begin] and [end] *)

(** How the tag the barrier is armed with relates to the counter. *)
Inductive TagIs :=
| tag_disarmed                             (* 0 *)
| tag_of_next                              (* static_cast<int>(_safepoint_counter + 1) *)
| tag_of_counter                           (* static_cast<int>(_safepoint_counter) *)
| tag_of_previous.                         (* the counter was stored again since *)

(** What is known of the threads' safe/running flags and of
    [_waiting_to_block]. *)
Inductive ThreadsAre :=
| threads_any
| threads_all_running
| threads_counted                          (* _waiting_to_block is the number of running threads *)
| threads_stopped                          (* none is running *)
| threads_none_running.                    (* none is running and _waiting_to_block is 0 *)

Record Facts := {
  lock_held : bool;
  page_armed : bool;
  state_now : SynchronizeState;
  tag_is : TagIs;
  threads_are : ThreadsAre;
}.

#[export] Instance TagIs_eq_dec : EqDecision TagIs.
Proof. solve_decision. Defined.

#[export] Instance ThreadsAre_eq_dec : EqDecision ThreadsAre.
Proof. solve_decision. Defined.

Definition running (wk : Worker) : bool :=
  is_running (safepoint_state (java_thread wk)).

Definition tag_holds (r : TagIs) (w : World) : Prop :=
  match r with
  | tag_disarmed => _barrier_tag (barrier w) = 0
  | tag_of_next =>
      _barrier_tag (barrier w) = static_cast_int (wrap_u64 (counter w + 1))
  | tag_of_counter => _barrier_tag (barrier w) = static_cast_int (counter w)
  | tag_of_previous => True
  end.

Definition threads_hold (r : ThreadsAre) (w : World) : Prop :=
  match r with
  | threads_any => True
  | threads_all_running => Forall (fun wk => running wk = true) (Threads w)
  | threads_counted =>
      _waiting_to_block (statics w) = number_of running (Threads w)
  | threads_stopped => Forall (fun wk => running wk = false) (Threads w)
  | threads_none_running =>
      Forall (fun wk => running wk = false) (Threads w)
      /\ _waiting_to_block (statics w) = 0
  end.

Definition describes (v : Facts) (w : World) : Prop :=
  Threads_lock_owned w = lock_held v
  /\ PageArmed w = page_armed v
  /\ _state (statics w) = state_now v
  /\ tag_holds (tag_is v) w
  /\ threads_hold (threads_are v) w.

Definition with_threads_are (r : ThreadsAre) (v : Facts) : Facts :=
  {| lock_held := lock_held v; page_armed := page_armed v;
     state_now := state_now v; tag_is := tag_is v; threads_are := r |}.

Definition with_tag_is (r : TagIs) (v : Facts) : Facts :=
  {| lock_held := lock_held v; page_armed := page_armed v;
     state_now := state_now v; tag_is := r; threads_are := threads_are v |}.

(** What an action of the VM thread makes of the facts; [None] where the
    facts do not let the action through. *)
Definition facts_after (a : VMAction) (v : Facts) : option Facts :=
  match a with
  | Threads_lock_lock =>
      if lock_held v then None
      else Some {| lock_held := true; page_armed := page_armed v;
                   state_now := state_now v; tag_is := tag_is v;
                   threads_are := threads_are v |}
  | Threads_lock_unlock =>
      Some {| lock_held := false; page_armed := page_armed v;
              state_now := state_now v; tag_is := tag_is v;
              threads_are := threads_are v |}
  | store_waiting_to_block_nof_threads =>
      match threads_are v with
      | threads_all_running => Some (with_threads_are threads_counted v)
      | threads_any => Some v
      | _ => None
      end
  | wait_barrier_arm => Some (with_tag_is tag_of_next v)
  | release_store_safepoint_counter =>
      match tag_is v with
      | tag_of_next => Some (with_tag_is tag_of_counter v)
      | tag_of_counter => Some (with_tag_is tag_of_previous v)
      | _ => None
      end
  | wait_barrier_disarm => Some (with_tag_is tag_disarmed v)
  | store_state s =>
      Some {| lock_held := lock_held v; page_armed := page_armed v;
              state_now := s; tag_is := tag_is v; threads_are := threads_are v |}
  | guarantee_PageArmed b =>
      if bool_decide (page_armed v = b) then Some v else None
  | store_PageArmed b =>
      Some {| lock_held := lock_held v; page_armed := b;
              state_now := state_now v; tag_is := tag_is v;
              threads_are := threads_are v |}
  | call_synchronize_threads =>
      match threads_are v with
      | threads_counted => Some (with_threads_are threads_none_running v)
      | threads_any => Some (with_threads_are threads_stopped v)
      | _ => None
      end
  | restart_threads => Some (with_threads_are threads_all_running v)
  | _ => Some v
  end.

(** While a safepoint is in progress the VM thread holds [Threads_lock]
    and the barrier is armed with the tag of the counter; at a safepoint no
    thread is running. *)
Definition good (v : Facts) : bool :=
  match state_now v with
  | _not_synchronized => true
  | _synchronizing => lock_held v && bool_decide (tag_is v = tag_of_counter)
  | _synchronized =>
      lock_held v
      && bool_decide (tag_is v = tag_of_counter)
      && (bool_decide (threads_are v = threads_none_running)
          || bool_decide (threads_are v = threads_stopped))
  end.

(** Between [begin] and [end], and between [end] and [begin]. *)
Definition settled (f : Flags) (v : Facts) : bool :=
  if lock_held v
  then bool_decide (state_now v = _synchronized)
       && bool_decide (page_armed v = uses_global_page_poll f)
  else bool_decide (state_now v = _not_synchronized)
       && bool_decide (tag_is v = tag_disarmed)
       && negb (page_armed v)
       && (bool_decide (threads_are v = threads_all_running)
           || bool_decide (threads_are v = threads_any)).

(** The rest of the VM thread's call goes through on the facts, keeps
    [good], enters [synchronize_threads] with the polling page armed
    exactly if the global polling page is in use, and ends settled. *)
Fixpoint plan (f : Flags) (todo : list VMAction) (v : Facts) : bool :=
  good v &&
  match todo with
  | [] => settled f v
  | a :: rest =>
      (if bool_decide (a = call_synchronize_threads)
       then bool_decide (page_armed v = uses_global_page_poll f)
       else true)
      && match facts_after a v with
         | Some v' => plan f rest v'
         | None => false
         end
  end.

(** The facts include the count of the running threads. *)
Definition counts_threads (v : Facts) : bool :=
  negb (bool_decide (threads_are v = threads_any))
  && negb (bool_decide (threads_are v = threads_stopped)).

Definition Established (k : bool) (f : Flags) (w : World) : Prop :=
  exists v,
    describes v w
    /\ plan f (vm_thread w) v = true
    /\ (k = true -> counts_threads v = true).

(** A worker that has reached the wait of [block] with [tag]. *)
Definition waits_with (tag : Z) (wk : Worker) : Prop :=
  exists rest e, in_block wk = Some (do_wait tag :: rest, e).

(** The global polling page in use, no thread-local polls. *)
Definition example_flags_page : Flags :=
  {| SafepointTimeout := false; AbortVMOnSafepointTimeout := false;
     uses_thread_local_poll := false; uses_global_page_poll := true |}.

(** [begin] up to [guarantee(PageArmed == 0)] in [arm_safepoint]. *)
Definition schedule_to_the_page_guarantee : list Label :=
  VM_begin :: replicate 9 VM_step.


(** The check [safepoint_limit_time < os::javaTimeNanos()] of an
    iteration finds the limit passed. *)
Definition over_the_limit (limit : Z) (tick : Tick) : Prop :=
  limit < now_at_limit_check tick.

(** An [int]; and how many increments take the iteration count [int
    iterations] to -1, where [synchronize_threads] has its
    [guarantee(!PageArmed)]. *)
Definition is_int (z : Z) : Prop := - 2 ^ 31 <= z < 2 ^ 31.

Definition until_overflow (iterations : Z) : Z := (-1 - iterations) mod 2 ^ 32.

(** The passes over the list of running threads among the events. *)
Definition is_pass (e : SyncEvent) : bool :=
  match e with
  | ev_pass _ => true
  | _ => false
  end.

(** Both timeout flags set. *)
Definition example_flags_abort : Flags :=
  {| SafepointTimeout := true; AbortVMOnSafepointTimeout := true;
     uses_thread_local_poll := true; uses_global_page_poll := false |}.


End Safepoint.

(** ** safepoint.cpp: SafepointTracing *)

Module SafepointTracing.

(** The statics of [SafepointTracing], and [_cur_stat_index], the
    function-local static of [statistics_log].  A [jlong] is a [Z] with
    its wrap-around written out; [_op_count] is the array indexed by the
    type of the VM operation. *)
Record Statics := {
  _last_safepoint_begin_time_ns : Z;
  _last_safepoint_sync_time_ns : Z;
  _last_safepoint_cleanup_time_ns : Z;
  _last_safepoint_end_time_ns : Z;
  _last_safepoint_end_time_epoch_ms : Z;
  _last_app_time_ns : Z;
  _nof_threads : Z;
  _nof_running : Z;
  _page_trap : Z;
  _current_type : nat;
  _max_sync_time : Z;
  _max_vmop_time : Z;
  _op_count : list Z;                      (* uint64_t [VMOp_Terminating] *)
  _cur_stat_index : Z;                     (* static int, in statistics_log *)
}.

(** The statics as the definitions in safepoint.cpp initialise them;
    [VMOp_Terminating] is the number of operation types (its declaration,
    runtime/vmOperations.hpp, is not among the sources at hand). *)
Definition initial (VMOp_Terminating : nat) : Statics :=
  {| _last_safepoint_begin_time_ns := 0;
     _last_safepoint_sync_time_ns := 0;
     _last_safepoint_cleanup_time_ns := 0;
     _last_safepoint_end_time_ns := 0;
     _last_safepoint_end_time_epoch_ms := 0;
     _last_app_time_ns := 0;
     _nof_threads := 0;
     _nof_running := 0;
     _page_trap := 0;
     _current_type := 0;
     _max_sync_time := 0;
     _max_vmop_time := 0;
     _op_count := replicate VMOp_Terminating 0;
     _cur_stat_index := 0 |}.

(** What the functions hand to [RuntimeService] and to the log, in order. *)
Inductive TraceEvent :=
| record_safepoint_begin (app_time : Z)
| record_safepoint_synchronized (sync_time : Z)
| record_safepoint_end (vmop_time : Z)
| header_line                              (* print_header *)
| statistics_row (type : nat) (nof_threads nof_running : Z)
    (sync cleanup vmop total : Z) (page_trap : Z)
| safepoint_line (type : nat) (since_last reaching at_safepoint total : Z)
| op_count_line (index : nat) (count : Z)
| coalesced_line (count : Z)
| max_sync_time_line (ns : Z)
| max_vmop_time_line (ns : Z).

#[export] Instance TraceEvent_eq_dec : EqDecision TraceEvent.
Proof. solve_decision. Defined.

(** [void SafepointTracing::init()] *)
Definition init (javaTimeNanos javaTimeMillis : Z) (s : Statics) : Statics :=
  {| _last_safepoint_begin_time_ns := _last_safepoint_begin_time_ns s;
     _last_safepoint_sync_time_ns := _last_safepoint_sync_time_ns s;
     _last_safepoint_cleanup_time_ns := _last_safepoint_cleanup_time_ns s;
     _last_safepoint_end_time_ns := javaTimeNanos;
     _last_safepoint_end_time_epoch_ms := javaTimeMillis;
     _last_app_time_ns := _last_app_time_ns s;
     _nof_threads := _nof_threads s;
     _nof_running := _nof_running s;
     _page_trap := _page_trap s;
     _current_type := _current_type s;
     _max_sync_time := _max_sync_time s;
     _max_vmop_time := _max_vmop_time s;
     _op_count := _op_count s;
     _cur_stat_index := _cur_stat_index s |}.

(** [void SafepointTracing::begin(VM_Operation::VMOp_Type type)].  [type]
    indexes [_op_count]; the C++ array access has no bounds check, here an
    index out of range changes nothing. *)
Definition begin (type : nat) (javaTimeNanos : Z) (s : Statics)
  : Statics * list TraceEvent :=
  let begin_time := javaTimeNanos in
  let app_time := wrap_s64 (begin_time - _last_safepoint_end_time_ns s) in
  ({| _last_safepoint_begin_time_ns := begin_time;
      _last_safepoint_sync_time_ns := 0;
      _last_safepoint_cleanup_time_ns := 0;
      _last_safepoint_end_time_ns := 0;
      _last_safepoint_end_time_epoch_ms := _last_safepoint_end_time_epoch_ms s;
      _last_app_time_ns := app_time;
      _nof_threads := _nof_threads s;
      _nof_running := _nof_running s;
      _page_trap := _page_trap s;
      _current_type := type;
      _max_sync_time := _max_sync_time s;
      _max_vmop_time := _max_vmop_time s;
      _op_count := alter (fun c => wrap_u64 (c + 1)) type (_op_count s);
      _cur_stat_index := _cur_stat_index s |},
   [record_safepoint_begin app_time]).

(** [void SafepointTracing::synchronized(int nof_threads, int nof_running, int traps)] *)
Definition synchronized (nof_threads nof_running traps : Z) (javaTimeNanos : Z)
    (s : Statics) : Statics * list TraceEvent :=
  ({| _last_safepoint_begin_time_ns := _last_safepoint_begin_time_ns s;
      _last_safepoint_sync_time_ns := javaTimeNanos;
      _last_safepoint_cleanup_time_ns := _last_safepoint_cleanup_time_ns s;
      _last_safepoint_end_time_ns := _last_safepoint_end_time_ns s;
      _last_safepoint_end_time_epoch_ms := _last_safepoint_end_time_epoch_ms s;
      _last_app_time_ns := _last_app_time_ns s;
      _nof_threads := nof_threads;
      _nof_running := nof_running;
      _page_trap := traps;
      _current_type := _current_type s;
      _max_sync_time := _max_sync_time s;
      _max_vmop_time := _max_vmop_time s;
      _op_count := _op_count s;
      _cur_stat_index := _cur_stat_index s |},
   [record_safepoint_synchronized
      (wrap_s64 (javaTimeNanos - _last_safepoint_begin_time_ns s))]).

(** [void SafepointTracing::cleanup()] *)
Definition cleanup (javaTimeNanos : Z) (s : Statics) : Statics :=
  {| _last_safepoint_begin_time_ns := _last_safepoint_begin_time_ns s;
     _last_safepoint_sync_time_ns := _last_safepoint_sync_time_ns s;
     _last_safepoint_cleanup_time_ns := javaTimeNanos;
     _last_safepoint_end_time_ns := _last_safepoint_end_time_ns s;
     _last_safepoint_end_time_epoch_ms := _last_safepoint_end_time_epoch_ms s;
     _last_app_time_ns := _last_app_time_ns s;
     _nof_threads := _nof_threads s;
     _nof_running := _nof_running s;
     _page_trap := _page_trap s;
     _current_type := _current_type s;
     _max_sync_time := _max_sync_time s;
     _max_vmop_time := _max_vmop_time s;
     _op_count := _op_count s;
     _cur_stat_index := _cur_stat_index s |}.

Definition with_cur_stat_index (i : Z) (s : Statics) : Statics :=
  {| _last_safepoint_begin_time_ns := _last_safepoint_begin_time_ns s;
     _last_safepoint_sync_time_ns := _last_safepoint_sync_time_ns s;
     _last_safepoint_cleanup_time_ns := _last_safepoint_cleanup_time_ns s;
     _last_safepoint_end_time_ns := _last_safepoint_end_time_ns s;
     _last_safepoint_end_time_epoch_ms := _last_safepoint_end_time_epoch_ms s;
     _last_app_time_ns := _last_app_time_ns s;
     _nof_threads := _nof_threads s;
     _nof_running := _nof_running s;
     _page_trap := _page_trap s;
     _current_type := _current_type s;
     _max_sync_time := _max_sync_time s;
     _max_vmop_time := _max_vmop_time s;
     _op_count := _op_count s;
     _cur_stat_index := i |}.

(** [void SafepointTracing::statistics_log()]; [%] on an [int] is [Z.rem]. *)
Definition statistics_log (s : Statics) : Statics * list TraceEvent :=
  let header := Z.rem (_cur_stat_index s) 30 =? 0 in
  let s' :=
    if header then with_cur_stat_index 1 s
    else with_cur_stat_index (wrap_s32 (_cur_stat_index s + 1)) s in
  (s',
   (if header then [header_line] else [])
   ++ [statistics_row (_current_type s) (_nof_threads s) (_nof_running s)
         (wrap_s64 (_last_safepoint_sync_time_ns s - _last_safepoint_begin_time_ns s))
         (wrap_s64 (_last_safepoint_cleanup_time_ns s - _last_safepoint_sync_time_ns s))
         (wrap_s64 (_last_safepoint_end_time_ns s - _last_safepoint_cleanup_time_ns s))
         (wrap_s64 (_last_safepoint_end_time_ns s - _last_safepoint_begin_time_ns s))
         (_page_trap s)]).

(** [void SafepointTracing::end()]; [log_stats] is
    [log_is_enabled(Info, safepoint, stats)]. *)
Definition end_ (javaTimeNanos javaTimeMillis : Z) (log_stats : bool) (s : Statics)
  : Statics * list TraceEvent :=
  let end_time := javaTimeNanos in
  let sync_time :=
    wrap_s64 (_last_safepoint_sync_time_ns s - _last_safepoint_begin_time_ns s) in
  let vmop_time := wrap_s64 (end_time - _last_safepoint_sync_time_ns s) in
  let s1 :=
    {| _last_safepoint_begin_time_ns := _last_safepoint_begin_time_ns s;
       _last_safepoint_sync_time_ns := _last_safepoint_sync_time_ns s;
       _last_safepoint_cleanup_time_ns := _last_safepoint_cleanup_time_ns s;
       _last_safepoint_end_time_ns := end_time;
       _last_safepoint_end_time_epoch_ms := javaTimeMillis;
       _last_app_time_ns := _last_app_time_ns s;
       _nof_threads := _nof_threads s;
       _nof_running := _nof_running s;
       _page_trap := _page_trap s;
       _current_type := _current_type s;
       _max_sync_time :=
         if _max_sync_time s <? sync_time then sync_time else _max_sync_time s;
       _max_vmop_time :=
         if _max_vmop_time s <? vmop_time then vmop_time else _max_vmop_time s;
       _op_count := _op_count s;
       _cur_stat_index := _cur_stat_index s |} in
  let '(s2, stats) := if log_stats then statistics_log s1 else (s1, []) in
  (s2,
   stats
   ++ [safepoint_line (_current_type s2) (_last_app_time_ns s2)
         (wrap_s64 (_last_safepoint_cleanup_time_ns s2
                    - _last_safepoint_begin_time_ns s2))
         (wrap_s64 (_last_safepoint_end_time_ns s2
                    - _last_safepoint_cleanup_time_ns s2))
         (wrap_s64 (_last_safepoint_end_time_ns s2
                    - _last_safepoint_begin_time_ns s2));
       record_safepoint_end
         (wrap_s64 (_last_safepoint_end_time_ns s2
                    - _last_safepoint_cleanup_time_ns s2))]).

(** [void SafepointTracing::statistics_exit_log()]; [coalesced] is
    [VMThread::get_coalesced_count()]. *)
Definition statistics_exit_log (log_stats : bool) (coalesced : Z) (s : Statics)
  : list TraceEvent :=
  if negb log_stats then []
  else
    omap (fun '(index, count) =>
            if count =? 0 then None else Some (op_count_line index count))
         (imap (fun index count => (index, count)) (_op_count s))
    ++ [coalesced_line coalesced;
        max_sync_time_line (_max_sync_time s);
        max_vmop_time_line (_max_vmop_time s)].

(** One safepoint as [SafepointSynchronize::begin] and [end] trace it:
    [begin] calls [SafepointTracing::begin], [synchronized] and [cleanup],
    [end] calls [SafepointTracing::end].  The clock readings and the
    arguments of the four calls: *)
Record Cycle := {
  op_type : nat;
  at_begin : Z;                            (* os::javaTimeNanos() in begin *)
  threads_total : Z;
  threads_running : Z;
  page_traps : Z;
  at_synchronized : Z;
  at_cleanup : Z;
  at_end : Z;
  at_end_epoch_ms : Z;
  log_stats_enabled : bool;
}.

Definition safepoint (c : Cycle) (s : Statics) : Statics * list TraceEvent :=
  let '(s1, e1) := begin (op_type c) (at_begin c) s in
  let '(s2, e2) :=
    synchronized (threads_total c) (threads_running c) (page_traps c)
      (at_synchronized c) s1 in
  let s3 := cleanup (at_cleanup c) s2 in
  let '(s4, e4) := end_ (at_end c) (at_end_epoch_ms c) (log_stats_enabled c) s3 in
  (s4, e1 ++ e2 ++ e4).

Fixpoint safepoints (cs : list Cycle) (s : Statics) : Statics * list TraceEvent :=
  match cs with
  | [] => (s, [])
  | c :: cs' =>
      let '(s1, e1) := safepoint c s in
      let '(s2, e2) := safepoints cs' s1 in
      (s2, e1 ++ e2)
  end.

(** The clock of a safepoint does not run backwards and stays in the
    range of a non-negative [jlong]. *)
Definition clock_ok (c : Cycle) : Prop :=
  0 <= at_begin c <= at_synchronized c
  /\ at_synchronized c <= at_cleanup c
  /\ at_cleanup c <= at_end c < 2 ^ 63.

(** The lines of the statistics table in a trace, header lines included. *)
Definition is_table_line (e : TraceEvent) : bool :=
  match e with
  | header_line | statistics_row _ _ _ _ _ _ _ _ => true
  | _ => false
  end.

Definition is_row (e : TraceEvent) : bool :=
  match e with
  | statistics_row _ _ _ _ _ _ _ _ => true
  | _ => false
  end.

Fixpoint keep {A : Type} (p : A -> bool) (l : list A) : list A :=
  match l with
  | [] => []
  | x :: l' => if p x then x :: keep p l' else keep p l'
  end.

(** "Print header every 30 entries": the rows of the table, with a header
    line in front of the rows number 0, 30, 60, ...; [k] is the number of
    the first row of [rows]. *)
Fixpoint with_header_every_30 (k : nat) (rows : list TraceEvent) : list TraceEvent :=
  match rows with
  | [] => []
  | r :: rows' =>
      (if (k mod 30 =? 0)%nat then [header_line] else [])
      ++ r :: with_header_every_30 (S k) rows'
  end.

(** Two safepoints, the second slower to synchronize than the first. *)
Definition example_cycles : list Cycle :=
  [ {| op_type := 1; at_begin := 1000; threads_total := 3; threads_running := 1;
       page_traps := 0; at_synchronized := 1400; at_cleanup := 1500;
       at_end := 2500; at_end_epoch_ms := 17; log_stats_enabled := true |};
    {| op_type := 2; at_begin := 9000; threads_total := 3; threads_running := 2;
       page_traps := 0; at_synchronized := 9900; at_cleanup := 9950;
       at_end := 10000; at_end_epoch_ms := 18; log_stats_enabled := true |} ].

(** The row of the statistics table for a safepoint: its type, the thread
    counts, and the time spent synchronizing, cleaning up, in the VM
    operation, and in all. *)
Definition row_of (c : Cycle) : TraceEvent :=
  statistics_row (op_type c) (threads_total c) (threads_running c)
    (at_synchronized c - at_begin c)
    (at_cleanup c - at_synchronized c)
    (at_end c - at_cleanup c)
    (at_end c - at_begin c)
    (page_traps c).

(** How many of the safepoints [cs] were for an operation of type [t]. *)
Definition of_type (t : nat) (cs : list Cycle) : Z :=
  Safepoint.number_of (fun c => bool_decide (op_type c = t)) cs.


End SafepointTracing.

(** ** jvmtiRawMonitor.cpp *)

Module RawMonitor.

(** *** Threads, queue nodes, the monitor *)

(** A [Thread*]: its identity, and whether it [is_Java_thread()]. *)
Record Thread := {
  tid : nat;
  is_Java_thread : bool;
}.

#[export] Instance Thread_eq_dec : EqDecision Thread.
Proof. solve_decision. Defined.

#[export] Instance Thread_countable : Countable Thread.
Proof.
  refine (inj_countable' (fun t => (tid t, is_Java_thread t))
            (fun p => {| tid := p.1; is_Java_thread := p.2 |}) _).
  intros []; reflexivity.
Defined.

(** [enum TStates] of [JvmtiRawMonitor::QNode] *)
Inductive TStates := TS_READY | TS_RUN | TS_WAIT | TS_ENTER.

#[export] Instance TStates_eq_dec : EqDecision TStates.
Proof. solve_decision. Defined.

(** A [QNode] lives on the stack of the thread that created it; the lists
    of the monitor hold addresses of nodes.  The links [_next] are kept
    as the order of those lists. *)
Record QNode := {
  _event : Thread;                         (* the thread whose _ParkEvent this is *)
  _notified : Z;
  _t_state : TStates;
}.

(** [JvmtiRawMonitor::QNode::QNode(Thread *thread)] *)
Definition new_QNode (thread : Thread) : QNode :=
  {| _event := thread; _notified := 0; _t_state := TS_RUN |}.

Definition with_t_state (st : TStates) (n : QNode) : QNode :=
  {| _event := _event n; _notified := _notified n; _t_state := st |}.

Definition with_notified (z : Z) (n : QNode) : QNode :=
  {| _event := _event n; _notified := z; _t_state := _t_state n |}.

(** The return codes [M_OK], [M_ILLEGAL_MONITOR_STATE], [M_INTERRUPTED]. *)
Inductive RetCode := M_OK | M_ILLEGAL_MONITOR_STATE | M_INTERRUPTED.

#[export] Instance RetCode_eq_dec : EqDecision RetCode.
Proof. solve_decision. Defined.

(** [JVMTI_RM_MAGIC = (int)(('T' << 24) | ('I' << 16) | ('R' << 8) | 'M')] *)
Definition JVMTI_RM_MAGIC : Z :=
  Z.lor (Z.lor (Z.lor (Z.shiftl 84 24) (Z.shiftl 73 16)) (Z.shiftl 82 8)) 77.

Record JvmtiRawMonitor := {
  _owner : option Thread;                  (* Thread* volatile; None is NULL *)
  _recursions : Z;                         (* volatile int *)
  _entry_list : list nat;                  (* QNode* volatile: addresses, head first *)
  _wait_set : list nat;
  _waiters : Z;                            (* volatile jint *)
  _magic : Z;
}.

(** [JvmtiRawMonitor::JvmtiRawMonitor(const char *name)] *)
Definition new_JvmtiRawMonitor : JvmtiRawMonitor :=
  {| _owner := None; _recursions := 0; _entry_list := []; _wait_set := [];
     _waiters := 0; _magic := JVMTI_RM_MAGIC |}.

(** [JvmtiRawMonitor::is_valid] *)
Definition is_valid (m : JvmtiRawMonitor) : bool := _magic m =? JVMTI_RM_MAGIC.

Definition with_owner (o : option Thread) (m : JvmtiRawMonitor) : JvmtiRawMonitor :=
  {| _owner := o; _recursions := _recursions m; _entry_list := _entry_list m;
     _wait_set := _wait_set m; _waiters := _waiters m; _magic := _magic m |}.

Definition with_recursions (r : Z) (m : JvmtiRawMonitor) : JvmtiRawMonitor :=
  {| _owner := _owner m; _recursions := r; _entry_list := _entry_list m;
     _wait_set := _wait_set m; _waiters := _waiters m; _magic := _magic m |}.

Definition with_entry_list (l : list nat) (m : JvmtiRawMonitor) : JvmtiRawMonitor :=
  {| _owner := _owner m; _recursions := _recursions m; _entry_list := l;
     _wait_set := _wait_set m; _waiters := _waiters m; _magic := _magic m |}.

Definition with_wait_set (l : list nat) (m : JvmtiRawMonitor) : JvmtiRawMonitor :=
  {| _owner := _owner m; _recursions := _recursions m; _entry_list := _entry_list m;
     _wait_set := l; _waiters := _waiters m; _magic := _magic m |}.

Definition with_waiters (n : Z) (m : JvmtiRawMonitor) : JvmtiRawMonitor :=
  {| _owner := _owner m; _recursions := _recursions m; _entry_list := _entry_list m;
     _wait_set := _wait_set m; _waiters := n; _magic := _magic m |}.

(** *** What the threads share *)

Record Shared := {
  monitor : JvmtiRawMonitor;
  RawMonitor_lock : option Thread;         (* the global lock and its holder *)
  SR_lock : gset Thread;                   (* the threads whose SR_lock is held *)
  nodes : gmap nat QNode;                  (* the QNodes on the threads' stacks *)
  next_node : nat;                         (* the next free address *)
  park_event : gset Thread;                (* the threads whose _ParkEvent is set *)
  interrupted : gset Thread;               (* interrupt status *)
  external_suspend : gset Thread;          (* pending external suspend requests *)
  unparked : list Thread;                  (* the calls of unpark(), oldest first *)
}.

Definition with_monitor (m : JvmtiRawMonitor) (s : Shared) : Shared :=
  {| monitor := m; RawMonitor_lock := RawMonitor_lock s; SR_lock := SR_lock s;
     nodes := nodes s; next_node := next_node s; park_event := park_event s;
     interrupted := interrupted s; external_suspend := external_suspend s;
     unparked := unparked s |}.

Definition with_RawMonitor_lock (l : option Thread) (s : Shared) : Shared :=
  {| monitor := monitor s; RawMonitor_lock := l; SR_lock := SR_lock s;
     nodes := nodes s; next_node := next_node s; park_event := park_event s;
     interrupted := interrupted s; external_suspend := external_suspend s;
     unparked := unparked s |}.

Definition with_SR_lock (l : gset Thread) (s : Shared) : Shared :=
  {| monitor := monitor s; RawMonitor_lock := RawMonitor_lock s; SR_lock := l;
     nodes := nodes s; next_node := next_node s; park_event := park_event s;
     interrupted := interrupted s; external_suspend := external_suspend s;
     unparked := unparked s |}.

Definition with_nodes (h : gmap nat QNode) (n : nat) (s : Shared) : Shared :=
  {| monitor := monitor s; RawMonitor_lock := RawMonitor_lock s; SR_lock := SR_lock s;
     nodes := h; next_node := n; park_event := park_event s;
     interrupted := interrupted s; external_suspend := external_suspend s;
     unparked := unparked s |}.

Definition with_park_event (e : gset Thread) (s : Shared) : Shared :=
  {| monitor := monitor s; RawMonitor_lock := RawMonitor_lock s; SR_lock := SR_lock s;
     nodes := nodes s; next_node := next_node s; park_event := e;
     interrupted := interrupted s; external_suspend := external_suspend s;
     unparked := unparked s |}.

Definition with_interrupted (i : gset Thread) (s : Shared) : Shared :=
  {| monitor := monitor s; RawMonitor_lock := RawMonitor_lock s; SR_lock := SR_lock s;
     nodes := nodes s; next_node := next_node s; park_event := park_event s;
     interrupted := i; external_suspend := external_suspend s;
     unparked := unparked s |}.

Definition with_external_suspend (e : gset Thread) (s : Shared) : Shared :=
  {| monitor := monitor s; RawMonitor_lock := RawMonitor_lock s; SR_lock := SR_lock s;
     nodes := nodes s; next_node := next_node s; park_event := park_event s;
     interrupted := interrupted s; external_suspend := e;
     unparked := unparked s |}.

Definition with_unparked (l : list Thread) (s : Shared) : Shared :=
  {| monitor := monitor s; RawMonitor_lock := RawMonitor_lock s; SR_lock := SR_lock s;
     nodes := nodes s; next_node := next_node s; park_event := park_event s;
     interrupted := interrupted s; external_suspend := external_suspend s;
     unparked := l |}.

Definition on_monitor (g : JvmtiRawMonitor -> JvmtiRawMonitor) (s : Shared) : Shared :=
  with_monitor (g (monitor s)) s.

(** A freshly created monitor, nothing locked, nobody parked or suspended. *)
Definition fresh : Shared :=
  {| monitor := new_JvmtiRawMonitor; RawMonitor_lock := None; SR_lock := ∅;
     nodes := ∅; next_node := 0; park_event := ∅; interrupted := ∅;
     external_suspend := ∅; unparked := [] |}.

(** *** Programs: sequences of atomic accesses to the shared state *)

(** What one atomic access does: it completes with a value, or the thread
    cannot proceed yet, or a [guarantee] fails and the VM aborts. *)
Inductive Status (B : Type) :=
| Ok (b : B) (s : Shared)
| Blocked
| Crash.
Arguments Ok {B} b s.
Arguments Blocked {B}.
Arguments Crash {B}.

(** The code of a thread: it returns, or performs an atomic access and
    goes on, or has used up the bound given for its loops. *)
Inductive Prog (A : Type) : Type :=
| Ret (a : A)
| Act {B : Type} (act : Shared -> Status B) (k : B -> Prog A)
| Spin.
Arguments Ret {A} a.
Arguments Act {A B} act k.
Arguments Spin {A}.

Fixpoint bind {A B : Type} (p : Prog A) (g : A -> Prog B) : Prog B :=
  match p with
  | Ret a => g a
  | Act act k => Act act (fun b => bind (k b) g)
  | Spin => Spin
  end.

#[export] Instance Prog_bind : MBind Prog := fun A B g p => bind p g.
#[export] Instance Prog_ret : MRet Prog := fun A a => Ret a.

Definition atomic {B : Type} (act : Shared -> Status B) : Prog B := Act act Ret.

Definition load {B : Type} (g : Shared -> B) : Prog B :=
  atomic (fun s => Ok (g s) s).

Definition store (g : Shared -> Shared) : Prog unit :=
  atomic (fun s => Ok tt (g s)).

(** [guarantee(c, "invariant")] *)
Definition guarantee (c : Shared -> bool) : Prog unit :=
  atomic (fun s => if c s then Ok tt s else Crash).

(** [OrderAccess::fence()], [loadstore()], [storeload()]: the interleaving
    semantics is sequentially consistent, a fence does nothing more. *)
Definition OrderAccess_fence : Prog unit := mret tt.
Definition OrderAccess_loadstore : Prog unit := mret tt.
Definition OrderAccess_storeload : Prog unit := mret tt.

(** Running a program with no other thread taking a step in between. *)
Inductive Outcome (A : Type) :=
| Returns (a : A) (s : Shared)
| Blocks
| Aborts
| Spins.
Arguments Returns {A} a s.
Arguments Blocks {A}.
Arguments Aborts {A}.
Arguments Spins {A}.

Fixpoint solo {A : Type} (p : Prog A) (s : Shared) : Outcome A :=
  match p with
  | Ret a => Returns a s
  | Act act k =>
      match act s with
      | Ok b s' => solo (k b) s'
      | Blocked => Blocks
      | Crash => Aborts
      end
  | Spin => Spins
  end.

(** *** Primitives declared outside jvmtiRawMonitor.cpp *)

(** Modelled from the spec: the park primitive ("per-thread blocking wait
    with timeout and unpark; idempotent unpark"); runtime/park.hpp is not
    among the sources at hand.  [reset] clears the event, [park] waits for
    the event to be set and clears it, the timed [park(millis)] may also
    return because the time has passed, [unpark] sets the event. *)
Definition ParkEvent_reset (self : Thread) : Prog unit :=
  store (fun s => with_park_event (park_event s ∖ {[self]}) s).

Definition ParkEvent_park (self : Thread) : Prog unit :=
  atomic (fun s =>
            if bool_decide (self ∈ park_event s)
            then Ok tt (with_park_event (park_event s ∖ {[self]}) s)
            else Blocked).

Definition ParkEvent_park_millis (self : Thread) (millis : Z) : Prog unit :=
  store (fun s => with_park_event (park_event s ∖ {[self]}) s).

Definition ParkEvent_unpark (ev : Thread) : Prog unit :=
  store (fun s =>
           with_unparked (unparked s ++ [ev])
             (with_park_event (park_event s ∪ {[ev]}) s)).

(** Modelled from the spec: a mutex acquired "without safepoint checking"
    (runtime/mutex.hpp is not among the sources at hand): [lock] waits
    until the lock is free. *)
Definition RawMonitor_lock_lock (self : Thread) : Prog unit :=
  atomic (fun s =>
            match RawMonitor_lock s with
            | None => Ok tt (with_RawMonitor_lock (Some self) s)
            | Some _ => Blocked
            end).

Definition RawMonitor_lock_unlock : Prog unit :=
  store (with_RawMonitor_lock None).

Definition SR_lock_lock (jt : Thread) : Prog unit :=
  atomic (fun s =>
            if bool_decide (jt ∈ SR_lock s) then Blocked
            else Ok tt (with_SR_lock (SR_lock s ∪ {[jt]}) s)).

Definition SR_lock_unlock (jt : Thread) : Prog unit :=
  store (fun s => with_SR_lock (SR_lock s ∖ {[jt]}) s).

(** Modelled from the spec: external suspension of a worker
    ("while is_externally_suspended(self), yield to suspension", "check
    for and honor a late external-suspension request"); runtime/thread.hpp
    is not among the sources at hand.  [java_suspend_self] returns once
    the thread has been resumed; [handle_special_suspend_equivalent_condition]
    tells whether a suspend request is pending. *)
Definition is_external_suspend (jt : Thread) : Prog bool :=
  load (fun s => bool_decide (jt ∈ external_suspend s)).

Definition java_suspend_self (jt : Thread) : Prog unit :=
  atomic (fun s =>
            if bool_decide (jt ∈ external_suspend s) then Blocked else Ok tt s).

Definition handle_special_suspend_equivalent_condition (jt : Thread) : Prog bool :=
  load (fun s => bool_decide (jt ∈ external_suspend s)).

(** [set_suspend_equivalent], [set_current_pending_raw_monitor] and the
    thread-state transitions [ThreadInVMfromNative], [ThreadBlockInVM]
    write the calling thread's own record only. *)
Definition set_suspend_equivalent (jt : Thread) : Prog unit := mret tt.
Definition set_current_pending_raw_monitor (self : Thread) (pending : bool)
  : Prog unit := mret tt.
Definition ThreadInVMfromNative (jt : Thread) : Prog unit := mret tt.
Definition ThreadBlockInVM (jt : Thread) : Prog unit := mret tt.

(** Modelled from the spec: the interrupt status of a worker
    ([jt->is_interrupted(true)] reads it and clears it); runtime/thread.hpp
    is not among the sources at hand. *)
Definition is_interrupted (jt : Thread) (clear_interrupted : bool) : Prog bool :=
  atomic (fun s =>
            if bool_decide (jt ∈ interrupted s) then
              Ok true (if clear_interrupted
                       then with_interrupted (interrupted s ∖ {[jt]}) s else s)
            else Ok false s).

(** *** Accesses to the monitor's fields and to queue nodes *)

(** [Atomic::replace_if_null(self, &_owner)] *)
Definition replace_if_null (self : Thread) : Prog bool :=
  atomic (fun s =>
            match _owner (monitor s) with
            | None => Ok true (on_monitor (with_owner (Some self)) s)
            | Some _ => Ok false s
            end).

(** [Atomic::cmpxchg(self, &_owner, (Thread* )NULL)]: the old value. *)
Definition cmpxchg_owner (self : Thread) : Prog (option Thread) :=
  atomic (fun s =>
            match _owner (monitor s) with
            | None => Ok None (on_monitor (with_owner (Some self)) s)
            | Some t => Ok (Some t) s
            end).

(** [QNode node(self);] *)
Definition alloc_QNode (self : Thread) : Prog nat :=
  atomic (fun s =>
            Ok (next_node s)
               (with_nodes (<[next_node s := new_QNode self]> (nodes s))
                           (S (next_node s)) s)).

(** A read of a field of the node at address [a]; the VM dies on a wild address. *)
Definition load_node {B : Type} (a : nat) (g : QNode -> B) : Prog B :=
  atomic (fun s =>
            match nodes s !! a with
            | Some n => Ok (g n) s
            | None => Crash
            end).

Definition store_node (a : nat) (g : QNode -> QNode) : Prog unit :=
  atomic (fun s =>
            match nodes s !! a with
            | Some n => Ok tt (with_nodes (<[a := g n]> (nodes s)) (next_node s) s)
            | None => Crash
            end).

(** *** The functions of jvmtiRawMonitor.cpp *)

(** [while (node._t_state == QNode::TS_ENTER) { self->_ParkEvent->park(); }] *)
Fixpoint park_while_TS_ENTER (fuel : nat) (self : Thread) (node : nat) : Prog unit :=
  match fuel with
  | O => Spin
  | S fuel =>
      st ← load_node node _t_state;
      if bool_decide (st = TS_ENTER) then
        ParkEvent_park self;;
        park_while_TS_ENTER fuel self node
      else mret tt
  end.

(** [void JvmtiRawMonitor::simple_enter(Thread *self)] *)
Fixpoint simple_enter (fuel : nat) (self : Thread) : Prog unit :=
  match fuel with
  | O => Spin
  | S fuel =>
      acquired ← replace_if_null self;
      if acquired : bool then mret tt
      else
        node ← alloc_QNode self;
        ParkEvent_reset self;;
        store_node node (with_t_state TS_ENTER);;
        RawMonitor_lock_lock self;;
        next ← load (fun s => _entry_list (monitor s));       (* node._next = _entry_list *)
        store (on_monitor (with_entry_list (node :: next)));; (* _entry_list = &node *)
        OrderAccess_fence;;
        owner ← load (fun s => _owner (monitor s));
        acquired ← (if bool_decide (owner = None) then replace_if_null self
                    else mret false);
        if acquired : bool then
          store (on_monitor (with_entry_list next));;         (* _entry_list = node._next *)
          RawMonitor_lock_unlock;;
          mret tt
        else
          RawMonitor_lock_unlock;;
          park_while_TS_ENTER fuel self node;;
          simple_enter fuel self
  end.

(** [void JvmtiRawMonitor::simple_exit(Thread *self)] *)
Definition simple_exit (self : Thread) : Prog unit :=
  guarantee (fun s => bool_decide (_owner (monitor s) = Some self));;
  store (on_monitor (with_owner None));;                       (* release_store *)
  OrderAccess_fence;;
  entry_list ← load (fun s => _entry_list (monitor s));
  match entry_list with
  | [] => mret tt
  | _ :: _ =>
      RawMonitor_lock_lock self;;
      entry_list ← load (fun s => _entry_list (monitor s));    (* w = _entry_list *)
      match entry_list with
      | [] =>
          RawMonitor_lock_unlock;;
          mret tt
      | w :: next =>
          store (on_monitor (with_entry_list next));;          (* _entry_list = w->_next *)
          RawMonitor_lock_unlock;;
          st ← load_node w _t_state;
          guarantee (fun _ => bool_decide (st = TS_ENTER));;
          ev ← load_node w _event;
          OrderAccess_loadstore;;
          store_node w (with_t_state TS_RUN);;
          OrderAccess_fence;;
          ParkEvent_unpark ev
      end
  end.

(** [inline void JvmtiRawMonitor::enqueue_waiter(QNode& node)] *)
Definition enqueue_waiter (self : Thread) (node : nat) : Prog unit :=
  store_node node (with_notified 0);;
  store_node node (with_t_state TS_WAIT);;
  RawMonitor_lock_lock self;;
  next ← load (fun s => _wait_set (monitor s));                (* node._next = _wait_set *)
  store (on_monitor (with_wait_set (node :: next)));;          (* _wait_set = &node *)
  RawMonitor_lock_unlock.

(** The unlink of [dequeue_waiter]: the first occurrence of [node] goes.
    The C++ loop runs off the end of the list when [node] is not on it. *)
Fixpoint unlink (node : nat) (l : list nat) : option (list nat) :=
  match l with
  | [] => None
  | p :: l' =>
      if bool_decide (p = node) then Some l'
      else cons p <$> unlink node l'
  end.

(** [inline void JvmtiRawMonitor::dequeue_waiter(QNode& node)] *)
Definition dequeue_waiter (self : Thread) (node : nat) : Prog unit :=
  st ← load_node node _t_state;
  (if bool_decide (st = TS_WAIT) then
     RawMonitor_lock_lock self;;
     st ← load_node node _t_state;
     (if bool_decide (st = TS_WAIT) then
        atomic (fun s =>
                  match unlink node (_wait_set (monitor s)) with
                  | Some l => Ok tt (on_monitor (with_wait_set l) s)
                  | None => Crash
                  end);;
        store_node node (with_t_state TS_RUN)
      else mret tt);;
     RawMonitor_lock_unlock
   else mret tt);;
  st ← load_node node _t_state;
  guarantee (fun _ => bool_decide (st = TS_RUN)).

(** [if (millis <= 0) park(); else park(millis);] *)
Definition park_for (self : Thread) (millis : Z) : Prog unit :=
  if millis <=? 0 then ParkEvent_park self else ParkEvent_park_millis self millis.

(** [int JvmtiRawMonitor::simple_wait(Thread *self, jlong millis)] *)
Definition simple_wait (fuel : nat) (self : Thread) (millis : Z) : Prog RetCode :=
  guarantee (fun s => bool_decide (_owner (monitor s) = Some self));;
  guarantee (fun s => bool_decide (_recursions (monitor s) = 0));;
  node ← alloc_QNode self;
  enqueue_waiter self node;;
  simple_exit self;;
  guarantee (fun s => bool_decide (_owner (monitor s) ≠ Some self));;
  ret ← (if is_Java_thread self then
           ThreadInVMfromNative self;;
           i ← is_interrupted self true;
           ret ← (if i : bool then mret M_INTERRUPTED
                  else
                    ThreadBlockInVM self;;
                    set_suspend_equivalent self;;
                    park_for self millis;;
                    mret M_OK);
           i ← is_interrupted self true;
           mret (if i : bool then M_INTERRUPTED else ret)
         else
           park_for self millis;;
           mret M_OK);
  dequeue_waiter self node;;
  simple_enter fuel self;;
  guarantee (fun s => bool_decide (_owner (monitor s) = Some self));;
  guarantee (fun s => bool_decide (_recursions (monitor s) = 0));;
  mret ret.

(** The [for (;;)] loop of [simple_notify]; [ev] is the event extracted
    in the previous round, if any. *)
Fixpoint notify_loop (fuel : nat) (all : bool) (ev : option Thread)
  : Prog (option Thread) :=
  match fuel with
  | O => Spin
  | S fuel =>
      wait_set ← load (fun s => _wait_set (monitor s));        (* w = _wait_set *)
      match wait_set with
      | [] => mret ev
      | w :: next =>
          store (on_monitor (with_wait_set next));;            (* _wait_set = w->_next *)
          (match ev with
           | Some e => ParkEvent_unpark e
           | None => mret tt
           end);;
          e ← load_node w _event;
          OrderAccess_loadstore;;
          store_node w (with_t_state TS_RUN);;
          OrderAccess_storeload;;
          if all then notify_loop fuel all (Some e)
          else mret (Some e)
      end
  end.

(** [void JvmtiRawMonitor::simple_notify(Thread *self, bool all)] *)
Definition simple_notify (fuel : nat) (self : Thread) (all : bool) : Prog unit :=
  guarantee (fun s => bool_decide (_owner (monitor s) = Some self));;
  wait_set ← load (fun s => _wait_set (monitor s));
  match wait_set with
  | [] => mret tt
  | _ :: _ =>
      RawMonitor_lock_lock self;;
      ev ← notify_loop fuel all None;
      RawMonitor_lock_unlock;;
      match ev with
      | Some e => ParkEvent_unpark e
      | None => mret tt
      end
  end.

(** The [while (jt->is_external_suspend())] loop of [raw_enter]. *)
Fixpoint while_external_suspend (fuel : nat) (jt : Thread) : Prog unit :=
  match fuel with
  | O => Spin
  | S fuel =>
      suspended ← is_external_suspend jt;
      if suspended : bool then
        SR_lock_unlock jt;;
        java_suspend_self jt;;
        SR_lock_lock jt;;
        while_external_suspend fuel jt
      else mret tt
  end.

(** The [for (;;)] loop of [raw_enter] on a contended monitor. *)
Fixpoint enter_unless_suspended (fuel : nat) (jt : Thread) : Prog unit :=
  match fuel with
  | O => Spin
  | S fuel =>
      set_suspend_equivalent jt;;
      simple_enter (S fuel) jt;;
      suspended ← handle_special_suspend_equivalent_condition jt;
      if suspended : bool then
        simple_exit jt;;
        java_suspend_self jt;;
        enter_unless_suspended fuel jt
      else mret tt
  end.

(** [_recursions++] and [_recursions--] on a [volatile int]. *)
Definition increment_recursions : Prog unit :=
  store (on_monitor (fun m => with_recursions (wrap_s32 (_recursions m + 1)) m)).

Definition decrement_recursions : Prog unit :=
  store (on_monitor (fun m => with_recursions (wrap_s32 (_recursions m - 1)) m)).

(** [void JvmtiRawMonitor::raw_enter(Thread *self)].  On the contended
    path of a JavaThread the source also has
    [guarantee(jt->thread_state() == _thread_blocked)]: it reads the
    calling thread's own record, which the callers (jvmtiEnv.cpp) set up
    and which is not part of the shared state here. *)
Definition raw_enter (fuel : nat) (self : Thread) : Prog unit :=
  contended ←
    (if is_Java_thread self then
       SR_lock_lock self;;
       while_external_suspend fuel self;;
       contended ← cmpxchg_owner self;
       SR_lock_unlock self;;
       mret contended
     else cmpxchg_owner self);
  if bool_decide (contended = Some self) then
    increment_recursions
  else if bool_decide (contended = None) then
    guarantee (fun s => bool_decide (_owner (monitor s) = Some self));;
    guarantee (fun s => bool_decide (_recursions (monitor s) = 0))
  else
    set_current_pending_raw_monitor self true;;
    (if negb (is_Java_thread self) then simple_enter fuel self
     else enter_unless_suspended fuel self);;
    set_current_pending_raw_monitor self false;;
    guarantee (fun s => bool_decide (_owner (monitor s) = Some self));;
    guarantee (fun s => bool_decide (_recursions (monitor s) = 0)).

(** [int JvmtiRawMonitor::raw_exit(Thread *self)] *)
Definition raw_exit (self : Thread) : Prog RetCode :=
  owner ← load (fun s => _owner (monitor s));
  if bool_decide (Some self ≠ owner) then mret M_ILLEGAL_MONITOR_STATE
  else
    recursions ← load (fun s => _recursions (monitor s));
    (if 0 <? recursions then decrement_recursions
     else simple_exit self);;
    mret M_OK.

(** The [for (;;)] loop at the end of [raw_wait]. *)
Fixpoint reenter_while_suspended (fuel : nat) (jt : Thread) (ret : RetCode)
  : Prog RetCode :=
  match fuel with
  | O => Spin
  | S fuel =>
      set_suspend_equivalent jt;;
      suspended ← handle_special_suspend_equivalent_condition jt;
      if negb suspended then mret ret
      else
        simple_exit jt;;
        ThreadInVMfromNative jt;;
        ThreadBlockInVM jt;;
        java_suspend_self jt;;
        i ← is_interrupted jt true;
        let ret := if i : bool then M_INTERRUPTED else ret in
        simple_enter (S fuel) jt;;
        reenter_while_suspended fuel jt ret
  end.

(** [int JvmtiRawMonitor::raw_wait(jlong millis, Thread *self)] *)
Definition raw_wait (fuel : nat) (millis : Z) (self : Thread) : Prog RetCode :=
  owner ← load (fun s => _owner (monitor s));
  if bool_decide (Some self ≠ owner) then mret M_ILLEGAL_MONITOR_STATE
  else
    ParkEvent_reset self;;
    OrderAccess_fence;;
    save ← load (fun s => _recursions (monitor s));            (* intptr_t save = _recursions *)
    store (on_monitor (with_recursions 0));;
    store (on_monitor (fun m => with_waiters (wrap_s32 (_waiters m + 1)) m));;
    ret ← simple_wait fuel self millis;
    store (on_monitor (with_recursions save));;
    store (on_monitor (fun m => with_waiters (wrap_s32 (_waiters m - 1)) m));;
    guarantee (fun s => bool_decide (_owner (monitor s) = Some self));;
    if is_Java_thread self then
      ret ← reenter_while_suspended fuel self ret;
      guarantee (fun s => bool_decide (_owner (monitor s) = Some self));;
      mret ret
    else mret ret.

(** [int JvmtiRawMonitor::raw_notify(Thread *self)] *)
Definition raw_notify (fuel : nat) (self : Thread) : Prog RetCode :=
  owner ← load (fun s => _owner (monitor s));
  if bool_decide (Some self ≠ owner) then mret M_ILLEGAL_MONITOR_STATE
  else
    simple_notify fuel self false;;
    mret M_OK.

(** [int JvmtiRawMonitor::raw_notifyAll(Thread *self)] *)
Definition raw_notifyAll (fuel : nat) (self : Thread) : Prog RetCode :=
  owner ← load (fun s => _owner (monitor s));
  if bool_decide (Some self ≠ owner) then mret M_ILLEGAL_MONITOR_STATE
  else
    simple_notify fuel self true;;
    mret M_OK.

(** *** Threads running side by side *)

(** What can happen next: the thread at position [i] of the pool performs
    its next atomic access, or somebody outside the pool interrupts,
    suspends or resumes a thread. *)
Inductive Label :=
| run_thread (i : nat)
| interrupt (t : Thread)
| suspend (t : Thread)
| resume (t : Thread).

Inductive PoolStatus (A : Type) :=
| Next (pool : list (Prog A)) (s : Shared)
| Disabled                                 (* the label cannot be taken here *)
| VMAborted.                               (* a guarantee failed *)
Arguments Next {A} pool s.
Arguments Disabled {A}.
Arguments VMAborted {A}.

(** Modelled from the spec: interrupting a worker sets its interrupt
    status and ends its timed or untimed park (scenario S4: "external
    thread requests interrupt; wait returns INTERRUPTED"); suspending
    takes the thread's SR_lock to post the request. *)
Definition pool_step {A : Type} (l : Label) (pool : list (Prog A)) (s : Shared)
  : PoolStatus A :=
  match l with
  | run_thread i =>
      match pool !! i with
      | Some (Act act k) =>
          match act s with
          | Ok b s' => Next (<[i := k b]> pool) s'
          | Blocked => Disabled
          | Crash => VMAborted
          end
      | _ => Disabled
      end
  | interrupt t =>
      Next pool (with_park_event (park_event s ∪ {[t]})
                   (with_interrupted (interrupted s ∪ {[t]}) s))
  | suspend t =>
      if bool_decide (t ∈ SR_lock s) then Disabled
      else Next pool (with_external_suspend (external_suspend s ∪ {[t]}) s)
  | resume t =>
      Next pool (with_external_suspend (external_suspend s ∖ {[t]}) s)
  end.

Fixpoint pool_run {A : Type} (ls : list Label) (pool : list (Prog A)) (s : Shared)
  : PoolStatus A :=
  match ls with
  | [] => Next pool s
  | l :: ls' =>
      match pool_step l pool s with
      | Next pool' s' => pool_run ls' pool' s'
      | Disabled => Disabled
      | VMAborted => VMAborted
      end
  end.

(** [n] steps of thread [i] in a row. *)
Definition steps (n i : nat) : list Label := replicate n (run_thread i).

(** Running a program until it returns, blocks, aborts or spins: the
    state it stops in, and what is left of it. *)
Fixpoint advance {A : Type} (p : Prog A) (s : Shared) : Prog A * Shared :=
  match p with
  | Act act k =>
      match act s with
      | Ok b s' => advance (k b) s'
      | Blocked | Crash => (p, s)
      end
  | Ret _ | Spin => (p, s)
  end.

(** The threads whose nodes are on the entry list, head first, provided
    every node is there and in state [TS_ENTER]. *)
Fixpoint threads_of (h : gmap nat QNode) (l : list nat) : option (list Thread) :=
  match l with
  | [] => Some []
  | a :: l' =>
      match h !! a with
      | Some n =>
          if bool_decide (_t_state n = TS_ENTER)
          then cons (_event n) <$> threads_of h l'
          else None
      | None => None
      end
  end.

Definition entry_threads (s : Shared) : option (list Thread) :=
  threads_of (nodes s) (_entry_list (monitor s)).

(** [n] calls of [raw_enter], and [n] calls of [raw_exit] whose return
    codes are collected. *)
Fixpoint raw_enter_times (n : nat) (fuel : nat) (self : Thread) : Prog unit :=
  match n with
  | O => mret tt
  | S n => raw_enter fuel self;; raw_enter_times n fuel self
  end.

Fixpoint raw_exit_times (n : nat) (self : Thread) : Prog (list RetCode) :=
  match n with
  | O => mret []
  | S n => r ← raw_exit self; rs ← raw_exit_times n self; mret (r :: rs)
  end.

(** *** What the claims about one thread look at *)

(** A monitor nobody owns and nobody contends for, as far as the thread
    [self] about to use it is concerned: [self] is not suspended and its
    [SR_lock] is free. *)
Definition uncontended (self : Thread) (s : Shared) : Prop :=
  _owner (monitor s) = None
  /\ _recursions (monitor s) = 0
  /\ _entry_list (monitor s) = []
  /\ (self ∉ SR_lock s)
  /\ (self ∉ external_suspend s).

(** [s0] with the monitor owned by [self], entered [r + 1] times. *)
Definition held (self : Thread) (r : Z) (s0 : Shared) : Shared :=
  on_monitor (fun m => with_recursions r (with_owner (Some self) m)) s0.

(** The entry list holds distinct addresses of allocated nodes. *)
Definition entry_list_ok (s : Shared) : Prop :=
  NoDup (_entry_list (monitor s))
  /\ Forall (fun a => (a < next_node s)%nat) (_entry_list (monitor s)).

(** *** Example threads *)

Definition thread_A : Thread := {| tid := 1; is_Java_thread := true |}.
Definition thread_B : Thread := {| tid := 2; is_Java_thread := true |}.
Definition thread_C : Thread := {| tid := 3; is_Java_thread := true |}.
Definition thread_N : Thread := {| tid := 4; is_Java_thread := false |}.

(** The state in which [t] parks in [simple_enter] on a monitor somebody
    else owns: its node, in state [TS_ENTER], is linked at the head of
    the entry list. *)
Definition parked_in_simple_enter (t : Thread) (s : Shared) : Shared :=
  {| monitor := with_entry_list (next_node s :: _entry_list (monitor s)) (monitor s);
     RawMonitor_lock := None;
     SR_lock := SR_lock s;
     nodes := <[next_node s := with_t_state TS_ENTER (new_QNode t)]>
                (<[next_node s := new_QNode t]> (nodes s));
     next_node := S (next_node s);
     park_event := park_event s ∖ {[t]};
     interrupted := interrupted s;
     external_suspend := external_suspend s;
     unparked := unparked s |}.

(** The state [simple_exit] leaves when the node at address [w], of
    thread [ev], is at the head of the entry list. *)
Definition after_simple_exit (w : nat) (n : QNode) (next : list nat) (s : Shared)
  : Shared :=
  {| monitor := with_entry_list next (with_owner None (monitor s));
     RawMonitor_lock := None;
     SR_lock := SR_lock s;
     nodes := <[w := with_t_state TS_RUN n]> (nodes s);
     next_node := next_node s;
     park_event := park_event s ∪ {[_event n]};
     interrupted := interrupted s;
     external_suspend := external_suspend s;
     unparked := unparked s ++ [_event n] |}.

(** What is looked at after an execution: the return codes of the threads
    that have returned, the owner and the recursion count of the monitor,
    the threads on the entry list (head first), and the calls of [unpark]
    so far. *)
Record Observation := {
  returned : list (option RetCode);
  owner_now : option Thread;
  recursions_now : Z;
  entry_list_now : option (list Thread);
  unparked_so_far : list Thread;
}.

Inductive Observed :=
| Observe (o : Observation)
| NotEnabled
| VMAbort.

Definition observe (st : PoolStatus RetCode) : Observed :=
  match st with
  | Next pool s =>
      Observe
        {| returned := (fun p => match p with Ret r => Some r | _ => None end) <$> pool;
           owner_now := _owner (monitor s);
           recursions_now := _recursions (monitor s);
           entry_list_now := entry_threads s;
           unparked_so_far := unparked s |}
  | Disabled => NotEnabled
  | VMAborted => VMAbort
  end.

(** Scenario S3 of the specification with one more contender: A holds the
    monitor, B and then C call [raw_enter] and park, A exits. *)
Definition contenders : list (Prog RetCode) :=
  [ raw_enter 4 thread_A;; raw_exit thread_A;
    raw_enter 4 thread_B;; raw_exit thread_B;
    raw_enter 4 thread_C;; raw_exit thread_C ].

(** A holds the monitor; B and then C have parked in [simple_enter]. *)
Definition example_contended : Shared :=
  parked_in_simple_enter thread_C
    (parked_in_simple_enter thread_B (held thread_A 0 fresh)).

(** Scenario S4 of the specification: W holds the monitor (here: entered
    three times) and calls [wait(M, 10_000 ms)]. *)
Definition waiter_S4 : list (Prog RetCode) :=
  [ raw_enter 4 thread_A;; raw_enter 4 thread_A;; raw_enter 4 thread_A;;
    raw_wait 4 10000 thread_A ].

(** Two waiters: W has entered once and waits, X has entered twice and waits. *)
Definition two_waiters : list (Prog RetCode) :=
  [ raw_enter 4 thread_A;; raw_wait 4 10000 thread_A;
    raw_enter 4 thread_B;; raw_enter 4 thread_B;; raw_wait 4 10000 thread_B ].

(** W enters (its [raw_wait] is called with [_recursions == 0]). *)
Definition schedule_W_enters : list Label := steps 6 0.

(** W releases the monitor and is about to park; X enters twice, releases
    the monitor and is about to park; an agent suspends both and W is
    interrupted.  W reacquires the monitor, restores [_recursions = 0],
    finds the suspend request, releases the monitor and suspends itself.
    X's wait times out; X reacquires the monitor, restores
    [_recursions = 1], finds the suspend request, releases the monitor and
    suspends itself.  W is resumed, reacquires the monitor and returns. *)
Definition schedule_suspended_waiters : list Label :=
  steps 19 0
  ++ steps 30 1
  ++ [suspend thread_A; suspend thread_B; interrupt thread_A]
  ++ steps 20 0
  ++ steps 20 1
  ++ [resume thread_A]
  ++ steps 5 0.

(** A waiter that entered twice and is suspended while it waits, and a
    thread that calls [raw_enter] while the waiter is suspended. *)
Definition waiter_and_enterer : list (Prog RetCode) :=
  [ raw_enter 4 thread_B;; raw_enter 4 thread_B;; raw_wait 4 10000 thread_B;
    raw_enter 4 thread_C;; raw_exit thread_C ].

(** *** What the properties of wait and notify look at *)

(** The threads of the nodes at the addresses [l], in order. *)
Definition events_of (h : gmap nat QNode) (l : list nat) : list Thread :=
  omap (fun a => _event <$> h !! a) l.

(** The state [simple_notify] leaves when it wakes only the node at address
    [w], the head of the wait set. *)
Definition after_notify (w : nat) (n : QNode) (next : list nat) (s : Shared)
  : Shared :=
  {| monitor := with_wait_set next (monitor s);
     RawMonitor_lock := None;
     SR_lock := SR_lock s;
     nodes := <[w := with_t_state TS_RUN n]> (nodes s);
     next_node := next_node s;
     park_event := park_event s ∪ {[_event n]};
     interrupted := interrupted s;
     external_suspend := external_suspend s;
     unparked := unparked s ++ [_event n] |}.

(** Two states that differ at most in the wait set, the nodes, the park
    events and the record of the calls of [unpark]. *)
Definition notify_frame (s s' : Shared) : Prop :=
  _owner (monitor s') = _owner (monitor s)
  /\ _recursions (monitor s') = _recursions (monitor s)
  /\ _entry_list (monitor s') = _entry_list (monitor s)
  /\ _waiters (monitor s') = _waiters (monitor s)
  /\ _magic (monitor s') = _magic (monitor s)
  /\ RawMonitor_lock s' = RawMonitor_lock s
  /\ SR_lock s' = SR_lock s
  /\ next_node s' = next_node s
  /\ interrupted s' = interrupted s
  /\ external_suspend s' = external_suspend s.

(** The state [dequeue_waiter] leaves when it unlinks the node at address
    [node], found between [before] and [after] on the wait set. *)
Definition after_dequeue (node : nat) (n : QNode) (before after : list nat)
    (s : Shared) : Shared :=
  {| monitor := with_wait_set (before ++ after) (monitor s);
     RawMonitor_lock := None;
     SR_lock := SR_lock s;
     nodes := <[node := with_t_state TS_RUN n]> (nodes s);
     next_node := next_node s;
     park_event := park_event s;
     interrupted := interrupted s;
     external_suspend := external_suspend s;
     unparked := unparked s |}.

(** [A] holds the monitor; [B] and then [C] wait on it: their nodes are on
    the wait set, the node of [C], the later one, at its head. *)
Definition example_waiters : Shared :=
  {| monitor := with_wait_set [1%nat; 0%nat] (monitor (held thread_A 0 fresh));
     RawMonitor_lock := None;
     SR_lock := ∅;
     nodes := <[1%nat := with_t_state TS_WAIT (new_QNode thread_C)]>
                (<[0%nat := with_t_state TS_WAIT (new_QNode thread_B)]> ∅);
     next_node := 2;
     park_event := ∅;
     interrupted := ∅;
     external_suspend := ∅;
     unparked := [] |}.

(** [self] may wait on the monitor it owns without meeting anybody: the
    queue lock is free, nobody waits to enter, [self] is not suspended,
    and the count of waiters is within the range of its [jint]. *)
Definition may_wait_alone (self : Thread) (s : Shared) : Prop :=
  _owner (monitor s) = Some self
  /\ RawMonitor_lock s = None
  /\ _entry_list (monitor s) = []
  /\ (self ∉ external_suspend s)
  /\ - 2 ^ 31 <= _waiters (monitor s) < 2 ^ 31 - 1.

(** *** The discipline of the accesses to the monitor *)

(** What a thread can rely on at a point of its code: that it owns the
    monitor, that it holds [RawMonitor_lock]. *)
Record Holds := {
  holds_monitor : bool;
  holds_RawMonitor_lock : bool;
}.

Definition held_in (self : Thread) (h : Holds) (s : Shared) : Prop :=
  (holds_monitor h = true -> _owner (monitor s) = Some self)
  /\ (holds_RawMonitor_lock h = true -> RawMonitor_lock s = Some self).

(** An atomic access of [self] that takes the shared state from [s] to
    [s']: [_owner] goes from [NULL] to [self] or from [self] to [NULL] if
    it changes, and so does the holder of [RawMonitor_lock];
    [_recursions] and [_waiters] are written by the owner only; the entry
    list and the wait set by the holder of [RawMonitor_lock] only. *)
Definition disciplined (self : Thread) (s s' : Shared) : Prop :=
  (_owner (monitor s') = _owner (monitor s)
   \/ (_owner (monitor s) = None /\ _owner (monitor s') = Some self)
   \/ (_owner (monitor s) = Some self /\ _owner (monitor s') = None))
  /\ (RawMonitor_lock s' = RawMonitor_lock s
      \/ (RawMonitor_lock s = None /\ RawMonitor_lock s' = Some self)
      \/ (RawMonitor_lock s = Some self /\ RawMonitor_lock s' = None))
  /\ (_recursions (monitor s') <> _recursions (monitor s)
      \/ _waiters (monitor s') <> _waiters (monitor s) ->
      _owner (monitor s) = Some self)
  /\ (_entry_list (monitor s') <> _entry_list (monitor s)
      \/ _wait_set (monitor s') <> _wait_set (monitor s) ->
      RawMonitor_lock s = Some self)
  /\ _magic (monitor s') = _magic (monitor s).

(** Every access of the program [p], run by [self] from a point where it
    can rely on [h], is disciplined, whatever the other threads do in
    between; [post] is what it can rely on when it returns. *)
Fixpoint respects {A : Type} (self : Thread) (p : Prog A) (h : Holds)
    (post : A -> Holds -> Prop) : Prop :=
  match p with
  | Ret a => post a h
  | Spin => True
  | Act act k =>
      forall s, held_in self h s ->
        match act s with
        | Ok b s' =>
            disciplined self s s'
            /\ exists h', held_in self h' s' /\ respects self (k b) h' post
        | Blocked | Crash => True
        end
  end.

(** The calls a JVMTI agent makes on a raw monitor. *)
Inductive Call :=
| call_raw_enter
| call_raw_exit
| call_raw_wait (millis : Z)
| call_raw_notify
| call_raw_notifyAll.

Definition call (fuel : nat) (self : Thread) (c : Call) : Prog RetCode :=
  match c with
  | call_raw_enter => raw_enter fuel self;; mret M_OK
  | call_raw_exit => raw_exit self
  | call_raw_wait millis => raw_wait fuel millis self
  | call_raw_notify => raw_notify fuel self
  | call_raw_notifyAll => raw_notifyAll fuel self
  end.

(** A thread that makes the calls [cs], one after the other. *)
Fixpoint client (fuel : nat) (self : Thread) (cs : list Call) : Prog unit :=
  match cs with
  | [] => mret tt
  | c :: cs' => call fuel self c;; client fuel self cs'
  end.

(** The label is not a step of the thread at position [i]. *)
Definition not_of (i : nat) (l : Label) : Prop := l <> run_thread i.


(** What [self] can rely on after [Atomic::cmpxchg(self, &_owner, NULL)]
    returned [contended], and after it read [owner] from [_owner]. *)
Definition after_cmpxchg (self : Thread) (m : bool) (contended : option Thread)
  : Holds :=
  match contended with
  | None => Build_Holds true false
  | Some t => if bool_decide (t = self) then Build_Holds true false
              else Build_Holds m false
  end.

Definition after_owner_check (self : Thread) (m : bool) (owner : option Thread)
  : Holds :=
  if bool_decide (Some self ≠ owner) then Build_Holds m false
  else Build_Holds true false.

Definition unlocked (h : Holds) : Prop := holds_RawMonitor_lock h = false.

(** Every thread of the pool respects the discipline from where it is. *)
Definition pool_ok {A : Type} (threads : list Thread) (pool : list (Prog A))
    (s : Shared) : Prop :=
  Forall2 (fun t p => exists h, held_in t h s /\ respects t p h (fun _ _ => True))
    threads pool.

(** A step of the pool from [s] to [s']: an access of a thread is
    disciplined; an interrupt, suspend or resume leaves the monitor and
    [RawMonitor_lock] alone. *)
Definition step_ok (threads : list Thread) (l : Label) (s s' : Shared) : Prop :=
  match l with
  | run_thread i => exists t, threads !! i = Some t /\ disciplined t s s'
  | _ => monitor s' = monitor s /\ RawMonitor_lock s' = RawMonitor_lock s
  end.

(** The pool of the threads [clients.*1], each making its calls. *)
Definition programs (fuel : nat) (clients : list (Thread * list Call))
  : list (Prog unit) :=
  (fun c => client fuel c.1 c.2) <$> clients.

Definition example_clients : list (Thread * list Call) :=
  [(thread_A, [call_raw_enter; call_raw_wait 0; call_raw_exit]);
   (thread_B, [call_raw_enter; call_raw_notify; call_raw_exit])].


End RawMonitor.

(** * Part II: lemmas and theorems *)

Lemma is_odd_spec z : is_odd z = Z.odd z.
Proof.
  unfold is_odd. change 1 with (Z.ones 1) at 1.
  rewrite Z.land_ones by lia. change (2 ^ 1) with 2.
  rewrite Zmod_odd. destruct (Z.odd z); reflexivity.
Qed.

Lemma is_odd_succ_wrap z : in_u64 z -> is_odd (wrap_u64 (z + 1)) = negb (is_odd z).
Proof.
  intros Hz. rewrite !is_odd_spec. unfold wrap_u64, in_u64 in *.
  destruct (Z.eq_dec z (2 ^ 64 - 1)) as [->|Hne]; [reflexivity|].
  rewrite Z.mod_small by lia.
  rewrite Z.add_1_r, Z.odd_succ, <- Z.negb_odd. reflexivity.
Qed.

Lemma wrap_u64_range z : in_u64 (wrap_u64 z).
Proof. unfold in_u64, wrap_u64. apply Z.mod_pos_bound. lia. Qed.

Lemma wrap_u64_small z : in_u64 z -> wrap_u64 z = z.
Proof. unfold in_u64, wrap_u64. intros. apply Z.mod_small. lia. Qed.

(** An even [uint64_t] is at most [2^64 - 2], so its successor does not wrap. *)
Lemma even_succ_no_wrap z : in_u64 z -> is_odd z = false -> wrap_u64 (z + 1) = z + 1.
Proof.
  intros Hz Hev. apply wrap_u64_small. unfold in_u64 in *.
  rewrite is_odd_spec in Hev.
  assert (z <> 2 ^ 64 - 1); [|lia].
  intros ->. vm_compute in Hev. discriminate.
Qed.

(** ** safepoint.cpp: the worker's side and the spin loop *)

Module SafepointProofs.
Import Safepoint.

Lemma is_odd_static_cast_int z : is_odd (static_cast_int z) = is_odd z.
Proof.
  rewrite !is_odd_spec. unfold static_cast_int.
  rewrite (Z.mod_eq (z + 2 ^ 31) (2 ^ 32)) by lia.
  replace (z + 2 ^ 31 - 2 ^ 32 * ((z + 2 ^ 31) / 2 ^ 32) - 2 ^ 31)
    with (z + 2 * (- 2 ^ 31 * ((z + 2 ^ 31) / 2 ^ 32))) by lia.
  apply Z.odd_add_mul_2.
Qed.

Lemma block_live_thread vm_exited g thread :
  is_terminated thread = false ->
  may_block (thread_state thread) ->
  exists tail,
    block vm_exited g thread = (block_protocol g (thread_state thread) ++ tail, block_returns)
    /\ (tail = [] \/ exists b, tail = [do_special_runtime_exit_condition b]).
Proof.
  intros Hterm Hst. unfold block. rewrite Hterm.
  destruct Hst as [H|[H|[H|[H|H]]]]; rewrite H; cbn;
    eexists; (split; [reflexivity|]); eauto.
Qed.

(** *** The VM thread writes the counter and the state, nobody else does *)


Lemma account_safe_thread_counter ss t :
  _safepoint_counter (account_safe_thread ss t).1 = _safepoint_counter ss
  /\ _state (account_safe_thread ss t).1 = _state ss.
Proof.
  unfold account_safe_thread. destruct (in_critical t); cbn; auto.
Qed.

Lemma examine_state_of_thread_counter s1 sid s2 c ss t :
  _safepoint_counter (examine_state_of_thread s1 sid s2 c ss t).1 = _safepoint_counter ss
  /\ _state (examine_state_of_thread s1 sid s2 c ss t).1 = _state ss.
Proof.
  unfold examine_state_of_thread.
  destruct (try_stable_load_state s1 sid s2 c); [|auto].
  repeat case_match; auto using account_safe_thread_counter.
Qed.

Lemma thread_not_running_counter ss t :
  _safepoint_counter (thread_not_running ss t).2.1 = _safepoint_counter ss
  /\ _state (thread_not_running ss t).2.1 = _state ss.
Proof.
  unfold thread_not_running.
  destruct (negb (is_running (safepoint_state t))); [auto|].
  pose proof (examine_state_of_thread_counter (thread_state t)
                (get_safepoint_id (safepoint_state t)) (thread_state t)
                (_safepoint_counter ss) ss t) as H.
  destruct (examine_state_of_thread _ _ _ _ ss t) as [ss' t']. cbn in H.
  destruct (negb (is_running (safepoint_state t'))); cbn; auto.
Qed.

(** What a step leaves alone. *)
Lemma run_vm_action_frame a w w' :
  run_vm_action a w = Some w' ->
  vm_thread w' = vm_thread w
  /\ (a <> release_store_safepoint_counter -> counter w' = counter w)
  /\ (a = release_store_safepoint_counter -> counter w' = wrap_u64 (counter w + 1)).
Proof.
  unfold counter.
  destruct a; cbn; intros H; repeat case_match; simplify_eq; cbn;
    (split; [reflexivity|split; [auto|congruence]]); congruence.
Qed.

Lemma view_run_vm_action a w w' :
  in_u64 (counter w) ->
  run_vm_action a w = Some w' ->
  view w' = view_after a (view w).
Proof.
  unfold counter. intros Hu.
  destruct a; cbn; intros H; repeat case_match; simplify_eq;
    try reflexivity.
  unfold view; cbn. f_equal. apply is_odd_succ_wrap, Hu.
Qed.

Lemma worker_step_frame f l w w' :
  step f l w = Some w' ->
  match l with VM_begin | VM_end | VM_step => False | _ => True end ->
  vm_thread w' = vm_thread w /\ counter w' = counter w
  /\ view w' = view w /\ barrier w' = barrier w.
Proof.
  unfold counter, view.
  destruct l; cbn; intros H Hl; try contradiction.
  - destruct (vm_thread w) as [|[] ?] eqn:Hv; try discriminate.
    destruct (Threads w !! i); [|discriminate].
    pose proof (thread_not_running_counter (statics w) (java_thread w0)) as [H1 H2].
    destruct (thread_not_running _ _) as [b [ss t]]. cbn in *.
    simplify_eq. cbn. rewrite H1, H2. auto.
  - repeat case_match; simplify_eq; cbn; auto.
  - repeat case_match; simplify_option_eq; cbn; auto.
  - repeat case_match; simplify_eq; cbn; auto.
Qed.

(** *** The invariant *)

Lemma on_track_begin f v :
  on_track [] v = true -> lock_is_held v = false ->
  on_track (SafepointSynchronize_begin f) v = true.
Proof.
  destruct v as [o st l], f as [? ? p q]; cbn.
  intros H ->. destruct o, st, p, q; try discriminate H; reflexivity.
Qed.

Lemma on_track_end f v :
  on_track [] v = true -> lock_is_held v = true ->
  on_track (SafepointSynchronize_end f) v = true.
Proof.
  destruct v as [o st l], f as [? ? p q]; cbn.
  intros H ->. destruct o, st, p, q; try discriminate H; reflexivity.
Qed.

Lemma on_track_cons a rest v :
  on_track (a :: rest) v = true ->
  asserted a v = true /\ on_track rest (view_after a v) = true.
Proof.
  cbn. intros H. apply andb_prop in H as [_ H].
  apply andb_prop in H as [H1 H2]. auto.
Qed.

Lemma Inv_init threads : Inv (init threads).
Proof. repeat split; try reflexivity; cbn; try lia. left. reflexivity. Qed.

Lemma barrier_run_vm_action a w w' :
  in_u64 (counter w) ->
  asserted a (view w) = true ->
  barrier_tag_ok w ->
  run_vm_action a w = Some w' ->
  barrier_tag_ok w'.
Proof.
  unfold barrier_tag_ok, counter. intros Hu Ha Hb.
  destruct a; cbn; intros H; repeat case_match; simplify_eq; cbn; auto.
  right. cbn in Ha. apply negb_true_iff in Ha.
  rewrite is_odd_static_cast_int, is_odd_succ_wrap, Ha; auto.
Qed.

Lemma Inv_with_vm_thread l w :
  in_u64 (counter w) -> on_track l (view w) = true -> barrier_tag_ok w ->
  Inv (with_vm_thread l w).
Proof. intros H1 H2 H3. split; [exact H1 | split; [exact H2 | exact H3]]. Qed.

Lemma Inv_step f l w w' : Inv w -> step f l w = Some w' -> Inv w'.
Proof.
  intros (Hu & Ht & Hb) Hs.
  destruct l;
    try (destruct (worker_step_frame _ _ _ _ Hs I) as (Hv & Hc & Hw & Hbar);
         unfold Inv, barrier_tag_ok; rewrite Hv, Hc, Hw, Hbar; auto; fail).
  - unfold step in Hs. destruct (vm_thread w) eqn:Hv; [|discriminate].
    destruct (Threads_lock_owned w) eqn:Hl; [discriminate|].
    injection Hs as <-.
    apply Inv_with_vm_thread; auto using on_track_begin.
  - unfold step in Hs. destruct (vm_thread w) eqn:Hv; [|discriminate].
    destruct (Threads_lock_owned w) eqn:Hl; [|discriminate].
    injection Hs as <-.
    apply Inv_with_vm_thread; auto using on_track_end.
  - unfold step in Hs. destruct (vm_thread w) as [|a rest] eqn:Hv; [discriminate|].
    destruct (run_vm_action a w) as [w1|] eqn:Ha; [|discriminate].
    cbn in Hs. injection Hs as <-.
    apply on_track_cons in Ht as [Has Ht].
    pose proof (run_vm_action_frame _ _ _ Ha) as (_ & Hne & Heq).
    pose proof (view_run_vm_action _ _ _ Hu Ha) as Hview.
    pose proof (barrier_run_vm_action _ _ _ Hu Has Hb Ha) as Hb1.
    apply Inv_with_vm_thread.
    + destruct (decide (a = release_store_safepoint_counter)) as [e|n].
      * rewrite (Heq e). apply wrap_u64_range.
      * rewrite (Hne n). exact Hu.
    + rewrite Hview. exact Ht.
    + exact Hb1.
Qed.

Lemma Inv_run f ls : forall w w', Inv w -> run f ls w = Some w' -> Inv w'.
Proof.
  induction ls as [|l ls IH]; cbn; intros w w' Hi Hr.
  - congruence.
  - destruct (step f l w) as [w1|] eqn:Hs; [|discriminate].
    eauto using Inv_step.
Qed.

Lemma Inv_reachable f threads w : reachable f threads w -> Inv w.
Proof. intros [ls Hr]. eapply Inv_run; [apply Inv_init | exact Hr]. Qed.

Lemma run_app f ls1 ls2 w :
  run f (ls1 ++ ls2) w = run f ls1 w ≫= run f ls2.
Proof.
  revert w. induction ls1 as [|l ls1 IH]; cbn; intros w; [reflexivity|].
  destruct (step f l w); cbn; auto.
Qed.

(** *** Counting the stores to the counter *)

Lemma begins_cons l ls :
  begins (l :: ls) = (if decide (l = VM_begin) then 1 else 0) + begins ls.
Proof.
  unfold begins. rewrite filter_cons. destruct (decide (l = VM_begin)); cbn; lia.
Qed.

Lemma ends_cons l ls :
  ends (l :: ls) = (if decide (l = VM_end) then 1 else 0) + ends ls.
Proof.
  unfold ends. rewrite filter_cons. destruct (decide (l = VM_end)); cbn; lia.
Qed.

Lemma calls_cons l ls :
  begins (l :: ls) + ends (l :: ls) = is_call l + (begins ls + ends ls).
Proof.
  rewrite begins_cons, ends_cons. destruct l; cbn; repeat case_decide; try congruence; lia.
Qed.

Lemma calls_app ls1 ls2 :
  begins (ls1 ++ ls2) + ends (ls1 ++ ls2)
  = (begins ls1 + ends ls1) + (begins ls2 + ends ls2).
Proof.
  induction ls1 as [|l ls1 IH]; [cbn; unfold begins, ends; cbn; lia|].
  rewrite <- app_comm_cons, !calls_cons. lia.
Qed.

Lemma calls_nonneg ls : 0 <= begins ls + ends ls.
Proof. unfold begins, ends. lia. Qed.

Lemma pending_stores_cons a todo :
  pending_stores (a :: todo)
  = (if decide (a = release_store_safepoint_counter) then 1 else 0)
    + pending_stores todo.
Proof.
  unfold pending_stores. rewrite filter_cons.
  destruct (decide (a = release_store_safepoint_counter)); cbn; lia.
Qed.

Lemma pending_stores_nonneg todo : 0 <= pending_stores todo.
Proof. unfold pending_stores. lia. Qed.

Lemma pending_stores_begin f : pending_stores (SafepointSynchronize_begin f) = 1.
Proof. destruct f as [? ? [] []]; reflexivity. Qed.

Lemma pending_stores_end f : pending_stores (SafepointSynchronize_end f) = 1.
Proof. destruct f as [? ? [] []]; reflexivity. Qed.

(** The only step that changes the counter is the VM thread's release store. *)
Lemma step_counter f l w w' :
  step f l w = Some w' ->
  counter w' = counter w
  \/ (l = VM_step
      /\ exists rest, vm_thread w = release_store_safepoint_counter :: rest
                      /\ counter w' = wrap_u64 (counter w + 1)).
Proof.
  intros Hs. destruct l;
    try (left; apply (worker_step_frame _ _ _ _ Hs I); fail).
  - left. unfold step in Hs. repeat case_match; simplify_eq. reflexivity.
  - left. unfold step in Hs. repeat case_match; simplify_eq. reflexivity.
  - unfold step in Hs. destruct (vm_thread w) as [|a rest] eqn:Hv; [discriminate|].
    destruct (run_vm_action a w) as [w1|] eqn:Ha; [|discriminate].
    cbn in Hs. injection Hs as <-.
    pose proof (run_vm_action_frame _ _ _ Ha) as (_ & Hne & Heq).
    destruct (decide (a = release_store_safepoint_counter)) as [->|n].
    + right. split; [reflexivity|]. exists rest. split; [reflexivity|].
      apply Heq. reflexivity.
    + left. apply Hne, n.
Qed.

Lemma step_counting f l w w' :
  in_u64 (counter w) ->
  step f l w = Some w' ->
  counter w + pending_stores (vm_thread w) < 2 ^ 64 ->
  counter w' + pending_stores (vm_thread w')
  = counter w + pending_stores (vm_thread w) + is_call l.
Proof.
  intros Hu Hs Hlt. destruct l;
    try (destruct (worker_step_frame _ _ _ _ Hs I) as (Hv & Hc & _);
         rewrite Hv, Hc; cbn; lia).
  - unfold step in Hs. destruct (vm_thread w) eqn:Hv; [|discriminate].
    destruct (Threads_lock_owned w); [discriminate|]. injection Hs as <-.
    change (counter w + pending_stores (SafepointSynchronize_begin f)
            = counter w + pending_stores [] + 1).
    rewrite pending_stores_begin. change (pending_stores []) with 0. lia.
  - unfold step in Hs. destruct (vm_thread w) eqn:Hv; [|discriminate].
    destruct (Threads_lock_owned w); [|discriminate]. injection Hs as <-.
    change (counter w + pending_stores (SafepointSynchronize_end f)
            = counter w + pending_stores [] + 1).
    rewrite pending_stores_end. change (pending_stores []) with 0. lia.
  - unfold step in Hs. destruct (vm_thread w) as [|a rest] eqn:Hv; [discriminate|].
    destruct (run_vm_action a w) as [w1|] eqn:Ha; [|discriminate].
    cbn in Hs. injection Hs as <-.
    pose proof (run_vm_action_frame _ _ _ Ha) as (_ & Hne & Heq).
    change (counter w1 + pending_stores rest
            = counter w + pending_stores (a :: rest) + 0).
    rewrite pending_stores_cons in *.
    pose proof (pending_stores_nonneg rest).
    destruct (decide (a = release_store_safepoint_counter)) as [e|n].
    + rewrite (Heq e), wrap_u64_small; [lia|]. unfold in_u64 in *. lia.
    + rewrite (Hne n). lia.
Qed.

Lemma run_counting f ls : forall w w',
  Inv w ->
  run f ls w = Some w' ->
  counter w + pending_stores (vm_thread w) + (begins ls + ends ls) < 2 ^ 64 ->
  counter w' + pending_stores (vm_thread w')
  = counter w + pending_stores (vm_thread w) + (begins ls + ends ls).
Proof.
  induction ls as [|l ls IH]; intros w w' Hi Hr Hlt.
  - cbn in Hr. injection Hr as <-. unfold begins, ends. cbn. lia.
  - cbn in Hr. destruct (step f l w) as [w1|] eqn:Hs; [|discriminate].
    rewrite calls_cons in *.
    pose proof (calls_nonneg ls).
    assert (0 <= is_call l) by (destruct l; cbn; lia).
    pose proof (step_counting _ _ _ _ (proj1 Hi) Hs ltac:(lia)) as H1.
    rewrite (IH w1 w' (Inv_step _ _ _ _ Hi Hs) Hr) by lia. lia.
Qed.

Lemma run_pending f ls : forall w w',
  run f ls w = Some w' ->
  pending_stores (vm_thread w')
  <= pending_stores (vm_thread w) + (begins ls + ends ls).
Proof.
  induction ls as [|l ls IH]; intros w w' Hr.
  - cbn in Hr. injection Hr as <-. unfold begins, ends. cbn. lia.
  - cbn in Hr. destruct (step f l w) as [w1|] eqn:Hs; [|discriminate].
    rewrite calls_cons. specialize (IH _ _ Hr).
    enough (pending_stores (vm_thread w1)
            <= pending_stores (vm_thread w) + is_call l) by lia.
    clear IH Hr. destruct l;
      try (destruct (worker_step_frame _ _ _ _ Hs I) as (Hv & _);
           rewrite Hv; cbn; lia).
    + unfold step in Hs. destruct (vm_thread w) eqn:Hv; [|discriminate].
      destruct (Threads_lock_owned w); [discriminate|]. injection Hs as <-.
      change (pending_stores (SafepointSynchronize_begin f) <= pending_stores [] + 1).
      rewrite pending_stores_begin. change (pending_stores []) with 0. lia.
    + unfold step in Hs. destruct (vm_thread w) eqn:Hv; [|discriminate].
      destruct (Threads_lock_owned w); [|discriminate]. injection Hs as <-.
      change (pending_stores (SafepointSynchronize_end f) <= pending_stores [] + 1).
      rewrite pending_stores_end. change (pending_stores []) with 0. lia.
    + unfold step in Hs. destruct (vm_thread w) as [|a rest] eqn:Hv; [discriminate|].
      destruct (run_vm_action a w) as [w1'|] eqn:Ha; [|discriminate].
      cbn in Hs. injection Hs as <-.
      change (pending_stores rest <= pending_stores (a :: rest) + 0).
      rewrite pending_stores_cons. case_decide; lia.
Qed.

(** At rest the parity of the counter tells on which side of a safepoint
    the VM thread is. *)
Lemma at_rest_parity w :
  Inv w -> vm_thread w = [] ->
  is_odd (counter w) = Threads_lock_owned w.
Proof.
  intros (_ & Ht & _) Hv. rewrite Hv in Ht. cbn in Ht.
  apply andb_prop in Ht as [_ Ht]. unfold at_rest, view in Ht. cbn in Ht.
  fold (counter w) in Ht.
  destruct (Threads_lock_owned w), (is_odd (counter w)); cbn in Ht;
    congruence.
Qed.

(** *** The claims about the generation counter and the global state *)

Example into_safepoint :
  run example_flags schedule_into_safepoint (init [example_thread _thread_in_Java])
  = Some (world_after example_flags [example_thread _thread_in_Java]
            schedule_into_safepoint)
  /\ _state (statics (world_after example_flags [example_thread _thread_in_Java]
                        schedule_into_safepoint)) = _synchronized
  /\ counter (world_after example_flags [example_thread _thread_in_Java]
                schedule_into_safepoint) = 1.
Proof. vm_compute. auto. Qed.

Example a_cycle :
  run example_flags schedule_of_a_cycle (init [example_thread _thread_in_Java])
  = Some (world_after example_flags [example_thread _thread_in_Java]
            schedule_of_a_cycle)
  /\ _state (statics (world_after example_flags [example_thread _thread_in_Java]
                        schedule_of_a_cycle)) = _not_synchronized
  /\ counter (world_after example_flags [example_thread _thread_in_Java]
                schedule_of_a_cycle) = 2
  /\ (fun wk => (thread_state (java_thread wk), in_block wk))
       <$> Threads (world_after example_flags [example_thread _thread_in_Java]
                      schedule_of_a_cycle)
     = [(_thread_in_Java, None)].
Proof. vm_compute. auto. Qed.

(** C1, as stated, fails.  One worker, thread-local polls: after the VM
    thread's release store in [arm_safepoint] and before its store
    [_state = _synchronizing] the counter is 1, odd, while [_state] is
    still [_not_synchronized]. *)
Lemma parity_fails_in_arm_safepoint :
  exists w,
    run example_flags schedule_into_arm_window (init [example_thread _thread_in_Java])
    = Some w
    /\ counter w = 1
    /\ _state (statics w) = _not_synchronized
    /\ ~ (is_odd (counter w) = true
          <-> _state (statics w) = _synchronized
              \/ _state (statics w) = _synchronizing).
Proof.
  eexists. split; [vm_compute; reflexivity|].
  split; [reflexivity|]. split; [reflexivity|].
  cbn. intros [H _]. destruct (H eq_refl); discriminate.
Qed.

(** C1, as amended.  In every state reachable by interleaving steps of
    the VM thread and of the workers: if [_state] is [_synchronized] or
    [_synchronizing] then [_safepoint_counter] is odd.  Conversely, if the
    counter is odd then [_state] is one of the two, or it is
    [_not_synchronized] and the VM thread is inside [arm_safepoint] with
    its store [_state = _synchronizing] still ahead, or inside
    [disarm_safepoint] with its store to the counter still ahead.  So the
    equivalence holds whenever the VM thread is outside [begin] and [end]. *)
Theorem parity_invariant f threads w :
  reachable f threads w ->
  ((_state (statics w) = _synchronized \/ _state (statics w) = _synchronizing) ->
   is_odd (counter w) = true)
  /\ (is_odd (counter w) = true ->
      (_state (statics w) = _synchronized \/ _state (statics w) = _synchronizing)
      \/ (_state (statics w) = _not_synchronized
          /\ (store_state _synchronizing ∈ vm_thread w
              \/ release_store_safepoint_counter ∈ vm_thread w)))
  /\ (vm_thread w = [] ->
      (is_odd (counter w) = true
       <-> _state (statics w) = _synchronized
           \/ _state (statics w) = _synchronizing)).
Proof.
  intros Hr. destruct (Inv_reachable _ _ _ Hr) as (_ & Ht & _).
  assert (Hact : active_implies_odd (view w) = true
                 /\ (odd_but_inactive (view w) = true ->
                     in_window (vm_thread w) = true)).
  { destruct (vm_thread w); cbn in Ht;
      apply andb_prop in Ht as [Ht _]; apply andb_prop in Ht as [H1 H2];
      (split; [exact H1|]); intros H; rewrite H in H2; exact H2. }
  destruct Hact as [Hact Hwin].
  unfold active_implies_odd, odd_but_inactive, view in *. cbn in *.
  fold (counter w) in *.
  assert (H1 : (_state (statics w) = _synchronized
                \/ _state (statics w) = _synchronizing) ->
               is_odd (counter w) = true).
  { intros [H|H]; rewrite H in Hact; exact Hact. }
  assert (H2 : is_odd (counter w) = true ->
      (_state (statics w) = _synchronized \/ _state (statics w) = _synchronizing)
      \/ (_state (statics w) = _not_synchronized
          /\ (store_state _synchronizing ∈ vm_thread w
              \/ release_store_safepoint_counter ∈ vm_thread w))).
  { intros Hodd. rewrite Hodd in Hwin.
    destruct (_state (statics w)) eqn:Hs; [|auto|auto].
    right. split; [reflexivity|].
    specialize (Hwin eq_refl). unfold in_window in Hwin.
    apply orb_prop in Hwin as [H|H]; apply bool_decide_eq_true in H; auto. }
  split; [exact H1|]. split; [exact H2|].
  intros Hv. split; [|exact H1].
  intros Hodd. destruct (H2 Hodd) as [H|[_ [H|H]]]; [exact H| |];
    rewrite Hv in H; inversion H.
Qed.

Lemma parity_invariant_witness :
  reachable example_flags [example_thread _thread_in_Java]
    (world_after example_flags [example_thread _thread_in_Java] schedule_into_safepoint)
  /\ is_odd (counter (world_after example_flags [example_thread _thread_in_Java]
                        schedule_into_safepoint)) = true.
Proof.
  assert (Hr : reachable example_flags [example_thread _thread_in_Java]
                 (world_after example_flags [example_thread _thread_in_Java]
                    schedule_into_safepoint)).
  { exists schedule_into_safepoint. vm_compute. reflexivity. }
  split; [exact Hr|].
  apply (proj1 (parity_invariant _ _ _ Hr)). left. vm_compute. reflexivity.
Defined.

(** C8.  In every execution from the initial state (counter 0) in which
    [begin] and [end] were called fewer than 2^64 times in all: [begin]
    and [end] each contain exactly one release store
    [_safepoint_counter := _safepoint_counter + 1], and that store is the
    only step of the system that changes the counter; so the counter is
    the number of calls so far, less the store the current call still has
    ahead of it.  A call of [begin] starts with the counter even and
    leaves it one larger (odd); a call of [end] starts with the counter
    odd and leaves it one larger (even): 2n, 2n+1, 2n+2.  The counter
    never decreases. *)
Theorem generation_counter_stepping f threads ls w :
  run f ls (init threads) = Some w ->
  begins ls + ends ls < 2 ^ 64 ->
  (pending_stores (SafepointSynchronize_begin f) = 1
   /\ pending_stores (SafepointSynchronize_end f) = 1)
  /\ (forall l w', step f l w = Some w' ->
        counter w' = counter w
        \/ (l = VM_step
            /\ exists rest, vm_thread w = release_store_safepoint_counter :: rest
                            /\ counter w' = wrap_u64 (counter w + 1)))
  /\ counter w + pending_stores (vm_thread w) = begins ls + ends ls
  /\ (forall ls' w',
        vm_thread w = [] -> run f (VM_begin :: ls') w = Some w' ->
        vm_thread w' = [] -> begins ls' + ends ls' = 0 ->
        is_odd (counter w) = false /\ counter w' = counter w + 1
        /\ is_odd (counter w') = true)
  /\ (forall ls' w',
        vm_thread w = [] -> run f (VM_end :: ls') w = Some w' ->
        vm_thread w' = [] -> begins ls' + ends ls' = 0 ->
        begins ls + ends ls + 1 < 2 ^ 64 ->
        is_odd (counter w) = true /\ counter w' = counter w + 1
        /\ is_odd (counter w') = false)
  /\ (forall ls' w',
        run f ls' w = Some w' ->
        begins (ls ++ ls') + ends (ls ++ ls') < 2 ^ 64 ->
        counter w <= counter w').
Proof.
  intros Hr Hlt.
  pose proof (Inv_run _ _ _ _ (Inv_init threads) Hr) as Hi.
  pose proof (calls_nonneg ls) as Hnn.
  assert (Hcount : counter w + pending_stores (vm_thread w) = begins ls + ends ls).
  { rewrite (run_counting _ _ _ _ (Inv_init threads) Hr); cbn.
    - change (pending_stores []) with 0. unfold counter. cbn. lia.
    - change (pending_stores []) with 0. unfold counter. cbn. lia. }
  split; [split; [apply pending_stores_begin | apply pending_stores_end]|].
  split; [intros l w'; apply step_counter|].
  split; [exact Hcount|].
  assert (Hcall : forall l ls' w',
            is_call l = 1 -> vm_thread w = [] -> run f (l :: ls') w = Some w' ->
            vm_thread w' = [] -> begins ls' + ends ls' = 0 ->
            begins ls + ends ls + 1 < 2 ^ 64 ->
            counter w' = counter w + 1).
  { intros l ls' w' Hl Hv Hr' Hv' H0 Hb.
    pose proof (run_counting _ _ _ _ Hi Hr') as Hc.
    rewrite calls_cons, Hl, Hv, Hv', H0 in Hc.
    change (pending_stores []) with 0 in *. rewrite Hv in Hcount.
    change (pending_stores []) with 0 in *. lia. }
  split; [|split].
  - intros ls' w' Hv Hr' Hv' H0.
    assert (Hev : is_odd (counter w) = false).
    { rewrite (at_rest_parity _ Hi Hv). cbn in Hr'. rewrite Hv in Hr'.
      destruct (Threads_lock_owned w); [discriminate|reflexivity]. }
    assert (Hs : counter w + 1 < 2 ^ 64).
    { rewrite <- (even_succ_no_wrap _ (proj1 Hi) Hev).
      apply wrap_u64_range. }
    rewrite Hv in Hcount. change (pending_stores []) with 0 in Hcount.
    assert (Hc : counter w' = counter w + 1).
    { apply (Hcall VM_begin ls'); auto. lia. }
    split; [exact Hev|]. split; [exact Hc|].
    rewrite Hc, <- (even_succ_no_wrap _ (proj1 Hi) Hev),
      is_odd_succ_wrap, Hev; [reflexivity | apply Hi].
  - intros ls' w' Hv Hr' Hv' H0 Hb.
    assert (Hodd : is_odd (counter w) = true).
    { rewrite (at_rest_parity _ Hi Hv). cbn in Hr'. rewrite Hv in Hr'.
      destruct (Threads_lock_owned w); [reflexivity|discriminate]. }
    assert (Hc : counter w' = counter w + 1).
    { apply (Hcall VM_end ls'); auto. }
    split; [exact Hodd|]. split; [exact Hc|].
    rewrite Hv in Hcount. change (pending_stores []) with 0 in Hcount.
    rewrite Hc, <- (wrap_u64_small (counter w + 1)),
      is_odd_succ_wrap, Hodd; [reflexivity | apply Hi |].
    unfold in_u64. destruct Hi as [[? ?] _]. lia.
  - intros ls' w' Hr' Hb. rewrite calls_app in Hb.
    pose proof (calls_nonneg ls').
    pose proof (run_counting _ _ _ _ Hi Hr' ltac:(lia)) as Hc.
    pose proof (run_pending _ _ _ _ Hr'). lia.
Qed.

Lemma generation_counter_stepping_witness :
  run example_flags schedule_of_a_cycle (init [example_thread _thread_in_Java])
  = Some (world_after example_flags [example_thread _thread_in_Java]
            schedule_of_a_cycle)
  /\ begins schedule_of_a_cycle + ends schedule_of_a_cycle < 2 ^ 64
  /\ counter (world_after example_flags [example_thread _thread_in_Java]
                schedule_of_a_cycle)
     + pending_stores
         (vm_thread (world_after example_flags [example_thread _thread_in_Java]
                       schedule_of_a_cycle))
     = begins schedule_of_a_cycle + ends schedule_of_a_cycle.
Proof.
  assert (Hr : run example_flags schedule_of_a_cycle
                 (init [example_thread _thread_in_Java])
               = Some (world_after example_flags [example_thread _thread_in_Java]
                         schedule_of_a_cycle))
    by (vm_compute; reflexivity).
  assert (Hlt : begins schedule_of_a_cycle + ends schedule_of_a_cycle < 2 ^ 64)
    by (vm_compute; reflexivity).
  split; [exact Hr|]. split; [exact Hlt|].
  exact (proj1 (proj2 (proj2 (generation_counter_stepping _ _ _ _ Hr Hlt)))).
Defined.

(** *** The claims about [block] *)

(** C2, as stated, fails.  A running thread in [_thread_in_Java] that
    loads the even counter value 2 still records 2 as its safepoint id,
    still moves to [_thread_blocked] and still calls [wait] on the
    barrier: [block] does not look at the parity of the value it loaded. *)
Lemma block_with_even_counter_still_records_and_waits :
  is_odd 2 = false
  /\ block false 2 (example_thread _thread_in_Java)
     = ([do_break_tty_lock_for_safepoint;
         do_make_walkable;
         do_set_safepoint_id 2;
         do_storestore;
         do_set_thread_state_fence _thread_blocked;
         do_wait 2;
         do_loadstore;
         do_set_thread_state _thread_in_Java;
         do_reset_safepoint_id;
         do_fence;
         do_guarantee_safepoint_id_inactive;
         do_special_runtime_exit_condition true],
        block_returns).
Proof. split; reflexivity. Qed.

(** C2, as amended.  A thread that is not terminated and is in one of the
    five states [block] accepts loads the counter g and then, whatever the
    parity of g, records g as its safepoint id, moves to [_thread_blocked],
    calls [wait(static_cast<int>(g))] on the barrier, and afterwards
    restores its state and resets its safepoint id.  [block] has no
    parity test; a stale even g is turned away by the barrier: in every
    reachable state the barrier's tag is 0 or odd, so [wait] on an even
    tag other than 0 returns at once. *)
Theorem block_has_no_parity_test vm_exited g thread :
  is_terminated thread = false ->
  may_block (thread_state thread) ->
  (exists tail,
     block vm_exited g thread
     = (block_protocol g (thread_state thread) ++ tail, block_returns)
     /\ (tail = [] \/ exists b, tail = [do_special_runtime_exit_condition b]))
  /\ (forall f threads w,
        reachable f threads w ->
        is_odd g = false -> static_cast_int g <> 0 ->
        wait_returns (static_cast_int g) (barrier w) = true).
Proof.
  intros Hterm Hst. split; [apply block_live_thread; assumption|].
  intros f threads w Hr Hev Hnz.
  destruct (Inv_reachable _ _ _ Hr) as (_ & _ & [H0|Hodd]);
    unfold wait_returns; apply negb_true_iff, Z.eqb_neq.
  - rewrite H0. auto.
  - intros Heq. rewrite Heq, is_odd_static_cast_int, Hev in Hodd. discriminate.
Qed.

Lemma block_has_no_parity_test_witness :
  is_terminated (example_thread _thread_in_Java) = false
  /\ may_block (thread_state (example_thread _thread_in_Java))
  /\ exists tail,
       block false 2 (example_thread _thread_in_Java)
       = (block_protocol 2 _thread_in_Java ++ tail, block_returns)
       /\ (tail = [] \/ exists b, tail = [do_special_runtime_exit_condition b]).
Proof.
  assert (H1 : is_terminated (example_thread _thread_in_Java) = false)
    by reflexivity.
  assert (H2 : may_block (thread_state (example_thread _thread_in_Java)))
    by (right; left; reflexivity).
  split; [exact H1|]. split; [exact H2|].
  exact (proj1 (block_has_no_parity_test false 2 _ H1 H2)).
Defined.

(** C10.  When the calling thread is already terminated, [block] only
    breaks the tty lock and calls [block_if_vm_exited]: it returns at once
    unless the VM has exited, in which case it never returns.  It does not
    set or reset the thread's safepoint id, does not change its thread
    state and does not wait on the barrier; the thread's record is left
    as it was. *)
Theorem block_of_a_terminated_thread vm_exited g thread :
  is_terminated thread = true ->
  block vm_exited g thread
  = ([do_break_tty_lock_for_safepoint; do_block_if_vm_exited],
     if vm_exited then block_never_returns else block_returns)
  /\ run_block_actions (block vm_exited g thread).1 thread = Some thread
  /\ forall a, a ∈ (block vm_exited g thread).1 ->
       (forall id, a <> do_set_safepoint_id id)
       /\ a <> do_reset_safepoint_id
       /\ (forall s, a <> do_set_thread_state_fence s /\ a <> do_set_thread_state s)
       /\ (forall tag, a <> do_wait tag).
Proof.
  intros Hterm. unfold block. rewrite Hterm. cbn.
  split; [reflexivity|]. split; [reflexivity|].
  intros a Ha. apply elem_of_cons in Ha as [->|Ha];
    [|apply elem_of_cons in Ha as [->|Ha]; [|inversion Ha]];
    repeat split; intros; discriminate.
Qed.

Lemma block_of_a_terminated_thread_witness :
  is_terminated example_terminated_thread = true
  /\ block false 1 example_terminated_thread
     = ([do_break_tty_lock_for_safepoint; do_block_if_vm_exited], block_returns).
Proof.
  assert (H : is_terminated example_terminated_thread = true) by reflexivity.
  split; [exact H|].
  exact (proj1 (block_of_a_terminated_thread false 1 _ H)).
Defined.

(** *** The claim about the spin loop *)




(** The loop returns in the iteration after which no thread is running. *)
Lemma spin_returns f pa limit start tick ticks tss ss threads still iters initial evs :
  SafepointTimeout f = false ->
  (iters =? -1) && pa = false ->
  (walk tss ss (foldl apply_move threads (moved tick)) still).2 <= 0 ->
  exists r, spin f pa limit start (tick :: ticks) tss ss threads still iters initial evs
            = Done r
            /\ sync_iterations r = wrap_s32 (iters + 1).
Proof.
  intros Hf Hi Hw. cbn [spin]. rewrite Hf, Hi. cbn.
  destruct (walk tss ss (foldl apply_move threads (moved tick)) still)
    as [[[tss' ss'] threads'] still']. cbn in Hw.
  destruct (0 <? still') eqn:Hpos; [apply Z.ltb_lt in Hpos; lia|].
  eexists. split; reflexivity.
Qed.

Example synchronize_one_worker :
  exists r,
    synchronize_threads example_flags false 0 1 7000000 example_ticks
      example_synchronizing [example_thread _thread_in_Java] = Done r
    /\ sync_initial_running r = 1
    /\ sync_iterations r = 3
    /\ sync_events r
       = [ev_pass 1; ev_back_off (naked_short_nanosleep 10000); ev_pass 0]
    /\ _waiting_to_block (sync_statics r) = 0.
Proof. eexists. split; [vm_compute; reflexivity|]. repeat split. Qed.



(** *** The claim about the cleanup tasks *)

Lemma task_number_inj t1 t2 : task_number t1 = task_number t2 -> t1 = t2.
Proof. destruct t1, t2; cbn; congruence. Qed.

Lemma task_number_lt t : (task_number t < SAFEPOINT_CLEANUP_NUM_TASKS)%nat.
Proof. destruct t; cbn; unfold SAFEPOINT_CLEANUP_NUM_TASKS; lia. Qed.

Lemma times_app t l1 l2 : times t (l1 ++ l2) = (times t l1 + times t l2)%nat.
Proof. unfold times. rewrite filter_app, length_app. reflexivity. Qed.

Lemma times_singleton t i t0 :
  times t [(i, t0)] = if decide (t0 = t) then 1%nat else 0%nat.
Proof.
  unfold times. rewrite filter_cons. cbn. destruct (decide (t0 = t)); reflexivity.
Qed.

Lemma pending_bodies_insert t g : forall i todo todo',
  g !! i = Some todo ->
  (pending_bodies t (<[i := todo']> g) + length (filter (fun st => st = body t) todo))%nat
  = (pending_bodies t g + length (filter (fun st => st = body t) todo'))%nat.
Proof.
  induction g as [|x g IH]; intros [|i] todo todo' H; try discriminate.
  - cbn in H. injection H as ->.
    change (<[0%nat := todo']> (todo :: g)) with (todo' :: g).
    cbn [pending_bodies]. lia.
  - cbn in H. change (<[S i := todo']> (x :: g)) with (x :: <[i := todo']> g).
    cbn [pending_bodies]. specialize (IH _ _ todo' H). lia.
Qed.

Lemma pending_bodies_all_done t g :
  Forall (fun todo => todo = []) g -> pending_bodies t g = 0%nat.
Proof. induction 1 as [|x g -> _ IH]; cbn; [reflexivity | exact IH]. Qed.

Lemma bodies_cons t st rest :
  length (filter (fun st => st = body t) (st :: rest))
  = ((if decide (st = body t) then 1 else 0)
     + length (filter (fun st => st = body t) rest))%nat.
Proof. rewrite filter_cons. destruct (decide (st = body t)); reflexivity. Qed.

Lemma elem_of_gang_insert (g : list (list WorkStep)) i todo' todo :
  todo ∈ <[i := todo']> g -> todo = todo' \/ todo ∈ g.
Proof.
  intros H. apply list_elem_of_lookup in H as [j Hj].
  destruct (decide (i = j)) as [->|Hne].
  - destruct (decide (j < length g)%nat) as [Hlt|Hge].
    + rewrite list_lookup_insert_eq in Hj by exact Hlt. left. congruence.
    + rewrite list_insert_ge in Hj by lia. right.
      apply list_elem_of_lookup. eauto.
  - rewrite list_lookup_insert_ne in Hj by exact Hne. right.
    apply list_elem_of_lookup. eauto.
Qed.

Lemma try_claim_task_spec n st :
  (n < length (_tasks st))%nat ->
  (_tasks st !! n = Some false
   /\ try_claim_task n st
      = (true, {| _tasks := <[n := true]> (_tasks st);
                  _threads_completed := _threads_completed st |}))
  \/ (_tasks st !! n = Some true /\ try_claim_task n st = (false, st)).
Proof.
  intros Hlt. unfold try_claim_task.
  destruct (_tasks st !! n) as [[]|] eqn:Hl; auto.
  apply lookup_ge_None in Hl. lia.
Qed.

Lemma CleanupInv_start cleanup_workers : CleanupInv (do_cleanup_tasks cleanup_workers).
Proof.
  unfold CleanupInv, do_cleanup_tasks, is_claimed. cbn.
  split; [reflexivity|]. split; [|split].
  - intros []; reflexivity.
  - intros t. unfold times. cbn.
    induction (match cleanup_workers with Some a => a | None => 1%nat end)
      as [|n IH]; [reflexivity|].
    cbn. rewrite IH. destruct t; reflexivity.
  - intros todo t H. apply elem_of_replicate in H as [-> _].
    left. destruct t; unfold work; set_solver.
Qed.

Lemma is_claimed_insert t t0 c tasks' :
  length (_tasks (_subtasks c)) = SAFEPOINT_CLEANUP_NUM_TASKS ->
  tasks' = <[task_number t0 := true]> (_tasks (_subtasks c)) ->
  bool_decide (tasks' !! task_number t = Some true)
  = if decide (t0 = t) then true else is_claimed t c.
Proof.
  intros Hlen ->. unfold is_claimed.
  destruct (decide (t0 = t)) as [->|Hne].
  - rewrite list_lookup_insert_eq
      by (rewrite Hlen; apply task_number_lt).
    apply bool_decide_eq_true. reflexivity.
  - rewrite list_lookup_insert_ne; [reflexivity|].
    intros H. apply Hne, task_number_inj, H.
Qed.

Lemma CleanupInv_step needs i c c' :
  CleanupInv c -> work_step needs i c = Some c' -> CleanupInv c'.
Proof.
  intros (Hlen & Hclaims & Hruns & Hgang) Hs. unfold work_step in Hs.
  destruct (gang c !! i) as [[|st rest]|] eqn:Hg; try discriminate.
  assert (Hin : (st :: rest) ∈ gang c) by (apply list_elem_of_lookup; eauto).
  assert (Hrest : forall t (new : list WorkStep), (forall x, x ∈ rest -> x ∈ new) ->
            st <> claim t -> claim t ∈ new \/ is_claimed t c = true).
  { intros t new Hsub Hne. destruct (Hgang _ t Hin) as [H|H]; [|auto].
    apply elem_of_cons in H as [H|H]; [congruence|]. left. auto. }
  destruct st.
  - (* threads_do *)
    injection Hs as <-. unfold CleanupInv, is_claimed in *.
    cbn [_subtasks gang claims runs calls _tasks all_tasks_completed].
    split; [exact Hlen|]. split; [exact Hclaims|]. split.
    + intros t. pose proof (pending_bodies_insert t _ _ _ rest Hg) as Hp.
      rewrite bodies_cons in Hp. specialize (Hruns t).
      destruct (decide (threads_do = body t)); [discriminate|]. lia.
    + intros todo t H. apply elem_of_gang_insert in H as [->|H]; [|auto].
      apply Hrest; [auto|discriminate].
  - (* claim t0 *)
    destruct (try_claim_task_spec (task_number t) (_subtasks c)
                ltac:(rewrite Hlen; apply task_number_lt))
      as [[Hfree Ht]|[Htaken Ht]]; rewrite Ht in Hs; injection Hs as <-.
    + unfold CleanupInv. cbn [_subtasks gang claims runs _tasks].
      assert (Hcl : forall t', is_claimed t'
                {| _subtasks := {| _tasks := <[task_number t:=true]>
                                               (_tasks (_subtasks c));
                                   _threads_completed :=
                                     _threads_completed (_subtasks c) |};
                   gang := <[i:=body t :: rest]> (gang c);
                   claims := claims c ++ [(i, t)];
                   runs := runs c; calls := calls c |}
                = if decide (t = t') then true else is_claimed t' c).
      { intros t'. unfold is_claimed at 1. cbn.
        apply (is_claimed_insert t' t c); [exact Hlen | reflexivity]. }
      split; [rewrite length_insert; exact Hlen|]. split; [|split].
      * intros t'. rewrite Hcl, times_app, times_singleton, Hclaims.
        destruct (decide (t = t')) as [<-|Hne]; [|lia].
        unfold is_claimed. rewrite Hfree. cbn. reflexivity.
      * intros t'. pose proof (pending_bodies_insert t' _ _ _ (body t :: rest) Hg) as Hp.
        rewrite !bodies_cons in Hp. specialize (Hruns t').
        rewrite times_app, times_singleton.
        destruct (decide (claim t = body t')); [discriminate|].
        destruct (decide (body t = body t')) as [e|ne], (decide (t = t')) as [e'|ne'];
          try congruence; lia.
      * intros todo t' H. rewrite Hcl.
        destruct (decide (t = t')) as [<-|Hne]; [auto|].
        apply elem_of_gang_insert in H as [->|H]; [|auto].
        apply Hrest; [intros x Hx; apply elem_of_cons; auto | congruence].
    + unfold CleanupInv, is_claimed in *.
    cbn [_subtasks gang claims runs calls _tasks all_tasks_completed].
      split; [exact Hlen|]. split; [exact Hclaims|]. split.
      * intros t'. pose proof (pending_bodies_insert t' _ _ _ rest Hg) as Hp.
        rewrite bodies_cons in Hp. specialize (Hruns t').
        destruct (decide (claim t = body t')); [discriminate|]. lia.
      * intros todo t' H. apply elem_of_gang_insert in H as [->|H]; [|auto].
        destruct (decide (t = t')) as [<-|Hne].
        -- right. apply bool_decide_eq_true. exact Htaken.
        -- apply Hrest; [auto | congruence].
  - (* body t *)
    injection Hs as <-. unfold CleanupInv, is_claimed in *.
    cbn [_subtasks gang claims runs calls _tasks all_tasks_completed].
    split; [exact Hlen|]. split; [exact Hclaims|]. split.
    + intros t'. pose proof (pending_bodies_insert t' _ _ _ rest Hg) as Hp.
      rewrite bodies_cons in Hp. specialize (Hruns t').
      rewrite times_app, times_singleton.
      destruct (decide (body t = body t')) as [e|ne], (decide (t = t')) as [e'|ne'];
        try congruence; lia.
    + intros todo t' H. apply elem_of_gang_insert in H as [->|H]; [|auto].
      apply Hrest; [auto|discriminate].
  - (* completed *)
    injection Hs as <-. unfold CleanupInv, is_claimed in *.
    cbn [_subtasks gang claims runs calls _tasks all_tasks_completed].
    split; [exact Hlen|]. split; [exact Hclaims|]. split.
    + intros t. pose proof (pending_bodies_insert t _ _ _ rest Hg) as Hp.
      rewrite bodies_cons in Hp. specialize (Hruns t).
      destruct (decide (completed = body t)); [discriminate|]. lia.
    + intros todo t H. apply elem_of_gang_insert in H as [->|H]; [|auto].
      apply Hrest; [auto|discriminate].
Qed.

Lemma work_step_gang_length needs i c c' :
  work_step needs i c = Some c' -> length (gang c') = length (gang c).
Proof.
  unfold work_step. intros H.
  destruct (gang c !! i) as [[|st rest]|]; try discriminate.
  destruct st; try (injection H as <-; cbn; apply length_insert).
  destruct (try_claim_task _ _) as [[] ?]; injection H as <-; cbn;
    apply length_insert.
Qed.

Lemma CleanupInv_run needs schedule : forall c c',
  CleanupInv c -> work_run needs schedule c = Some c' ->
  CleanupInv c' /\ length (gang c') = length (gang c).
Proof.
  induction schedule as [|i schedule IH]; cbn; intros c c' Hi Hr.
  - injection Hr as <-. auto.
  - destruct (work_step needs i c) as [c1|] eqn:Hs; [|discriminate].
    destruct (IH _ _ (CleanupInv_step _ _ _ _ Hi Hs) Hr) as [H1 H2].
    split; [exact H1|]. rewrite H2. eapply work_step_gang_length, Hs.
Qed.

Example cleanup_by_two_workers :
  exists c,
    work_run example_needs example_cleanup_schedule (do_cleanup_tasks (Some 2%nat))
    = Some c
    /\ all_done c = true
    /\ claims c
       = [(0%nat, SAFEPOINT_CLEANUP_DEFLATE_MONITORS);
          (1%nat, SAFEPOINT_CLEANUP_UPDATE_INLINE_CACHES);
          (0%nat, SAFEPOINT_CLEANUP_COMPILATION_POLICY);
          (1%nat, SAFEPOINT_CLEANUP_SYMBOL_TABLE_REHASH);
          (1%nat, SAFEPOINT_CLEANUP_STRING_TABLE_REHASH);
          (0%nat, SAFEPOINT_CLEANUP_CLD_PURGE);
          (0%nat, SAFEPOINT_CLEANUP_SYSTEM_DICTIONARY_RESIZE)]
    /\ calls c
       = [deflate_idle_monitors; do_safepoint_work; update_inline_caches;
          SymbolTable_rehash_table; purge_if_needed; resize_if_needed].
Proof. eexists. split; [vm_compute; reflexivity|]. repeat split. Qed.

Lemma steps_left_insert g : forall i todo todo',
  g !! i = Some todo ->
  (steps_left (<[i := todo']> g) + steps_in todo = steps_left g + steps_in todo')%nat.
Proof.
  induction g as [|x g IH]; intros [|i] todo todo' H; try discriminate.
  - cbn in H. injection H as ->.
    change (<[0%nat := todo']> (todo :: g)) with (todo' :: g).
    cbn [steps_left]. lia.
  - cbn in H. change (<[S i := todo']> (x :: g)) with (x :: <[i := todo']> g).
    cbn [steps_left]. specialize (IH _ _ todo' H). lia.
Qed.

Lemma steps_left_replicate n todo :
  steps_left (replicate n todo) = (n * steps_in todo)%nat.
Proof. induction n as [|n IH]; cbn; [reflexivity|]. rewrite IH. lia. Qed.

Lemma work_step_enabled needs i c st rest :
  gang c !! i = Some (st :: rest) -> is_Some (work_step needs i c).
Proof.
  intros H. unfold work_step. rewrite H.
  destruct st; try (eexists; reflexivity).
  destruct (try_claim_task (task_number t) (_subtasks c)) as [[] ?];
    eexists; reflexivity.
Qed.

Lemma work_step_steps_left needs i c c' :
  work_step needs i c = Some c' ->
  (steps_left (gang c') < steps_left (gang c))%nat.
Proof.
  unfold work_step. intros H.
  destruct (gang c !! i) as [[|st rest]|] eqn:Hg; try discriminate.
  assert (Hins : forall todo',
            (steps_left (<[i := todo']> (gang c)) + steps_in (st :: rest)
             = steps_left (gang c) + steps_in todo')%nat)
    by (intros todo'; exact (steps_left_insert _ _ _ todo' Hg)).
  destruct st; try (injection H as <-; cbn [gang]; specialize (Hins rest);
                    cbn [steps_in weight] in Hins; lia).
  destruct (try_claim_task _ _) as [[] ?]; injection H as <-; cbn [gang].
  - specialize (Hins (body t :: rest)). cbn [steps_in weight] in Hins. lia.
  - specialize (Hins rest). cbn [steps_in weight] in Hins. lia.
Qed.

Lemma work_run_steps_left needs schedule : forall c c',
  work_run needs schedule c = Some c' ->
  (length schedule + steps_left (gang c') <= steps_left (gang c))%nat.
Proof.
  induction schedule as [|i schedule IH]; cbn; intros c c' Hr.
  - injection Hr as <-. lia.
  - destruct (work_step needs i c) as [c1|] eqn:Hs; [|discriminate].
    pose proof (work_step_steps_left _ _ _ _ Hs). specialize (IH _ _ Hr). lia.
Qed.

Lemma work_run_app needs s1 s2 c :
  work_run needs (s1 ++ s2) c
  = match work_run needs s1 c with
    | Some c1 => work_run needs s2 c1
    | None => None
    end.
Proof.
  revert c. induction s1 as [|i s1 IH]; intros c; cbn; [reflexivity|].
  destruct (work_step needs i c); [apply IH | reflexivity].
Qed.

Lemma somebody_has_work (g : list (list WorkStep)) :
  forallb (fun todo => bool_decide (todo = [])) g = false ->
  exists i st rest, g !! i = Some (st :: rest).
Proof.
  induction g as [|todo g IH]; cbn; [discriminate|]. intros H.
  destruct todo as [|st rest].
  - cbn in H. destruct (IH H) as (i & st & rest & Hi). exists (S i), st, rest. exact Hi.
  - exists 0%nat, st, rest. reflexivity.
Qed.

(** From wherever the gang is, the workers can finish. *)
Lemma work_completes needs : forall n c,
  (steps_left (gang c) <= n)%nat ->
  exists schedule c', work_run needs schedule c = Some c' /\ all_done c' = true.
Proof.
  induction n as [|n IH]; intros c Hn.
  - destruct (all_done c) eqn:Hd; [exists [], c; auto|].
    destruct (somebody_has_work _ Hd) as (i & st & rest & Hi).
    destruct (work_step_enabled needs i c st rest Hi) as [c1 Hs].
    pose proof (work_step_steps_left _ _ _ _ Hs). lia.
  - destruct (all_done c) eqn:Hd; [exists [], c; auto|].
    destruct (somebody_has_work _ Hd) as (i & st & rest & Hi).
    destruct (work_step_enabled needs i c st rest Hi) as [c1 Hs].
    pose proof (work_step_steps_left _ _ _ _ Hs).
    destruct (IH c1 ltac:(lia)) as (schedule & c' & Hr & Hd').
    exists (i :: schedule), c'. cbn. rewrite Hs. auto.
Qed.

(** At most once always, exactly once when every worker has finished. *)
Lemma claimed_and_run_once needs cleanup_workers schedule c t :
  cleanup_workers <> Some 0%nat ->
  work_run needs schedule (do_cleanup_tasks cleanup_workers) = Some c ->
  (times t (claims c) <= 1)%nat
  /\ (times t (runs c) <= times t (claims c))%nat
  /\ (all_done c = true ->
      times t (claims c) = 1%nat /\ times t (runs c) = 1%nat).
Proof.
  intros Hw Hr.
  destruct (CleanupInv_run _ _ _ _ (CleanupInv_start cleanup_workers) Hr)
    as [(Hlen & Hclaims & Hruns & Hgang) Hn].
  specialize (Hclaims t). specialize (Hruns t).
  split; [destruct (is_claimed t c); lia|]. split; [lia|].
  intros Hdone. unfold all_done in Hdone.
  rewrite forallb_forall in Hdone.
  assert (Hall : Forall (fun todo => todo = []) (gang c)).
  { apply Forall_forall. intros todo Hin. apply list_elem_of_In in Hin.
    specialize (Hdone todo Hin). apply bool_decide_eq_true in Hdone. exact Hdone. }
  rewrite (pending_bodies_all_done t _ Hall) in Hruns.
  assert (Hcl : is_claimed t c = true).
  { destruct (gang c) as [|todo g] eqn:Hg.
    - exfalso. cbn in Hn. unfold do_cleanup_tasks in Hn. cbn in Hn.
      rewrite length_replicate in Hn.
      destruct cleanup_workers as [[|n]|]; [congruence|discriminate|discriminate].
    - destruct (Hgang todo t ltac:(left)) as [H|H]; [|exact H].
      apply Forall_cons in Hall as [-> _]. inversion H. }
  rewrite Hcl in Hclaims. lia.
Qed.

(** C7.  Within the cleanup of one safepoint, for each of the seven
    enumerated subtasks and whatever the number of workers of the gang
    (at least one) and the order in which they take their steps: at most
    one worker's claim of the subtask succeeds and the guarded block is
    run at most as often as it was claimed; when every worker has
    finished [work], exactly one claim of the subtask has succeeded and
    its block has been run exactly once.  And the workers do finish: a
    worker that has steps of [work] left can always take the next one, so
    an execution that cannot go on is one in which every worker has
    finished; no execution has more than 16 steps per worker; and from
    wherever the gang is the workers can run on to the point where every
    one has finished, each subtask then claimed once and run once. *)
Theorem cleanup_single_claim needs cleanup_workers schedule c :
  cleanup_workers <> Some 0%nat ->
  work_run needs schedule (do_cleanup_tasks cleanup_workers) = Some c ->
  (forall t,
     (times t (claims c) <= 1)%nat
     /\ (times t (runs c) <= times t (claims c))%nat
     /\ (all_done c = true ->
         times t (claims c) = 1%nat /\ times t (runs c) = 1%nat))
  /\ (forall i st rest,
        gang c !! i = Some (st :: rest) -> is_Some (work_step needs i c))
  /\ ((forall i, work_step needs i c = None) -> all_done c = true)
  /\ (length schedule <= 16 * length (gang c))%nat
  /\ exists schedule' c',
       work_run needs schedule' c = Some c'
       /\ all_done c' = true
       /\ forall t, times t (claims c') = 1%nat /\ times t (runs c') = 1%nat.
Proof.
  intros Hw Hr.
  split; [intros t; exact (claimed_and_run_once _ _ _ _ t Hw Hr)|].
  split; [intros i st rest; apply work_step_enabled|].
  split.
  { intros Hstuck. destruct (all_done c) eqn:Hd; [reflexivity|].
    destruct (somebody_has_work _ Hd) as (i & st & rest & Hi).
    destruct (work_step_enabled needs i c st rest Hi) as [c1 Hs].
    rewrite Hstuck in Hs. discriminate. }
  split.
  - pose proof (work_run_steps_left _ _ _ _ Hr) as Hm.
    destruct (CleanupInv_run _ _ _ _ (CleanupInv_start cleanup_workers) Hr)
      as [_ Hn].
    rewrite Hn. unfold do_cleanup_tasks in Hm |- *. cbn [gang] in Hm |- *.
    rewrite steps_left_replicate in Hm. rewrite length_replicate.
    change (steps_in work) with 16%nat in Hm. lia.
  - destruct (work_completes needs _ c (Nat.le_refl _)) as (schedule' & c' & Hr' & Hd).
    exists schedule', c'. split; [exact Hr'|]. split; [exact Hd|].
    intros t.
    assert (Hrun : work_run needs (schedule ++ schedule')
                     (do_cleanup_tasks cleanup_workers) = Some c')
      by (rewrite work_run_app, Hr; exact Hr').
    exact (proj2 (proj2 (claimed_and_run_once _ _ _ _ t Hw Hrun)) Hd).
Qed.

Lemma cleanup_single_claim_witness :
  Some 2%nat <> Some 0%nat
  /\ exists c,
       work_run example_needs example_cleanup_schedule (do_cleanup_tasks (Some 2%nat))
       = Some c
       /\ all_done c = true
       /\ times SAFEPOINT_CLEANUP_CLD_PURGE (claims c) = 1%nat
       /\ times SAFEPOINT_CLEANUP_CLD_PURGE (runs c) = 1%nat.
Proof.
  assert (H : Some 2%nat <> Some 0%nat) by discriminate.
  assert (H3 : exists c,
             work_run example_needs example_cleanup_schedule
               (do_cleanup_tasks (Some 2%nat)) = Some c
             /\ all_done c = true)
    by (vm_compute; eexists; split; reflexivity).
  split; [exact H|].
  destruct H3 as (c & Hr & Hd). exists c. split; [exact Hr|]. split; [exact Hd|].
  exact (proj2 (proj2 (proj1 (cleanup_single_claim example_needs (Some 2%nat)
                                example_cleanup_schedule c H Hr)
                         SAFEPOINT_CLEANUP_CLD_PURGE)) Hd).
Defined.

(** *** Further properties of [block] *)

(** X1.  [block] ends in [fatal("Illegal threadstate encountered")] exactly
    when the calling thread is not terminated and its state is none of the
    five that [block] accepts; when it does, it has only broken the tty
    lock and made the frame anchor walkable: no safepoint id was stored,
    the thread state was not changed, the barrier was not waited on. *)
Theorem block_is_fatal_in_the_other_states vm_exited g thread :
  ((block vm_exited g thread).2 = block_fatal
   <-> is_terminated thread = false /\ ~ may_block (thread_state thread))
  /\ ((block vm_exited g thread).2 = block_fatal ->
      (block vm_exited g thread).1
      = [do_break_tty_lock_for_safepoint; do_make_walkable]).
Proof.
  unfold block, may_block.
  destruct (is_terminated thread), (thread_state thread), vm_exited; cbn;
    (split; [split|]);
    try discriminate; try reflexivity; try tauto;
    try (intros [_ H]; exfalso; apply H; tauto);
    try (intros _; split; [reflexivity|]; intros H; decompose [or] H; discriminate);
    try (intros [H _]; discriminate).
Qed.

(** X2.  A call of [block] by a thread that is not terminated, in one of
    the five accepted states, once the barrier lets it through: the
    [guarantee] on the safepoint id holds, and the call leaves the thread
    in the state it was called in, with the safepoint id reset to
    [InactiveSafepointCounter], the frame anchor walkable, and the
    thread's safe/running flag as it was. *)
Theorem block_restores_the_thread_state vm_exited g thread :
  is_terminated thread = false ->
  may_block (thread_state thread) ->
  exists thread',
    run_block_actions (block vm_exited g thread).1 thread = Some thread'
    /\ (block vm_exited g thread).2 = block_returns
    /\ thread_state thread' = thread_state thread
    /\ get_safepoint_id (safepoint_state thread') = InactiveSafepointCounter
    /\ is_running (safepoint_state thread') = is_running (safepoint_state thread)
    /\ walkable thread' = true.
Proof.
  intros Hterm Hst. unfold block. rewrite Hterm.
  destruct thread as [st tss ? ? ? ? ? ? ? cond ?]. cbn in *.
  destruct Hst as [-> | [-> | [-> | [-> | ->]]]]; cbn;
    try destruct cond; cbn; eexists; repeat split.
Qed.

Lemma block_restores_the_thread_state_witness :
  is_terminated (example_thread _thread_in_Java) = false
  /\ may_block (thread_state (example_thread _thread_in_Java))
  /\ exists thread',
       run_block_actions (block false 1 (example_thread _thread_in_Java)).1
         (example_thread _thread_in_Java) = Some thread'
       /\ (block false 1 (example_thread _thread_in_Java)).2 = block_returns
       /\ thread_state thread' = _thread_in_Java
       /\ get_safepoint_id (safepoint_state thread') = InactiveSafepointCounter
       /\ is_running (safepoint_state thread') = true
       /\ walkable thread' = true.
Proof.
  assert (H1 : is_terminated (example_thread _thread_in_Java) = false)
    by reflexivity.
  assert (H2 : may_block (thread_state (example_thread _thread_in_Java)))
    by (right; left; reflexivity).
  split; [exact H1|]. split; [exact H2|].
  exact (block_restores_the_thread_state false 1 _ H1 H2).
Defined.

(** *** Further properties of the examination of a thread *)

(** What [thread_not_running] does with a thread that is still running. *)
Lemma thread_not_running_cases ss thread :
  is_running (safepoint_state thread) = true ->
  thread_not_running ss thread
  = let sid := get_safepoint_id (safepoint_state thread) in
    let thread1 :=
      with_safepoint_state
        (set_orig_thread_state (thread_state thread) (safepoint_state thread))
        thread in
    if negb (sid =? InactiveSafepointCounter) && negb (sid =? _safepoint_counter ss)
    then (false, (ss, thread))
    else if is_ext_suspended thread then (true, account_safe_thread ss thread1)
    else if safepoint_safe_with thread (thread_state thread)
    then (true, account_safe_thread ss
                  (check_for_lazy_critical_native thread1 (thread_state thread)))
    else (false, (ss, thread1)).
Proof.
  intros Hrun. unfold thread_not_running, examine_state_of_thread,
    try_stable_load_state.
  rewrite Hrun. cbn [negb].
  destruct (negb (get_safepoint_id (safepoint_state thread) =? InactiveSafepointCounter)
            && negb (get_safepoint_id (safepoint_state thread) =? _safepoint_counter ss));
    cbn zeta; [rewrite Hrun; reflexivity|].
  rewrite decide_True by reflexivity.
  destruct thread as [st [poll safe id orig] ? susp frame walk crit lazy unlock ? ?].
  unfold is_running in Hrun. cbn in Hrun. apply negb_true_iff in Hrun. subst safe.
  cbn [is_ext_suspended with_safepoint_state].
  destruct susp; [reflexivity|].
  unfold safepoint_safe_with, check_for_lazy_critical_native, account_safe_thread.
  destruct st; cbn; try reflexivity.
  destruct frame, walk, lazy, unlock; reflexivity.
Qed.

Lemma account_safe_thread_spec ss thread :
  is_running (safepoint_state (account_safe_thread ss thread).2) = false
  /\ thread_state (account_safe_thread ss thread).2 = thread_state thread
  /\ jni_active_critical (account_safe_thread ss thread).2 = jni_active_critical thread
  /\ _waiting_to_block (account_safe_thread ss thread).1 = _waiting_to_block ss - 1
  /\ _current_jni_active_count (account_safe_thread ss thread).1
     = _current_jni_active_count ss + (if in_critical thread then 1 else 0)
  /\ _state (account_safe_thread ss thread).1 = _state ss
  /\ _safepoint_counter (account_safe_thread ss thread).1 = _safepoint_counter ss.
Proof.
  unfold account_safe_thread. destruct (in_critical thread); cbn;
    repeat split; lia.
Qed.

(** X3.  A thread that called [block] with the counter at [g] and has
    reached the wait on the barrier is in [_thread_blocked] with safepoint
    id [g].  The VM thread's [thread_not_running] accounts such a thread
    as safe -- [_waiting_to_block] goes down by one -- when it examines it
    for the safepoint [g] (or when [g] is the inactive value 0); when it
    examines it for another safepoint it leaves the thread running and
    changes nothing ("in an old safepoint, state not relevant"). *)
Theorem thread_at_the_barrier_is_found_safe vm_exited g thread :
  is_terminated thread = false ->
  may_block (thread_state thread) ->
  is_running (safepoint_state thread) = true ->
  exists parked,
    at_the_barrier vm_exited g thread = Some parked
    /\ thread_state parked = _thread_blocked
    /\ get_safepoint_id (safepoint_state parked) = g
    /\ (forall ss,
          _safepoint_counter ss = g \/ g = InactiveSafepointCounter ->
          exists ss' parked',
            thread_not_running ss parked = (true, (ss', parked'))
            /\ is_running (safepoint_state parked') = false
            /\ thread_state parked' = _thread_blocked
            /\ _waiting_to_block ss' = _waiting_to_block ss - 1)
    /\ (forall ss,
          _safepoint_counter ss <> g -> g <> InactiveSafepointCounter ->
          thread_not_running ss parked = (false, (ss, parked))).
Proof.
  intros Hterm Hst Hrun.
  assert (Hp : exists parked,
             at_the_barrier vm_exited g thread = Some parked
             /\ thread_state parked = _thread_blocked
             /\ get_safepoint_id (safepoint_state parked) = g
             /\ is_running (safepoint_state parked) = true).
  { unfold at_the_barrier, block. rewrite Hterm.
    destruct thread as [st tss ? ? ? ? ? ? ? ? ?]. cbn in Hst, Hrun |- *.
    destruct Hst as [-> | [-> | [-> | [-> | ->]]]]; cbn;
      eexists; (split; [reflexivity|]); repeat split; exact Hrun. }
  destruct Hp as (parked & Hat & Hbl & Hid & Hrun').
  exists parked. split; [exact Hat|]. split; [exact Hbl|]. split; [exact Hid|].
  split.
  - intros ss Hg. rewrite thread_not_running_cases by exact Hrun'. cbn zeta.
    rewrite Hid, Hbl.
    assert (Hc : negb (g =? InactiveSafepointCounter)
                 && negb (g =? _safepoint_counter ss) = false).
    { destruct Hg as [-> | ->]; [rewrite Z.eqb_refl, andb_false_r|]; reflexivity. }
    rewrite Hc.
    destruct (is_ext_suspended parked); cbn [safepoint_safe_with];
      match goal with
      | |- context [account_safe_thread ss ?t] =>
          destruct (account_safe_thread_spec ss t) as (H1 & H2 & _ & H4 & _);
          exists (account_safe_thread ss t).1, (account_safe_thread ss t).2
      end;
      (split; [rewrite <- surjective_pairing; reflexivity|]);
      (split; [exact H1|]); (split; [|exact H4]); rewrite H2; [exact Hbl|].
    unfold check_for_lazy_critical_native. cbn. exact Hbl.
  - intros ss H1 H2. rewrite thread_not_running_cases by exact Hrun'. cbn zeta.
    rewrite Hid.
    replace (negb (g =? InactiveSafepointCounter)
             && negb (g =? _safepoint_counter ss)) with true; [reflexivity|].
    symmetry. apply andb_true_intro.
    split; apply negb_true_iff, Z.eqb_neq; congruence.
Qed.

Lemma thread_at_the_barrier_is_found_safe_witness :
  is_terminated (example_thread _thread_in_Java) = false
  /\ may_block (thread_state (example_thread _thread_in_Java))
  /\ is_running (safepoint_state (example_thread _thread_in_Java)) = true
  /\ exists parked,
       at_the_barrier false 1 (example_thread _thread_in_Java) = Some parked
       /\ thread_state parked = _thread_blocked
       /\ get_safepoint_id (safepoint_state parked) = 1.
Proof.
  assert (H1 : is_terminated (example_thread _thread_in_Java) = false)
    by reflexivity.
  assert (H2 : may_block (thread_state (example_thread _thread_in_Java)))
    by (right; left; reflexivity).
  assert (H3 : is_running (safepoint_state (example_thread _thread_in_Java)) = true)
    by reflexivity.
  split; [exact H1|]. split; [exact H2|]. split; [exact H3|].
  destruct (thread_at_the_barrier_is_found_safe false 1 _ H1 H2 H3)
    as (parked & Ha & Hb & Hc & _).
  exists parked. auto.
Defined.

(** X4.  [check_for_lazy_critical_native] updates the critical state of a
    thread only on the first safepoint that finds it inside a lazy critical
    native: a second check changes nothing.  The check raises the thread's
    critical count by at most one, and when it does it sets the flag that
    makes the native wrapper unlock on return; a thread that already has
    the flag is left as it is. *)
Theorem lazy_critical_native_is_entered_once thread state :
  check_for_lazy_critical_native (check_for_lazy_critical_native thread state) state
  = check_for_lazy_critical_native thread state
  /\ (check_for_lazy_critical_native thread state = thread
      \/ (jni_active_critical (check_for_lazy_critical_native thread state)
          = jni_active_critical thread + 1
          /\ do_critical_native_unlock (check_for_lazy_critical_native thread state)
             = true
          /\ state = _thread_in_native
          /\ in_lazy_critical_native thread = true))
  /\ (do_critical_native_unlock thread = true ->
      check_for_lazy_critical_native thread state = thread).
Proof.
  unfold check_for_lazy_critical_native.
  destruct thread as [? ? ? ? frame walk ? lazy unlock ? ?]. cbn.
  destruct (bool_decide (state = _thread_in_native)) eqn:Hs;
    [apply bool_decide_eq_true in Hs|];
    destruct frame, walk, lazy, unlock; cbn; rewrite ?Hs; cbn;
    repeat split; auto; try discriminate.
  all: right; repeat split; exact Hs.
Qed.

(** X5.  For a thread that is neither externally suspended nor terminated:
    [handshake_safe] holds exactly when the thread's safepoint id is the
    inactive value and its state is safepoint safe (blocked, or in native
    code with no Java frame or a walkable stack) -- so a thread that sits
    in [block] with the id of a safepoint is not handshake safe -- and a
    running thread that is handshake safe is accounted as safe by
    [thread_not_running] in whatever safepoint it is examined. *)
Theorem handshake_safe_thread_is_safepoint_safe thread :
  is_terminated thread = false ->
  is_ext_suspended thread = false ->
  (handshake_safe thread = true
   <-> get_safepoint_id (safepoint_state thread) = InactiveSafepointCounter
       /\ safepoint_safe_with thread (thread_state thread) = true)
  /\ (handshake_safe thread = true ->
      is_running (safepoint_state thread) = true ->
      forall ss,
        (thread_not_running ss thread).1 = true
        /\ is_running (safepoint_state (thread_not_running ss thread).2.2) = false
        /\ _waiting_to_block (thread_not_running ss thread).2.1
           = _waiting_to_block ss - 1).
Proof.
  intros Hterm Hsusp.
  assert (Hiff : handshake_safe thread = true
                 <-> get_safepoint_id (safepoint_state thread)
                     = InactiveSafepointCounter
                     /\ safepoint_safe_with thread (thread_state thread) = true).
  { unfold handshake_safe, try_stable_load_state. rewrite Hterm, Hsusp. cbn [orb].
    destruct (get_safepoint_id (safepoint_state thread) =? InactiveSafepointCounter)
      eqn:Hid; cbn [negb andb].
    - apply Z.eqb_eq in Hid. rewrite decide_True by reflexivity. tauto.
    - apply Z.eqb_neq in Hid. split; [discriminate|]. intros [H _]. contradiction. }
  split; [exact Hiff|].
  intros Hh Hrun ss. apply Hiff in Hh as [Hid Hsafe].
  rewrite thread_not_running_cases by exact Hrun. cbn zeta.
  rewrite Hid, Hsusp, Hsafe. cbn [Z.eqb InactiveSafepointCounter negb andb].
  match goal with
  | |- context [account_safe_thread ss ?t] =>
      destruct (account_safe_thread_spec ss t) as (H1 & _ & _ & H4 & _)
  end.
  cbn [fst snd]. auto.
Qed.

Lemma handshake_safe_thread_is_safepoint_safe_witness :
  is_terminated (example_thread _thread_blocked) = false
  /\ is_ext_suspended (example_thread _thread_blocked) = false
  /\ handshake_safe (example_thread _thread_blocked) = true
  /\ (thread_not_running example_synchronizing (example_thread _thread_blocked)).1
     = true.
Proof.
  assert (H1 : is_terminated (example_thread _thread_blocked) = false)
    by reflexivity.
  assert (H2 : is_ext_suspended (example_thread _thread_blocked) = false)
    by reflexivity.
  assert (H3 : handshake_safe (example_thread _thread_blocked) = true)
    by reflexivity.
  split; [exact H1|]. split; [exact H2|]. split; [exact H3|].
  exact (proj1 (proj2 (handshake_safe_thread_is_safepoint_safe _ H1 H2)
                  H3 eq_refl example_synchronizing)).
Defined.

(** *** What [synchronize_threads] has done when it returns *)

Lemma thread_not_running_step ss thread :
  is_running (safepoint_state thread) = true ->
  exists b ss1 t1,
    thread_not_running ss thread = (b, (ss1, t1))
    /\ is_running (safepoint_state t1) = negb b
    /\ _waiting_to_block ss1 = _waiting_to_block ss - (if b then 1 else 0)
    /\ _current_jni_active_count ss1
       = _current_jni_active_count ss + (if safe_in_critical t1 then 1 else 0)
    /\ _state ss1 = _state ss
    /\ _safepoint_counter ss1 = _safepoint_counter ss.
Proof.
  intros Hrun. rewrite thread_not_running_cases by exact Hrun. cbn zeta.
  assert (Hacc : forall t,
            exists b ss1 t1,
              (true, account_safe_thread ss t) = (b, (ss1, t1))
              /\ is_running (safepoint_state t1) = negb b
              /\ _waiting_to_block ss1 = _waiting_to_block ss - (if b then 1 else 0)
              /\ _current_jni_active_count ss1
                 = _current_jni_active_count ss
                   + (if safe_in_critical t1 then 1 else 0)
              /\ _state ss1 = _state ss
              /\ _safepoint_counter ss1 = _safepoint_counter ss).
  { intros t. exists true, (account_safe_thread ss t).1, (account_safe_thread ss t).2.
    destruct (account_safe_thread_spec ss t) as (H1 & _ & H3 & H4 & H5 & H6 & H7).
    split; [rewrite <- surjective_pairing; reflexivity|].
    split; [exact H1|]. split; [exact H4|]. split; [|split; assumption].
    rewrite H5. unfold safe_in_critical, is_safe, in_critical. rewrite H1, H3.
    reflexivity. }
  assert (Hno : forall t, is_running (safepoint_state t) = true ->
            exists b ss1 t1,
              (false, (ss, t)) = (b, (ss1, t1))
              /\ is_running (safepoint_state t1) = negb b
              /\ _waiting_to_block ss1 = _waiting_to_block ss - (if b then 1 else 0)
              /\ _current_jni_active_count ss1
                 = _current_jni_active_count ss
                   + (if safe_in_critical t1 then 1 else 0)
              /\ _state ss1 = _state ss
              /\ _safepoint_counter ss1 = _safepoint_counter ss).
  { intros t Ht. exists false, ss, t. split; [reflexivity|]. split; [exact Ht|].
    unfold safe_in_critical, is_safe. rewrite Ht. cbn. repeat split; lia. }
  destruct (negb _ && negb _); [apply Hno; exact Hrun|].
  destruct (is_ext_suspended thread); [apply Hacc|].
  destruct (safepoint_safe_with thread (thread_state thread)); [apply Hacc|].
  apply Hno. exact Hrun.
Qed.

Lemma number_of_insert {A : Type} (p : A -> bool) l : forall i x y,
  l !! i = Some y ->
  number_of p (<[i := x]> l)
  = number_of p l - (if p y then 1 else 0) + (if p x then 1 else 0).
Proof.
  induction l as [|a l IH]; intros i x y Hy; [destruct i; discriminate|].
  destruct i as [|i].
  - cbn in Hy. injection Hy as ->. cbn. lia.
  - cbn in Hy. change (<[S i := x]> (a :: l)) with (a :: <[i := x]> l).
    cbn [number_of]. rewrite (IH i x y Hy). lia.
Qed.

Lemma number_of_same {A : Type} (p : A -> bool) l l' :
  Forall2 (fun a b => p b = p a) l l' -> number_of p l' = number_of p l.
Proof. induction 1 as [|a b l l' Hab _ IH]; cbn; [reflexivity|]. rewrite Hab, IH. reflexivity. Qed.

Lemma number_of_ext {A : Type} (p q : A -> bool) l :
  Forall (fun a => p a = q a) l -> number_of p l = number_of q l.
Proof. induction 1 as [|a l Ha _ IH]; cbn; [reflexivity|]. rewrite Ha, IH. reflexivity. Qed.

(** One walk over a list of running threads: the threads it drops from the
    list are the ones it has accounted as safe. *)
Lemma walk_spec tss : forall ss threads still,
  NoDup tss ->
  (forall i, i ∈ tss ->
     exists t, threads !! i = Some t /\ is_running (safepoint_state t) = true) ->
  exists tss' ss' threads' still',
    walk tss ss threads still = (tss', ss', threads', still')
    /\ length threads' = length threads
    /\ (forall i, i ∉ tss -> threads' !! i = threads !! i)
    /\ NoDup tss'
    /\ (forall i, i ∈ tss' -> i ∈ tss)
    /\ (forall i, i ∈ tss' ->
          exists t, threads' !! i = Some t /\ is_running (safepoint_state t) = true)
    /\ (forall i, i ∈ tss -> i ∉ tss' ->
          exists t, threads' !! i = Some t /\ is_safe t = true)
    /\ still' = still - (Z.of_nat (length tss) - Z.of_nat (length tss'))
    /\ _waiting_to_block ss'
       = _waiting_to_block ss - (Z.of_nat (length tss) - Z.of_nat (length tss'))
    /\ _current_jni_active_count ss'
       = _current_jni_active_count ss
         + (number_of safe_in_critical threads' - number_of safe_in_critical threads)
    /\ _state ss' = _state ss
    /\ _safepoint_counter ss' = _safepoint_counter ss.
Proof.
  induction tss as [|cur rest IH]; intros ss threads still Hnd Hall.
  - exists [], ss, threads, still. cbn.
    repeat split; try lia; auto using NoDup_nil_2;
      intros i Hi; try (intros _); inversion Hi.
  - apply NoDup_cons in Hnd as [Hcur Hnd].
    destruct (Hall cur ltac:(left)) as (thread & Hth & Hrun).
    destruct (thread_not_running_step ss thread Hrun)
      as (b & ss1 & t1 & Hnr & Hr1 & Hw1 & Hj1 & Hs1 & Hc1).
    assert (Hlt : (cur < length threads)%nat)
      by (apply lookup_lt_Some in Hth; exact Hth).
    set (threads1 := <[cur := t1]> threads).
    assert (Hall1 : forall i, i ∈ rest ->
              exists t, threads1 !! i = Some t
                        /\ is_running (safepoint_state t) = true).
    { intros i Hi. unfold threads1.
      rewrite list_lookup_insert_ne by (intros ->; contradiction).
      apply Hall. right. exact Hi. }
    destruct (IH ss1 threads1 (if b then still - 1 else still) Hnd Hall1)
      as (tss' & ss' & threads' & still' & Hw & Hlen & Hout & Hnd' & Hsub
          & Hrun' & Hsafe' & Hstill & Hwait & Hjni & Hst & Hcnt).
    assert (Hcur' : threads' !! cur = Some t1).
    { rewrite Hout by exact Hcur. unfold threads1.
      apply list_lookup_insert_eq. exact Hlt. }
    assert (Hnum : number_of safe_in_critical threads1
                   = number_of safe_in_critical threads
                     + (if safe_in_critical t1 then 1 else 0)).
    { unfold threads1. rewrite (number_of_insert _ _ _ _ _ Hth).
      replace (safe_in_critical thread) with false; [lia|].
      unfold safe_in_critical, is_safe. rewrite Hrun. reflexivity. }
    assert (Hlen1 : length threads1 = length threads)
      by apply length_insert.
    assert (Hout1 : forall i, i ∉ cur :: rest -> threads' !! i = threads !! i).
    { intros i Hi. apply not_elem_of_cons in Hi as [Hne Hi].
      rewrite Hout by exact Hi. unfold threads1.
      apply list_lookup_insert_ne. congruence. }
    cbn [walk]. rewrite Hth, Hnr. fold threads1.
    destruct b.
    + rewrite Hw. exists tss', ss', threads', still'.
      split; [reflexivity|]. split; [congruence|]. split; [exact Hout1|].
      split; [exact Hnd'|]. split; [intros i Hi; right; auto|].
      split; [exact Hrun'|]. split.
      * intros i Hi Hni. apply elem_of_cons in Hi as [->|Hi]; [|auto].
        exists t1. split; [exact Hcur'|]. unfold is_safe. rewrite Hr1. reflexivity.
      * cbn [length]. repeat split; try congruence; lia.
    + destruct (walk rest ss1 threads1 still) as [[[a1 a2] a3] a4] eqn:Hwalk.
      injection Hw as -> -> -> ->.
      exists (cur :: tss'), ss', threads', still'.
      split; [reflexivity|]. split; [congruence|]. split; [exact Hout1|].
      split; [constructor; [intros Hin; apply Hcur, Hsub, Hin | exact Hnd']|].
      split; [intros i Hi; apply elem_of_cons in Hi as [->|Hi];
              [left | right; auto]|].
      split.
      * intros i Hi. apply elem_of_cons in Hi as [->|Hi]; [|auto].
        exists t1. split; [exact Hcur' | exact Hr1].
      * split.
        -- intros i Hi Hni. apply not_elem_of_cons in Hni as [Hne Hni].
           apply elem_of_cons in Hi as [->|Hi]; [congruence|auto].
        -- cbn [length]. repeat split; try congruence; lia.
Qed.

Lemma apply_move_same_account threads m :
  Forall2 same_account threads (apply_move threads m).
Proof.
  unfold apply_move. apply Forall2_alter_r.
  - apply Forall_Forall2_diag, Forall_forall. intros t _. split; reflexivity.
  - intros x y _ _ [H1 H2]. split; [exact H1 | exact H2].
Qed.

Lemma moves_same_account ms : forall threads,
  Forall2 same_account threads (foldl apply_move threads ms).
Proof.
  induction ms as [|m ms IH]; intros threads; cbn.
  - apply Forall_Forall2_diag, Forall_forall. intros t _. split; reflexivity.
  - eapply Forall2_trans; [|apply apply_move_same_account|apply IH].
    intros x y z [H1 H2] [H3 H4]. split; congruence.
Qed.

Lemma safe_in_critical_same_account t t' :
  same_account t t' -> safe_in_critical t' = safe_in_critical t.
Proof.
  intros [H1 H2]. unfold safe_in_critical, is_safe, in_critical.
  rewrite H1, H2. reflexivity.
Qed.

(** The spin loop, started on the list of the threads still running. *)
Lemma spin_spec ticks :
  forall f pa limit start tss ss threads still iters initial evs r,
  NoDup tss ->
  (forall i, i ∈ tss ->
     exists t, threads !! i = Some t /\ is_running (safepoint_state t) = true) ->
  (forall i t, threads !! i = Some t -> i ∉ tss -> is_safe t = true) ->
  still = Z.of_nat (length tss) ->
  spin f pa limit start ticks tss ss threads still iters initial evs = Done r ->
  Forall (fun t => is_safe t = true) (sync_threads r)
  /\ length (sync_threads r) = length threads
  /\ _waiting_to_block (sync_statics r)
     = _waiting_to_block ss - Z.of_nat (length tss)
  /\ _current_jni_active_count (sync_statics r)
     = _current_jni_active_count ss
       + (number_of safe_in_critical (sync_threads r)
          - number_of safe_in_critical threads)
  /\ _state (sync_statics r) = _state ss
  /\ _safepoint_counter (sync_statics r) = _safepoint_counter ss.
Proof.
  induction ticks as [|tick ticks IH];
    intros f pa limit start tss ss threads still iters initial evs r
      Hnd Hrun Hsafe Hstill Hs; [discriminate|].
  cbn [spin] in Hs.
  destruct (if SafepointTimeout f && (limit <? now_at_limit_check tick)
            then print_safepoint_timeout f else Done tt); try discriminate.
  destruct ((iters =? -1) && pa); [discriminate|].
  set (threads_m := foldl apply_move threads (moved tick)) in *.
  assert (Hm : Forall2 same_account threads threads_m)
    by apply moves_same_account.
  assert (Hrun_m : forall i, i ∈ tss ->
            exists t, threads_m !! i = Some t
                      /\ is_running (safepoint_state t) = true).
  { intros i Hi. destruct (Hrun i Hi) as (t & Ht & Hr).
    destruct (Forall2_lookup_l _ _ _ _ _ Hm Ht) as (t' & Ht' & [H1 _]).
    exists t'. split; [exact Ht' | congruence]. }
  destruct (walk_spec tss ss threads_m still Hnd Hrun_m)
    as (tss' & ss' & threads' & still' & Hw & Hlen & Hout & Hnd' & Hsub
        & Hrun' & Hsafe' & Hstill' & Hwait & Hjni & Hst & Hcnt).
  rewrite Hw in Hs.
  assert (Hothers : forall i t, threads' !! i = Some t -> i ∉ tss ->
            is_safe t = true).
  { intros i t Ht Hi. rewrite Hout in Ht by exact Hi.
    destruct (Forall2_lookup_r _ _ _ _ _ Hm Ht) as (t0 & Ht0 & [H1 _]).
    specialize (Hsafe i t0 Ht0 Hi). unfold is_safe in *. congruence. }
  assert (Hnum : number_of safe_in_critical threads_m
                 = number_of safe_in_critical threads).
  { apply number_of_same. eapply Forall2_impl; [exact Hm|].
    intros x y Hxy. apply safe_in_critical_same_account. exact Hxy. }
  assert (Hlen_m : length threads_m = length threads)
    by (symmetry; eapply Forall2_length; exact Hm).
  assert (Hle : (length tss' <= length tss)%nat).
  { apply NoDup_submseteq in Hsub; [|exact Hnd'].
    apply submseteq_length. exact Hsub. }
  destruct (0 <? still') eqn:Hpos.
  - assert (Hsafe2 : forall i t, threads' !! i = Some t -> i ∉ tss' ->
              is_safe t = true).
    { intros i t Ht Hi. destruct (decide (i ∈ tss)) as [Hin|Hnin];
        [|eapply Hothers; eassumption].
      destruct (Hsafe' i Hin Hi) as (t' & Ht' & Hs'). congruence. }
    assert (Hstill2 : still' = Z.of_nat (length tss')) by lia.
    destruct (IH _ _ _ _ _ _ _ _ _ _ _ _ Hnd' Hrun' Hsafe2 Hstill2 Hs)
      as (H1 & H2 & H3 & H4 & H5 & H6).
    split; [exact H1|]. split; [congruence|].
    split; [lia|]. split; [lia|]. split; congruence.
  - apply Z.ltb_ge in Hpos. injection Hs as <-. cbn.
    assert (Hnil : tss' = []) by (destruct tss'; [reflexivity|cbn in *; lia]).
    subst tss'. cbn [length] in *.
    split; [|split; [congruence|split; [lia|split; [lia|split; congruence]]]].
    apply Forall_lookup. intros i t Ht.
    destruct (decide (i ∈ tss)) as [Hin|Hnin]; [|eapply Hothers; eassumption].
    destruct (Hsafe' i Hin (not_elem_of_nil i)) as (t' & Ht' & Hs').
    congruence.
Qed.

Lemma number_of_none {A : Type} (p : A -> bool) l :
  Forall (fun a => p a = false) l -> number_of p l = 0.
Proof. induction 1 as [|a l Ha _ IH]; cbn; [reflexivity|]. rewrite Ha, IH. reflexivity. Qed.

Lemma synchronize_threads_spec f pa limit start ticks ss threads r :
  Forall (fun t => is_running (safepoint_state t) = true) threads ->
  synchronize_threads f pa limit (Z.of_nat (length threads)) start ticks ss threads
  = Done r ->
  Forall (fun t => is_safe t = true) (sync_threads r)
  /\ length (sync_threads r) = length threads
  /\ _waiting_to_block (sync_statics r)
     = _waiting_to_block ss - Z.of_nat (length threads)
  /\ _current_jni_active_count (sync_statics r)
     = _current_jni_active_count ss + number_of in_critical (sync_threads r)
  /\ _state (sync_statics r) = _state ss
  /\ _safepoint_counter (sync_statics r) = _safepoint_counter ss.
Proof.
  intros Hall Hs. unfold synchronize_threads in Hs.
  assert (Hrun : forall i, i ∈ seq 0 (length threads) ->
            exists t, threads !! i = Some t
                      /\ is_running (safepoint_state t) = true).
  { intros i Hi. apply elem_of_seq in Hi as [_ Hi].
    destruct (lookup_lt_is_Some_2 threads i ltac:(lia)) as [t Ht].
    exists t. split; [exact Ht|]. rewrite Forall_lookup in Hall. eauto. }
  destruct (walk_spec (seq 0 (length threads)) ss threads
              (Z.of_nat (length threads)) (NoDup_seq _ _) Hrun)
    as (tss' & ss' & threads' & still' & Hw & Hlen & Hout & Hnd' & Hsub
        & Hrun' & Hsafe' & Hstill' & Hwait & Hjni & Hst & Hcnt).
  rewrite Hw in Hs. rewrite length_seq in *.
  assert (H0 : number_of safe_in_critical threads = 0).
  { apply number_of_none. eapply Forall_impl; [exact Hall|].
    intros t Ht. unfold safe_in_critical, is_safe. rewrite Ht. reflexivity. }
  assert (Hothers : forall i t, threads' !! i = Some t -> i ∉ tss' ->
            is_safe t = true).
  { intros i t Ht Hi.
    assert (Hin : i ∈ seq 0 (length threads)).
    { apply elem_of_seq. apply lookup_lt_Some in Ht. lia. }
    destruct (Hsafe' i Hin Hi) as (t' & Ht' & Hs'). congruence. }
  assert (Hfin : forall l : list JavaThread,
            Forall (fun t => is_safe t = true) l ->
            number_of safe_in_critical l = number_of in_critical l).
  { intros l Hl. apply number_of_ext. eapply Forall_impl; [exact Hl|].
    intros t Ht. unfold safe_in_critical. rewrite Ht. reflexivity. }
  destruct (still' <=? 0) eqn:Hle.
  - apply Z.leb_le in Hle. injection Hs as <-. cbn.
    assert (Hnil : tss' = []) by (destruct tss'; [reflexivity|cbn in *; lia]).
    subst tss'. cbn [length] in *.
    assert (Hsafe_all : Forall (fun t => is_safe t = true) threads').
    { apply Forall_lookup. intros i t Ht.
      exact (Hothers i t Ht (not_elem_of_nil i)). }
    split; [exact Hsafe_all|]. split; [exact Hlen|]. split; [lia|].
    split; [rewrite <- Hfin by exact Hsafe_all; lia|]. split; assumption.
  - apply Z.leb_gt in Hle.
    assert (Hstill2 : still' = Z.of_nat (length tss')) by lia.
    destruct (spin_spec _ _ _ _ _ _ _ _ _ _ _ _ _ Hnd' Hrun' Hothers Hstill2 Hs)
      as (H1 & H2 & H3 & H4 & H5 & H6).
    split; [exact H1|]. split; [congruence|]. split; [lia|].
    split; [rewrite <- Hfin by exact H1; lia|]. split; congruence.
Qed.

(** X6.  On entry every thread is running and [begin] has set
    [_waiting_to_block] to the number of threads.  When
    [synchronize_threads] returns, whatever the threads did in between and
    however many passes it took, no thread is running any more (each has
    been accounted as safe) and [_waiting_to_block] is 0 -- what [begin]
    asserts after the call. *)
Theorem synchronize_threads_leaves_no_thread_running
    f pa limit start ticks ss threads r :
  Forall (fun t => is_running (safepoint_state t) = true) threads ->
  _waiting_to_block ss = Z.of_nat (length threads) ->
  synchronize_threads f pa limit (Z.of_nat (length threads)) start ticks ss threads
  = Done r ->
  Forall (fun t => is_running (safepoint_state t) = false) (sync_threads r)
  /\ length (sync_threads r) = length threads
  /\ _waiting_to_block (sync_statics r) = 0
  /\ _state (sync_statics r) = _state ss
  /\ _safepoint_counter (sync_statics r) = _safepoint_counter ss.
Proof.
  intros Hall Hw Hs.
  destruct (synchronize_threads_spec _ _ _ _ _ _ _ _ Hall Hs)
    as (H1 & H2 & H3 & _ & H5 & H6).
  split; [|split; [exact H2|split; [lia|split; assumption]]].
  eapply Forall_impl; [exact H1|]. intros t Ht. unfold is_safe in Ht.
  apply negb_true_iff. exact Ht.
Qed.

Lemma synchronize_threads_leaves_no_thread_running_witness :
  Forall (fun t => is_running (safepoint_state t) = true) example_threads
  /\ _waiting_to_block example_synchronizing_three
     = Z.of_nat (length example_threads)
  /\ exists r,
       example_outcome_three = Done r
       /\ Forall (fun t => is_running (safepoint_state t) = false) (sync_threads r)
       /\ _waiting_to_block (sync_statics r) = 0.
Proof.
  assert (H1 : Forall (fun t => is_running (safepoint_state t) = true)
                 example_threads) by (repeat constructor).
  assert (H2 : _waiting_to_block example_synchronizing_three
               = Z.of_nat (length example_threads)) by reflexivity.
  assert (H3 : exists r, example_outcome_three = Done r)
    by (vm_compute; eexists; reflexivity).
  split; [exact H1|]. split; [exact H2|].
  destruct H3 as [r Hr]. exists r. split; [exact Hr|].
  destruct (synchronize_threads_leaves_no_thread_running
              example_flags false 0 7000000 example_ticks_for_three
              example_synchronizing_three example_threads r H1 H2 Hr)
    as (Ha & _ & Hb & _).
  split; [exact Ha | exact Hb].
Defined.

(** X7.  [begin] resets [_current_jni_active_count] to 0 before the
    synchronization; when [synchronize_threads] returns, the count is the
    number of threads that are inside a JNI critical region (threads found
    inside a lazy critical native included, each entered once by
    [check_for_lazy_critical_native]) -- the value [begin] then hands to
    [GCLocker::set_jni_lock_count]. *)
Theorem synchronize_threads_counts_the_critical_threads
    f pa limit start ticks ss threads r :
  Forall (fun t => is_running (safepoint_state t) = true) threads ->
  _current_jni_active_count ss = 0 ->
  synchronize_threads f pa limit (Z.of_nat (length threads)) start ticks ss threads
  = Done r ->
  _current_jni_active_count (sync_statics r)
  = number_of in_critical (sync_threads r).
Proof.
  intros Hall Hj Hs.
  destruct (synchronize_threads_spec _ _ _ _ _ _ _ _ Hall Hs)
    as (_ & _ & _ & H4 & _).
  lia.
Qed.

Lemma synchronize_threads_counts_the_critical_threads_witness :
  Forall (fun t => is_running (safepoint_state t) = true) example_threads
  /\ _current_jni_active_count example_synchronizing_three = 0
  /\ exists r,
       example_outcome_three = Done r
       /\ _current_jni_active_count (sync_statics r) = 1.
Proof.
  assert (H1 : Forall (fun t => is_running (safepoint_state t) = true)
                 example_threads) by (repeat constructor).
  assert (H2 : _current_jni_active_count example_synchronizing_three = 0)
    by reflexivity.
  assert (H3 : exists r, example_outcome_three = Done r
                         /\ number_of in_critical (sync_threads r) = 1)
    by (vm_compute; eexists; split; reflexivity).
  split; [exact H1|]. split; [exact H2|].
  destruct H3 as (r & Hr & Hn). exists r. split; [exact Hr|].
  rewrite <- Hn.
  exact (synchronize_threads_counts_the_critical_threads
           example_flags false 0 7000000 example_ticks_for_three
           example_synchronizing_three example_threads r H1 H2 Hr).
Defined.

(** *** The whole system while a safepoint is in progress *)

Lemma number_of_all {A : Type} (p : A -> bool) l :
  Forall (fun a => p a = true) l -> number_of p l = Z.of_nat (length l).
Proof.
  induction 1 as [|a l Ha _ IH]; [reflexivity|].
  cbn [number_of length]. rewrite Ha, IH. lia.
Qed.

Lemma number_of_fmap {A : Type} (p : A -> bool) (g : A -> A) l :
  (forall a, p (g a) = p a) -> number_of p (g <$> l) = number_of p l.
Proof.
  intros Hg. induction l as [|a l IH]; [reflexivity|].
  cbn. rewrite Hg, IH. reflexivity.
Qed.

Lemma plan_cons f a rest v :
  plan f (a :: rest) v = true ->
  good v = true
  /\ exists v', facts_after a v = Some v' /\ plan f rest v' = true.
Proof.
  cbn. intros H. apply andb_prop in H as [Hg H]. split; [exact Hg|].
  apply andb_prop in H as [_ H].
  destruct (facts_after a v) as [v'|]; [eauto | discriminate].
Qed.

Lemma plan_at_synchronize f rest v :
  plan f (call_synchronize_threads :: rest) v = true ->
  page_armed v = uses_global_page_poll f.
Proof.
  cbn. intros H. apply andb_prop in H as [_ H]. apply andb_prop in H as [H _].
  apply bool_decide_eq_true in H. exact H.
Qed.

Lemma plan_good f todo v : plan f todo v = true -> good v = true.
Proof. destruct todo; cbn; intros H; apply andb_prop in H as [Hg _]; exact Hg. Qed.

Lemma plan_begin f v :
  plan f [] v = true -> lock_held v = false ->
  plan f (SafepointSynchronize_begin f) v = true.
Proof.
  destruct v as [l p st t r], f as [? ? lp gp]; cbn [lock_held].
  intros H ->. destruct p, st, t, r; try discriminate H; destruct lp, gp; reflexivity.
Qed.

Lemma plan_end f v :
  plan f [] v = true -> lock_held v = true ->
  plan f (SafepointSynchronize_end f) v = true.
Proof.
  destruct v as [l p st t r], f as [? ? lp gp]; cbn [lock_held].
  intros H ->. destruct p, st, t, r, gp; try discriminate H; destruct lp; reflexivity.
Qed.

Lemma counts_threads_after a v v' :
  facts_after a v = Some v' -> counts_threads v = true -> counts_threads v' = true.
Proof.
  destruct v as [l p st t r].
  destruct a; cbn; intros H; repeat case_match; simplify_eq; cbn; auto;
    try discriminate.
Qed.


Lemma running_on_thread g wk :
  (forall t, is_running (safepoint_state (g t)) = is_running (safepoint_state t)) ->
  running (on_thread g wk) = running wk.
Proof. intros Hg. unfold running, on_thread. cbn. apply Hg. Qed.

Lemma threads_hold_fmap g r w :
  (forall t, is_running (safepoint_state (g t)) = is_running (safepoint_state t)) ->
  threads_hold r w ->
  threads_hold r (with_Threads (on_thread g <$> Threads w) w).
Proof.
  intros Hg. pose proof (running_on_thread g) as Hr.
  assert (HF : forall b, Forall (fun wk => running wk = b) (Threads w) ->
                 Forall (fun wk => running wk = b) (on_thread g <$> Threads w)).
  { intros b H. rewrite Forall_fmap. eapply Forall_impl; [exact H|].
    intros wk. cbn. rewrite Hr by exact Hg. tauto. }
  destruct r; cbn; auto.
  - intros ->. symmetry. apply number_of_fmap. intros wk. apply Hr, Hg.
  - intros [H ?]. auto.
Qed.

Lemma threads_hold_statics r ss w :
  _waiting_to_block ss = _waiting_to_block (statics w) ->
  threads_hold r w -> threads_hold r (with_statics ss w).
Proof. intros H. destruct r; cbn; rewrite ?H; tauto. Qed.

Lemma forallb_not_running l :
  forallb (fun wk => negb (is_running (safepoint_state (java_thread wk)))) l = true ->
  Forall (fun wk => running wk = false) l.
Proof.
  induction l as [|wk l IH]; cbn; intros H; [constructor|].
  apply andb_prop in H as [H1 H2].
  constructor; [apply negb_true_iff, H1 | auto].
Qed.

(** The facts follow the VM thread's actions. *)
Lemma describes_run_vm_action a v v' w w' :
  describes v w ->
  facts_after a v = Some v' ->
  run_vm_action a w = Some w' ->
  describes v' w'.
Proof.
  intros (Hl & Hp & Hs & Ht & Hth) Hf Hr.
  destruct a; cbn in Hf, Hr.
  all: destruct v as [l p st t r]; cbn in Hl, Hp, Hs, Ht, Hth, Hf.
  all: repeat case_match; simplify_eq.
  all: (split; [|split; [|split; [|split]]]); cbn;
    try reflexivity; try assumption; try congruence.
  all: try (destruct t; cbn in Ht |- *; unfold counter in *; cbn; auto; fail).
  all: try (destruct r; cbn in Hth |- *; auto; fail).
  - symmetry. apply number_of_all. exact Hth.
  - apply threads_hold_fmap; [reflexivity | exact Hth].
  - apply forallb_not_running. assumption.
  - assert (Hno : Forall (fun wk => running wk = false) (Threads w'))
      by (apply forallb_not_running; assumption).
    split; [exact Hno|]. rewrite Hth. apply number_of_none. exact Hno.
  - rewrite Forall_fmap. apply Forall_forall. intros wk _. reflexivity.
Qed.

Lemma describes_with_vm_thread l v w :
  describes v w -> describes v (with_vm_thread l w).
Proof. intros H. exact H. Qed.


(** A worker's own steps leave its safe/running flag alone, hence the facts. *)
Lemma describes_insert i wk wk' v w :
  Threads w !! i = Some wk ->
  running wk' = running wk ->
  describes v w ->
  describes v (with_Threads (<[i := wk']> (Threads w)) w).
Proof.
  intros Hi Hr (Hl & Hp & Hs & Ht & Hth).
  split; [exact Hl|]. split; [exact Hp|]. split; [exact Hs|].
  split; [destruct (tag_is v); exact Ht|].
  assert (HF : forall b, Forall (fun wk => running wk = b) (Threads w) ->
                 Forall (fun wk => running wk = b) (<[i := wk']> (Threads w))).
  { intros b H. apply Forall_insert; [exact H|].
    rewrite Hr. exact (proj1 (Forall_lookup _ _) H i wk Hi). }
  destruct (threads_are v); cbn in Hth |- *; auto.
  - rewrite (number_of_insert running _ i wk' wk Hi), Hr, Hth. lia.
  - destruct Hth. auto.
Qed.

Lemma run_block_action_is_running a thread thread' :
  run_block_action a thread = Some thread' ->
  is_running (safepoint_state thread') = is_running (safepoint_state thread).
Proof.
  destruct a; cbn; intros H; repeat case_match; simplify_eq; reflexivity.
Qed.

(** [thread_not_running] keeps [_waiting_to_block] the number of the
    running threads. *)
Lemma describes_examine i wk v w :
  Threads w !! i = Some wk ->
  (threads_are v = threads_counted \/ threads_are v = threads_any) ->
  describes v w ->
  describes v
    (with_statics (thread_not_running (statics w) (java_thread wk)).2.1
       (with_Threads
          (<[i := {| java_thread := (thread_not_running (statics w) (java_thread wk)).2.2;
                     in_block := in_block wk |}]> (Threads w)) w)).
Proof.
  intros Hi Hv (Hl & Hp & Hs & Ht & Hth).
  pose proof (thread_not_running_counter (statics w) (java_thread wk)) as [Hc Hst].
  split; [exact Hl|]. split; [exact Hp|].
  split; [cbn; rewrite Hst; exact Hs|].
  split; [destruct (tag_is v); cbn in Ht |- *; unfold counter in *; cbn;
          rewrite ?Hc; exact Ht|].
  destruct Hv as [Hv | Hv]; rewrite Hv in Hth |- *; [|exact I]. cbn in Hth |- *.
  rewrite (number_of_insert running _ i _ wk Hi). unfold running at 2 3. cbn.
  destruct (is_running (safepoint_state (java_thread wk))) eqn:Hrun.
  - destruct (thread_not_running_step (statics w) (java_thread wk) Hrun)
      as (b & ss1 & t1 & -> & H1 & H2 & _). cbn. rewrite H1, H2, Hth.
    destruct b; cbn; lia.
  - unfold thread_not_running. rewrite Hrun. cbn. rewrite Hrun, Hth. lia.
Qed.


Lemma Established_init f threads :
  Established (forallb (fun t => is_running (safepoint_state t)) threads) f
    (init threads).
Proof.
  destruct (forallb _ threads) eqn:Hall.
  - exists {| lock_held := false; page_armed := false;
              state_now := _not_synchronized; tag_is := tag_disarmed;
              threads_are := threads_all_running |}.
    split; [|split; reflexivity].
    repeat split. cbn. rewrite Forall_fmap.
    induction threads as [|t threads IH]; [constructor|].
    cbn in Hall. apply andb_prop in Hall as [H1 H2].
    constructor; [exact H1 | exact (IH H2)].
  - exists {| lock_held := false; page_armed := false;
              state_now := _not_synchronized; tag_is := tag_disarmed;
              threads_are := threads_any |}.
    split; [|split; [reflexivity | discriminate]].
    repeat split.
Qed.

Lemma Established_step k f l w w' :
  Established k f w -> step f l w = Some w' -> Established k f w'.
Proof.
  intros (v & Hd & Hpl & Hk) Hs.
  destruct l; unfold step in Hs.
  - destruct (vm_thread w) eqn:Hv; [|discriminate].
    destruct (Threads_lock_owned w) eqn:Hl; [discriminate|].
    injection Hs as <-. exists v. split; [exact Hd|]. split; [|exact Hk].
    apply plan_begin; [exact Hpl|]. destruct Hd as [<- _]. exact Hl.
  - destruct (vm_thread w) eqn:Hv; [|discriminate].
    destruct (Threads_lock_owned w) eqn:Hl; [|discriminate].
    injection Hs as <-. exists v. split; [exact Hd|]. split; [|exact Hk].
    apply plan_end; [exact Hpl|]. destruct Hd as [<- _]. exact Hl.
  - destruct (vm_thread w) as [|a rest] eqn:Hv; [discriminate|].
    destruct (run_vm_action a w) as [w1|] eqn:Ha; [|discriminate].
    cbn in Hs. injection Hs as <-.
    apply plan_cons in Hpl as (_ & v' & Hf & Hpl').
    exists v'. split; [exact (describes_run_vm_action _ _ _ _ _ Hd Hf Ha)|].
    split; [exact Hpl'|]. intros Hkt. exact (counts_threads_after _ _ _ Hf (Hk Hkt)).
  - destruct (vm_thread w) as [|a rest] eqn:Hv; [discriminate|].
    destruct a; try discriminate.
    destruct (Threads w !! i) as [wk|] eqn:Hi; [|discriminate].
    pose proof (describes_examine i wk v w Hi) as He.
    destruct (thread_not_running (statics w) (java_thread wk)) as [b [ss t]].
    injection Hs as <-. exists v. split; [|split; [cbn; rewrite Hv; exact Hpl | exact Hk]].
    apply He; [|exact Hd].
    apply plan_cons in Hpl as (_ & v' & Hf & _). cbn in Hf.
    destruct (threads_are v); try discriminate; auto.
  - destruct (Threads w !! i) as [[thread [?|]]|] eqn:Hi; try discriminate.
    injection Hs as <-. exists v.
    split; [|split; [exact Hpl | exact Hk]].
    apply (describes_insert i _ _ v w Hi); [reflexivity | exact Hd].
  - destruct (Threads w !! i) as [[thread [[[|a rest] e]|]]|] eqn:Hi;
      try discriminate.
    + destruct e; try discriminate. injection Hs as <-. exists v.
      split; [|split; [exact Hpl | exact Hk]].
      apply (describes_insert i _ _ v w Hi); [reflexivity | exact Hd].
    + destruct (match a with do_wait tag => wait_returns tag (barrier w) | _ => true end);
        [|discriminate].
      destruct (run_block_action a thread) as [thread'|] eqn:Ha; [|discriminate].
      cbn in Hs. injection Hs as <-. exists v.
      split; [|split; [exact Hpl | exact Hk]].
      apply (describes_insert i _ _ v w Hi); [|exact Hd].
      unfold running. cbn. exact (run_block_action_is_running _ _ _ Ha).
  - destruct (Threads w !! i) as [[thread [?|]]|] eqn:Hi; try discriminate.
    destruct (should_block f w thread); [discriminate|].
    injection Hs as <-. exists v.
    split; [|split; [exact Hpl | exact Hk]].
    apply (describes_insert i _ _ v w Hi); [reflexivity | exact Hd].
Qed.

Lemma Established_run k f ls : forall w w',
  Established k f w -> run f ls w = Some w' -> Established k f w'.
Proof.
  induction ls as [|l ls IH]; cbn; intros w w' He Hr.
  - congruence.
  - destruct (step f l w) as [w1|] eqn:Hs; [|discriminate].
    eauto using Established_step.
Qed.

Lemma Established_reachable f threads w :
  reachable f threads w ->
  Established (forallb (fun t => is_running (safepoint_state t)) threads) f w.
Proof. intros [ls Hr]. eapply Established_run; [apply Established_init | exact Hr]. Qed.


Lemma facts_let_the_action_through a v v' w :
  describes v w ->
  facts_after a v = Some v' ->
  a <> call_synchronize_threads ->
  is_Some (run_vm_action a w).
Proof.
  intros (Hl & Hp & _) Hf Ha.
  destruct a; cbn in Hf |- *; try (eexists; reflexivity); try congruence.
  - rewrite Hl. destruct (lock_held v); [discriminate | eexists; reflexivity].
  - rewrite Hp. destruct (bool_decide (page_armed v = b));
      [eexists; reflexivity | discriminate].
Qed.

Lemma active_counter_is_odd f threads w :
  reachable f threads w ->
  _state (statics w) <> _not_synchronized ->
  is_odd (counter w) = true.
Proof.
  intros Hr Hs. destruct (Inv_reachable _ _ _ Hr) as (_ & Ht & _).
  assert (Hact : active_implies_odd (view w) = true).
  { destruct (vm_thread w); cbn in Ht;
      apply andb_prop in Ht as [Ht _]; apply andb_prop in Ht as [H1 _]; exact H1. }
  unfold active_implies_odd, view in Hact. cbn in Hact.
  destruct (_state (statics w)); [congruence | exact Hact | exact Hact].
Qed.

(** X8.  [PageArmed] where the VM thread reads it, in every state the VM
    thread and the threads can reach from start-up.  It is 0 at
    [guarantee(PageArmed == 0)] in [arm_safepoint] and 1 at
    [guarantee(PageArmed == 1)] in [disarm_safepoint]: these two never
    fail.  While the VM thread is in [synchronize_threads], [PageArmed] is
    1 exactly if the global polling page is in use: the
    [guarantee(!PageArmed)] of that function, reached when its iteration
    count overflows, holds with thread-local polls alone and fails with
    the global polling page.  Every step of [begin] and [end] other than
    the call of [synchronize_threads] can be taken. *)
Theorem PageArmed_where_the_VM_thread_reads_it f threads w a rest :
  reachable f threads w ->
  vm_thread w = a :: rest ->
  (forall b, a = guarantee_PageArmed b -> PageArmed w = b)
  /\ (a = call_synchronize_threads -> PageArmed w = uses_global_page_poll f)
  /\ (a <> call_synchronize_threads -> is_Some (step f VM_step w)).
Proof.
  intros Hr Hv.
  destruct (Established_reachable _ _ _ Hr) as (v & Hd & Hpl & _).
  rewrite Hv in Hpl. pose proof Hpl as Hpl0.
  apply plan_cons in Hpl as (_ & v' & Hf & _).
  split; [|split].
  - intros b ->. destruct Hd as (_ & -> & _). cbn in Hf.
    destruct (bool_decide (page_armed v = b)) eqn:Hb; [|discriminate].
    apply bool_decide_eq_true in Hb. exact Hb.
  - intros ->. destruct Hd as (_ & -> & _).
    exact (plan_at_synchronize _ _ _ Hpl0).
  - intros Ha. unfold step. rewrite Hv.
    destruct (facts_let_the_action_through a v v' w Hd Hf Ha) as [w1 ->].
    eexists. reflexivity.
Qed.

Lemma PageArmed_where_the_VM_thread_reads_it_witness :
  reachable example_flags_page [example_thread _thread_in_Java]
    (world_after example_flags_page [example_thread _thread_in_Java]
       schedule_to_the_page_guarantee)
  /\ hd_error (vm_thread (world_after example_flags_page
                            [example_thread _thread_in_Java]
                            schedule_to_the_page_guarantee))
     = Some (guarantee_PageArmed false)
  /\ PageArmed (world_after example_flags_page [example_thread _thread_in_Java]
                  schedule_to_the_page_guarantee) = false.
Proof.
  assert (Hr : reachable example_flags_page [example_thread _thread_in_Java]
                 (world_after example_flags_page [example_thread _thread_in_Java]
                    schedule_to_the_page_guarantee)).
  { exists schedule_to_the_page_guarantee. vm_compute. reflexivity. }
  split; [exact Hr|]. split; [vm_compute; reflexivity|].
  refine (proj1 (PageArmed_where_the_VM_thread_reads_it
                   _ _ _ (guarantee_PageArmed false) _ Hr _)
            false eq_refl).
  vm_compute. reflexivity.
Defined.

(** X9.  While a safepoint is in progress ([_state] is [_synchronizing]
    or [_synchronized]) the barrier is armed, and the tag it is armed with
    is [static_cast<int>(_safepoint_counter)]: the tag a thread waits with
    when it loads the counter in [block] now.  A thread at the wait of
    [block] with that tag cannot go on before the VM thread disarms. *)
Theorem barrier_is_armed_with_the_counter f threads w :
  reachable f threads w ->
  _state (statics w) <> _not_synchronized ->
  _barrier_tag (barrier w) = static_cast_int (counter w)
  /\ _barrier_tag (barrier w) <> 0
  /\ forall i wk,
       Threads w !! i = Some wk ->
       waits_with (static_cast_int (counter w)) wk ->
       step f (Thread_step i) w = None.
Proof.
  intros Hr Hs.
  destruct (Established_reachable _ _ _ Hr) as (v & Hd & Hpl & _).
  apply plan_good in Hpl. destruct Hd as (_ & _ & Hst & Ht & _).
  assert (Htag : _barrier_tag (barrier w) = static_cast_int (counter w)).
  { unfold good in Hpl. rewrite <- Hst in Hpl.
    destruct (_state (statics w)); [congruence| |].
    - apply andb_prop in Hpl as [_ H]. apply bool_decide_eq_true in H.
      rewrite H in Ht. exact Ht.
    - apply andb_prop in Hpl as [H _]. apply andb_prop in H as [_ H].
      apply bool_decide_eq_true in H. rewrite H in Ht. exact Ht. }
  split; [exact Htag|]. split.
  - rewrite Htag. intros H0.
    pose proof (active_counter_is_odd _ _ _ Hr Hs) as Hodd.
    rewrite <- is_odd_static_cast_int, H0 in Hodd. discriminate.
  - intros i wk Hi (rest & e & Hb). unfold step. rewrite Hi.
    destruct wk as [thread blk]. cbn in Hb. subst blk.
    unfold wait_returns. rewrite Htag, Z.eqb_refl. reflexivity.
Qed.

Lemma barrier_is_armed_with_the_counter_witness :
  reachable example_flags [example_thread _thread_in_Java]
    (world_after example_flags [example_thread _thread_in_Java] schedule_into_safepoint)
  /\ _barrier_tag (barrier (world_after example_flags [example_thread _thread_in_Java]
                              schedule_into_safepoint)) = 1
  /\ step example_flags (Thread_step 0)
       (world_after example_flags [example_thread _thread_in_Java]
          schedule_into_safepoint) = None.
Proof.
  assert (Hr : reachable example_flags [example_thread _thread_in_Java]
                 (world_after example_flags [example_thread _thread_in_Java]
                    schedule_into_safepoint)).
  { exists schedule_into_safepoint. vm_compute. reflexivity. }
  assert (Hs : _state (statics (world_after example_flags
                                  [example_thread _thread_in_Java]
                                  schedule_into_safepoint)) <> _not_synchronized)
    by (vm_compute; discriminate).
  split; [exact Hr|].
  destruct (barrier_is_armed_with_the_counter _ _ _ Hr Hs) as (H1 & _ & H3).
  split; [exact H1|].
  eapply H3; [vm_compute; reflexivity|].
  eexists _, _. vm_compute. reflexivity.
Defined.

(** X10.  At a safepoint -- in every reachable state with
    [_state == _synchronized] -- the VM thread holds [Threads_lock] and no
    thread is running: each has been accounted as safe, and nothing a
    thread does in [block] or in a state transition makes it running
    again before [disarm_safepoint] restarts it.  If the threads were
    running when they were registered, [_waiting_to_block] is 0 then. *)
Theorem no_thread_runs_at_a_safepoint f threads w :
  reachable f threads w ->
  _state (statics w) = _synchronized ->
  Threads_lock_owned w = true
  /\ Forall (fun wk => is_running (safepoint_state (java_thread wk)) = false)
       (Threads w)
  /\ (Forall (fun t => is_running (safepoint_state t) = true) threads ->
      _waiting_to_block (statics w) = 0).
Proof.
  intros Hr Hs.
  destruct (Established_reachable _ _ _ Hr) as (v & Hd & Hpl & Hk).
  apply plan_good in Hpl. destruct Hd as (Hl & _ & Hst & _ & Hth).
  unfold good in Hpl. rewrite <- Hst, Hs in Hpl.
  apply andb_prop in Hpl as [Hpl Hthr]. apply andb_prop in Hpl as [Hlock _].
  split; [rewrite Hl; exact Hlock|].
  assert (Hall : Forall (fun t => is_running (safepoint_state t) = true) threads ->
                 forallb (fun t => is_running (safepoint_state t)) threads = true).
  { clear. induction 1 as [|t l Ht _ IH]; [reflexivity|].
    cbn. rewrite Ht, IH. reflexivity. }
  apply orb_prop in Hthr as [H|H]; apply bool_decide_eq_true in H;
    rewrite H in Hth; cbn in Hth.
  - destruct Hth as [Hno H0]. split; [exact Hno | intros _; exact H0].
  - split; [exact Hth|]. intros Hrun. specialize (Hk (Hall Hrun)).
    unfold counts_threads in Hk. rewrite H in Hk. discriminate.
Qed.

Lemma no_thread_runs_at_a_safepoint_witness :
  reachable example_flags [example_thread _thread_in_Java]
    (world_after example_flags [example_thread _thread_in_Java] schedule_into_safepoint)
  /\ _state (statics (world_after example_flags [example_thread _thread_in_Java]
                        schedule_into_safepoint)) = _synchronized
  /\ Forall (fun wk => is_running (safepoint_state (java_thread wk)) = false)
       (Threads (world_after example_flags [example_thread _thread_in_Java]
                   schedule_into_safepoint)).
Proof.
  assert (Hr : reachable example_flags [example_thread _thread_in_Java]
                 (world_after example_flags [example_thread _thread_in_Java]
                    schedule_into_safepoint)).
  { exists schedule_into_safepoint. vm_compute. reflexivity. }
  assert (Hs : _state (statics (world_after example_flags
                                  [example_thread _thread_in_Java]
                                  schedule_into_safepoint)) = _synchronized)
    by (vm_compute; reflexivity).
  split; [exact Hr|]. split; [exact Hs|].
  exact (proj1 (proj2 (no_thread_runs_at_a_safepoint _ _ _ Hr Hs))).
Defined.


(** *** Timeouts and the overflow of the iteration count *)

Lemma until_overflow_next it :
  is_int it -> it <> -1 ->
  is_int (wrap_s32 (it + 1))
  /\ until_overflow (wrap_s32 (it + 1)) = until_overflow it - 1
  /\ 0 < until_overflow it.
Proof.
  unfold is_int, until_overflow, wrap_s32. intros Hr Hne.
  assert (H32 : 0 < 2 ^ 32) by lia.
  pose proof (Z.mod_pos_bound (it + 1 + 2 ^ 31) (2 ^ 32) H32) as Hb.
  split; [lia|].
  destruct (Z.eq_dec it (2 ^ 31 - 1)) as [->|Hmax].
  - vm_compute. split; [reflexivity | reflexivity].
  - rewrite (Z.mod_small (it + 1 + 2 ^ 31)) by lia.
    replace (-1 - (it + 1 + 2 ^ 31 - 2 ^ 31)) with (-1 - it - 1) by lia.
    destruct (Z_lt_le_dec it (-1)) as [Hlt|Hge].
    + rewrite !Z.mod_small by lia. lia.
    + rewrite <- (Z_mod_plus_full (-1 - it - 1) 1 (2 ^ 32)).
      rewrite <- (Z_mod_plus_full (-1 - it) 1 (2 ^ 32)).
      rewrite !Z.mod_small by lia. lia.
Qed.

Lemma number_of_app {A : Type} (p : A -> bool) l1 l2 :
  number_of p (l1 ++ l2) = number_of p l1 + number_of p l2.
Proof. induction l1 as [|x l1 IH]; cbn; [reflexivity|]. rewrite IH. lia. Qed.

Lemma spin_timeout f pa limit start ticks :
  forall tss ss threads still it init events,
    is_int it ->
    (spin f pa limit start ticks tss ss threads still it init events = Fatal ->
     (SafepointTimeout f = true /\ AbortVMOnSafepointTimeout f = true
      /\ Exists (over_the_limit limit) ticks)
     \/ (pa = true /\ until_overflow it < Z.of_nat (length ticks)))
    /\ (forall r,
          spin f pa limit start ticks tss ss threads still it init events = Done r ->
          (ev_print_safepoint_timeout ∈ sync_events r ->
           ev_print_safepoint_timeout ∈ events
           \/ (SafepointTimeout f = true /\ Exists (over_the_limit limit) ticks))
          /\ (pa = true ->
              number_of is_pass (sync_events r)
              <= number_of is_pass events + until_overflow it)).
Proof.
  induction ticks as [|tick ticks IH];
    intros tss ss threads still it init events Hint;
    [split; [discriminate | intros r H; discriminate]|].
  cbn [spin length]. rewrite Nat2Z.inj_succ.
  assert (H0 : 0 <= until_overflow it)
    by (unfold until_overflow; apply Z.mod_pos_bound; lia).
  set (timed_out := SafepointTimeout f && (limit <? now_at_limit_check tick)).
  assert (Hto : timed_out = true ->
                SafepointTimeout f = true /\ over_the_limit limit tick).
  { unfold timed_out. intros H. apply andb_prop in H as [H1 H2].
    apply Z.ltb_lt in H2. auto. }
  assert (Hfatal : (if timed_out then print_safepoint_timeout f else Done tt) = Fatal ->
                   SafepointTimeout f = true /\ AbortVMOnSafepointTimeout f = true
                   /\ over_the_limit limit tick).
  { destruct timed_out; [|discriminate]. destruct (Hto eq_refl) as [H1 H2].
    unfold print_safepoint_timeout.
    destruct (AbortVMOnSafepointTimeout f); [auto | discriminate]. }
  destruct (if timed_out then print_safepoint_timeout f else Done tt) as [[]| |] eqn:Hp.
  - clear Hfatal.
    destruct ((it =? -1) && pa) eqn:Hov.
    + apply andb_prop in Hov as [Hit ->]. apply Z.eqb_eq in Hit. subst it.
      change (until_overflow (-1)) with 0.
      split; [intros _; right; split; [reflexivity|]; lia | intros r H; discriminate].
    + assert (Hnext : pa = true ->
                is_int (wrap_s32 (it + 1))
                /\ until_overflow (wrap_s32 (it + 1)) = until_overflow it - 1
                /\ 0 < until_overflow it).
      { intros ->. rewrite andb_true_r in Hov. apply Z.eqb_neq in Hov.
        apply until_overflow_next; assumption. }
      assert (Hint' : is_int (wrap_s32 (it + 1))).
      { unfold is_int, wrap_s32.
        pose proof (Z.mod_pos_bound (it + 1 + 2 ^ 31) (2 ^ 32) ltac:(lia)). lia. }
      destruct (walk tss ss (foldl apply_move threads (moved tick)) still)
        as [[[tss' ss'] threads'] still'].
      set (events1 := if timed_out then events ++ [ev_print_safepoint_timeout]
                      else events).
      assert (He1 : number_of is_pass events1 = number_of is_pass events).
      { unfold events1. destruct timed_out; [|reflexivity].
        rewrite number_of_app. cbn. lia. }
      assert (Hin1 : ev_print_safepoint_timeout ∈ events1 ->
                     ev_print_safepoint_timeout ∈ events
                     \/ (SafepointTimeout f = true /\ over_the_limit limit tick)).
      { unfold events1. destruct timed_out; [|auto]. intros _. right. auto. }
      destruct (0 <? still') eqn:Hs.
      * destruct (IH tss' ss' threads' still' (wrap_s32 (it + 1)) init
                    ((events1 ++ [ev_pass still'])
                     ++ [ev_back_off (back_off (now_at_back_off tick) start)])
                    Hint') as [IH1 IH2].
        split.
        -- intros H. destruct (IH1 H) as [(H1 & H2 & H3) | [H1 H2]].
           ++ left. split; [exact H1 | split; [exact H2 | right; exact H3]].
           ++ right. split; [exact H1|]. destruct (Hnext H1) as (_ & Hd & _). lia.
        -- intros r H. destruct (IH2 r H) as [H1 H2]. split.
           ++ intros Hin. destruct (H1 Hin) as [H3 | [H3 H4]].
              ** rewrite !elem_of_app, !elem_of_cons, !elem_of_nil in H3.
                 destruct H3 as [[H3 | [H3 | []]] | [H3 | []]];
                   [|discriminate|discriminate].
                 destruct (Hin1 H3) as [H5 | [H5 H6]]; [left; exact H5|].
                 right. split; [exact H5 | left; exact H6].
              ** right. split; [exact H3 | right; exact H4].
           ++ intros Hpa. specialize (H2 Hpa).
              destruct (Hnext Hpa) as (_ & Hd & _).
              rewrite !number_of_app in H2. cbn in H2. lia.
      * split; [discriminate|]. intros r H. injection H as <-.
        cbn [sync_events]. split.
        -- intros Hin. rewrite elem_of_app, elem_of_cons, elem_of_nil in Hin.
           destruct Hin as [H3 | [H3 | []]]; [|discriminate].
           destruct (Hin1 H3) as [H5 | [H5 H6]]; [left; exact H5|].
           right. split; [exact H5 | left; exact H6].
        -- intros Hpa. destruct (Hnext Hpa) as (_ & _ & Hd).
           rewrite number_of_app. cbn. lia.
  - destruct (Hfatal eq_refl) as (H1 & H2 & H3).
    split; [|intros r H; discriminate].
    intros _. left. split; [exact H1 | split; [exact H2 | left; exact H3]].
  - split; discriminate.
Qed.

(** X11.  [synchronize_threads] ends in a fatal error only in two ways:
    [SafepointTimeout] and [AbortVMOnSafepointTimeout] are both set and one
    of its checks of the clock found the time limit passed; or the polling
    page is armed and the loop has come to its iteration number 2^32 - 1,
    where the [int] iteration count is -1 and [guarantee(!PageArmed)]
    fails.  When it returns, it has called [print_safepoint_timeout] only
    if [SafepointTimeout] is set and a check found the limit passed, and
    with the polling page armed it has made at most 2^32 - 2 passes in the
    loop.  With both flags set and the limit passed at the first check,
    the call is fatal unless the first pass over the threads found none
    running. *)
Theorem synchronize_threads_is_fatal_on_timeout_or_overflow
    f pa limit nof_threads start ticks ss threads :
  (synchronize_threads f pa limit nof_threads start ticks ss threads = Fatal ->
   (SafepointTimeout f = true /\ AbortVMOnSafepointTimeout f = true
    /\ Exists (over_the_limit limit) ticks)
   \/ (pa = true /\ 2 ^ 32 - 1 <= Z.of_nat (length ticks)))
  /\ (forall r,
        synchronize_threads f pa limit nof_threads start ticks ss threads = Done r ->
        (ev_print_safepoint_timeout ∈ sync_events r ->
         SafepointTimeout f = true /\ Exists (over_the_limit limit) ticks)
        /\ (pa = true -> number_of is_pass (sync_events r) <= 2 ^ 32 - 2))
  /\ (forall tick ticks',
        ticks = tick :: ticks' ->
        SafepointTimeout f = true ->
        AbortVMOnSafepointTimeout f = true ->
        over_the_limit limit tick ->
        synchronize_threads f pa limit nof_threads start ticks ss threads = Fatal
        \/ exists r,
             synchronize_threads f pa limit nof_threads start ticks ss threads
             = Done r
             /\ sync_iterations r = 1 /\ sync_events r = []).
Proof.
  unfold synchronize_threads.
  destruct (walk (seq 0 (length threads)) ss threads nof_threads)
    as [[[tss ss'] threads'] still].
  destruct (still <=? 0).
  - split; [discriminate|]. split.
    + intros r H. injection H as <-. cbn. split; [|intros _; lia].
      intros Hin. apply elem_of_nil in Hin. contradiction.
    + intros tick ticks' _ _ _ _. right. eexists. repeat split.
  - assert (Hint : is_int 1) by (unfold is_int; lia).
    destruct (spin_timeout f pa limit start ticks tss ss' threads' still 1 still []
                Hint) as [H1 H2].
    change (until_overflow 1) with (2 ^ 32 - 2) in H1, H2.
    split; [|split].
    + intros H. destruct (H1 H) as [H3 | [H3 H4]]; [left; exact H3|].
      right. split; [exact H3 | lia].
    + intros r H. destruct (H2 r H) as [H3 H4]. split.
      * intros Hin. destruct (H3 Hin) as [H5 | H5]; [|exact H5].
        apply elem_of_nil in H5. contradiction.
      * intros Hpa. specialize (H4 Hpa). cbn in H4. lia.
    + intros tick ticks' -> Hst Hab Hlt. left. cbn [spin].
      unfold over_the_limit in Hlt. apply Z.ltb_lt in Hlt.
      rewrite Hst, Hlt. cbn [andb]. unfold print_safepoint_timeout.
      rewrite Hab. reflexivity.
Qed.

Lemma synchronize_threads_is_fatal_on_timeout_or_overflow_witness :
  SafepointTimeout example_flags_abort = true
  /\ AbortVMOnSafepointTimeout example_flags_abort = true
  /\ Forall (over_the_limit 0) example_ticks
  /\ synchronize_threads example_flags_abort false 0 1 7000000 example_ticks
       example_synchronizing [example_thread _thread_in_Java]
     = Fatal.
Proof.
  assert (H1 : SafepointTimeout example_flags_abort = true) by reflexivity.
  assert (H2 : AbortVMOnSafepointTimeout example_flags_abort = true) by reflexivity.
  assert (H3 : Forall (over_the_limit 0) example_ticks)
    by (repeat constructor; unfold over_the_limit; cbn; lia).
  split; [exact H1|]. split; [exact H2|]. split; [exact H3|].
  destruct (proj2 (proj2 (synchronize_threads_is_fatal_on_timeout_or_overflow
                            example_flags_abort false 0 1 7000000 example_ticks
                            example_synchronizing [example_thread _thread_in_Java]))
              _ _ eq_refl H1 H2 (Forall_inv H3)) as [H | (r & H & _)];
    [exact H | vm_compute in H; discriminate].
Defined.

End SafepointProofs.

(** ** safepoint.cpp: SafepointTracing *)

Module SafepointTracingProofs.
Import SafepointTracing.

Lemma keep_app {A : Type} (p : A -> bool) l1 l2 :
  keep p (l1 ++ l2) = keep p l1 ++ keep p l2.
Proof.
  induction l1 as [|x l1 IH]; cbn; [reflexivity|].
  destruct (p x); cbn; rewrite IH; reflexivity.
Qed.

Lemma wrap_s64_small z : - 2 ^ 63 <= z < 2 ^ 63 -> wrap_s64 z = z.
Proof. intros H. unfold wrap_s64. rewrite Z.mod_small; lia. Qed.

(** Unfolding the four calls one at a time keeps the records small. *)
Ltac unfold_safepoint :=
  unfold safepoint;
  unfold begin;
  cbn [fst snd _last_safepoint_begin_time_ns _last_safepoint_sync_time_ns
       _last_safepoint_cleanup_time_ns _last_safepoint_end_time_ns
       _last_safepoint_end_time_epoch_ms _op_count
       _cur_stat_index _max_sync_time _max_vmop_time _current_type
       _nof_threads _nof_running _page_trap _last_app_time_ns];
  unfold synchronized;
  cbn [fst snd _last_safepoint_begin_time_ns _last_safepoint_sync_time_ns
       _last_safepoint_cleanup_time_ns _last_safepoint_end_time_ns
       _last_safepoint_end_time_epoch_ms _op_count
       _cur_stat_index _max_sync_time _max_vmop_time _current_type
       _nof_threads _nof_running _page_trap _last_app_time_ns];
  unfold cleanup;
  cbn [fst snd _last_safepoint_begin_time_ns _last_safepoint_sync_time_ns
       _last_safepoint_cleanup_time_ns _last_safepoint_end_time_ns
       _last_safepoint_end_time_epoch_ms _op_count
       _cur_stat_index _max_sync_time _max_vmop_time _current_type
       _nof_threads _nof_running _page_trap _last_app_time_ns];
  unfold end_;
  cbn [fst snd _last_safepoint_begin_time_ns _last_safepoint_sync_time_ns
       _last_safepoint_cleanup_time_ns _last_safepoint_end_time_ns
       _last_safepoint_end_time_epoch_ms _op_count
       _cur_stat_index _max_sync_time _max_vmop_time _current_type
       _nof_threads _nof_running _page_trap _last_app_time_ns].

(** What one traced safepoint leaves in the statics and in the trace. *)
Lemma safepoint_spec c s :
  clock_ok c ->
  let hdr := Z.rem (_cur_stat_index s) 30 =? 0 in
  keep is_table_line (safepoint c s).2
  = (if log_stats_enabled c
     then (if hdr then [header_line] else []) ++ [row_of c] else [])
  /\ keep is_row (safepoint c s).2
     = (if log_stats_enabled c then [row_of c] else [])
  /\ _cur_stat_index (safepoint c s).1
     = (if log_stats_enabled c
        then (if hdr then 1 else wrap_s32 (_cur_stat_index s + 1))
        else _cur_stat_index s)
  /\ _max_sync_time (safepoint c s).1
     = Z.max (_max_sync_time s) (at_synchronized c - at_begin c)
  /\ _max_vmop_time (safepoint c s).1
     = Z.max (_max_vmop_time s) (at_end c - at_synchronized c).
Proof.
  intros (H1 & H2 & H3). cbn zeta. unfold row_of.
  destruct s. unfold_safepoint.
  rewrite !(wrap_s64_small (at_synchronized c - at_begin c)) by lia.
  rewrite !(wrap_s64_small (at_end c - at_synchronized c)) by lia.
  assert (Hmax : forall m d, (if m <? d then d else m) = Z.max m d).
  { intros m d. destruct (m <? d) eqn:H; [apply Z.ltb_lt in H|apply Z.ltb_ge in H];
      lia. }
  destruct (log_stats_enabled c);
    [unfold statistics_log; cbn [_cur_stat_index];
     match goal with |- context [Z.rem ?i 30 =? 0] =>
       destruct (Z.rem i 30 =? 0) end|];
    cbn [fst snd app keep is_table_line is_row
         _last_safepoint_begin_time_ns _last_safepoint_sync_time_ns
         _last_safepoint_cleanup_time_ns _last_safepoint_end_time_ns
         _cur_stat_index _max_sync_time _max_vmop_time _current_type
         _nof_threads _nof_running _page_trap _last_app_time_ns
         with_cur_stat_index];
    rewrite ?(wrap_s64_small (at_synchronized c - at_begin c)) by lia;
    rewrite ?(wrap_s64_small (at_cleanup c - at_synchronized c)) by lia;
    rewrite ?(wrap_s64_small (at_end c - at_cleanup c)) by lia;
    rewrite ?(wrap_s64_small (at_end c - at_begin c)) by lia;
    rewrite !Hmax; repeat split; reflexivity.
Qed.

Lemma safepoints_cons c cs s :
  safepoints (c :: cs) s
  = ((safepoints cs (safepoint c s).1).1,
     (safepoint c s).2 ++ (safepoints cs (safepoint c s).1).2).
Proof.
  cbn [safepoints]. destruct (safepoint c s) as [s1 e1]. cbn [fst snd].
  destruct (safepoints cs s1) as [s2 e2]. reflexivity.
Qed.

(** The table lines of one traced safepoint, whatever the clock shows. *)
Lemma safepoint_table c s :
  exists r,
    keep is_table_line (safepoint c s).2
    = (if log_stats_enabled c
       then (if Z.rem (_cur_stat_index s) 30 =? 0 then [header_line] else []) ++ [r]
       else [])
    /\ keep is_row (safepoint c s).2 = (if log_stats_enabled c then [r] else [])
    /\ _cur_stat_index (safepoint c s).1
       = (if log_stats_enabled c
          then (if Z.rem (_cur_stat_index s) 30 =? 0 then 1
                else wrap_s32 (_cur_stat_index s + 1))
          else _cur_stat_index s).
Proof.
  destruct s. unfold_safepoint.
  destruct (log_stats_enabled c).
  - unfold statistics_log. cbn [_cur_stat_index].
    match goal with |- context [Z.rem ?i 30 =? 0] =>
      destruct (Z.rem i 30 =? 0) end;
      cbn [fst snd app keep is_table_line is_row _cur_stat_index
           with_cur_stat_index];
      eexists; (split; [reflexivity|]); split; reflexivity.
  - exists header_line. cbn [fst snd app keep is_table_line is_row _cur_stat_index].
    split; [reflexivity|]. split; reflexivity.
Qed.

Lemma pred_mod_30 (k : nat) :
  k <> 0%nat ->
  ((k mod 30 = 0)%nat -> ((k - 1) mod 30 = 29)%nat)
  /\ ((k mod 30 <> 0)%nat -> (k mod 30 = (k - 1) mod 30 + 1)%nat).
Proof.
  intros Hk.
  pose proof (Nat.div_mod_eq k 30). pose proof (Nat.div_mod_eq (k - 1) 30).
  pose proof (Nat.mod_upper_bound k 30). pose proof (Nat.mod_upper_bound (k - 1) 30).
  lia.
Qed.

Lemma statistics_table_from cs : forall s (k : nat),
  _cur_stat_index s
  = (if (k =? 0)%nat then 0 else Z.of_nat ((k - 1) mod 30) + 1) ->
  keep is_table_line (safepoints cs s).2
  = with_header_every_30 k (keep is_row (safepoints cs s).2).
Proof.
  induction cs as [|c cs IH]; intros s k Hidx; [reflexivity|].
  rewrite safepoints_cons. cbn [snd]. rewrite !keep_app.
  destruct (safepoint_table c s) as (r & Ht & Hr & Hi).
  rewrite Ht, Hr.
  destruct (log_stats_enabled c).
  - assert (Hhdr : (Z.rem (_cur_stat_index s) 30 =? 0) = (k mod 30 =? 0)%nat).
    { rewrite Hidx. destruct (k =? 0)%nat eqn:Hk.
      - apply Nat.eqb_eq in Hk. subst k. reflexivity.
      - apply Nat.eqb_neq in Hk. rewrite Z.rem_mod_nonneg by lia.
        destruct (k mod 30 =? 0)%nat eqn:Hm.
        + apply Nat.eqb_eq in Hm. apply Z.eqb_eq.
          assert ((k - 1) mod 30 = 29)%nat by (apply pred_mod_30; assumption).
          replace (Z.of_nat ((k - 1) mod 30) + 1) with 30 by lia. reflexivity.
        + apply Nat.eqb_neq in Hm. apply Z.eqb_neq.
          assert (k mod 30 = (k - 1) mod 30 + 1)%nat
            by (apply pred_mod_30; assumption).
          pose proof (Nat.mod_upper_bound k 30).
          rewrite Z.mod_small by lia. lia. }
    cbn [app with_header_every_30]. rewrite <- Hhdr.
    rewrite <- (IH (safepoint c s).1 (S k)).
    + destruct (Z.rem (_cur_stat_index s) 30 =? 0); reflexivity.
    + rewrite Hi. cbn [Nat.eqb]. replace (S k - 1)%nat with k by lia.
      rewrite Hhdr. destruct (k mod 30 =? 0)%nat eqn:Hm.
      * apply Nat.eqb_eq in Hm. rewrite Hm. reflexivity.
      * apply Nat.eqb_neq in Hm. rewrite Hidx.
        destruct (k =? 0)%nat eqn:Hk;
          [apply Nat.eqb_eq in Hk; subst k; cbn in Hm; congruence|].
        apply Nat.eqb_neq in Hk.
        assert (k mod 30 = (k - 1) mod 30 + 1)%nat
          by (apply pred_mod_30; assumption).
        pose proof (Nat.mod_upper_bound k 30).
        unfold wrap_s32. rewrite Z.mod_small by lia. lia.
  - cbn [app]. apply IH. rewrite Hi. exact Hidx.
Qed.

(** X12.  "Print header every 30 entries": in the trace of any sequence of
    safepoints, started with the statics as safepoint.cpp initialises them,
    the statistics table consists of its rows with the header line in
    front of the rows number 0, 30, 60, ... and nowhere else (the counter
    of [statistics_log] wraps to 1, not to 0, after the header, and the
    period is 30 all the same). *)
Theorem statistics_header_every_30_rows VMOp_Terminating cs :
  keep is_table_line (safepoints cs (initial VMOp_Terminating)).2
  = with_header_every_30 0
      (keep is_row (safepoints cs (initial VMOp_Terminating)).2).
Proof. apply statistics_table_from. reflexivity. Qed.

(** X13.  The rows of the statistics table are, in order, one for each
    safepoint that ended with statistics logging enabled; the row of a
    safepoint shows the type and the thread counts given to [begin] and
    [synchronized] and the time from [begin] to [synchronized], from
    [synchronized] to [cleanup], from [cleanup] to [end], and from [begin]
    to [end] -- so the last column is the sum of the three before it. *)
Theorem statistics_rows_show_the_safepoints cs s :
  Forall clock_ok cs ->
  keep is_row (safepoints cs s).2 = row_of <$> keep log_stats_enabled cs.
Proof.
  revert s. induction cs as [|c cs IH]; intros s Hok; [reflexivity|].
  apply Forall_cons in Hok as [Hc Hok].
  rewrite safepoints_cons. cbn [snd keep]. rewrite keep_app.
  destruct (safepoint_spec c s Hc) as (_ & Hr & _). rewrite Hr, IH by exact Hok.
  destruct (log_stats_enabled c); reflexivity.
Qed.

Lemma statistics_rows_show_the_safepoints_witness :
  Forall clock_ok example_cycles
  /\ keep is_row (safepoints example_cycles (initial 4)).2
     = [statistics_row 1 3 1 400 100 1000 1500 0;
        statistics_row 2 3 2 900 50 50 1000 0].
Proof.
  assert (H : Forall clock_ok example_cycles).
  { repeat constructor; cbn; lia. }
  split; [exact H|].
  exact (statistics_rows_show_the_safepoints example_cycles (initial 4) H).
Defined.

(** X14.  [_max_sync_time] and [_max_vmop_time] are running maxima: after
    any sequence of safepoints, [_max_sync_time] is at least the time every
    one of them took from [begin] to [synchronized], at least its old
    value, and equal to one of these; likewise [_max_vmop_time] for the
    time from [synchronized] to [end] (the cleanup included). *)
Theorem max_times_are_the_longest cs s :
  Forall clock_ok cs ->
  (_max_sync_time s <= _max_sync_time (safepoints cs s).1
   /\ Forall (fun c => at_synchronized c - at_begin c
                       <= _max_sync_time (safepoints cs s).1) cs
   /\ (_max_sync_time (safepoints cs s).1 = _max_sync_time s
       \/ Exists (fun c => _max_sync_time (safepoints cs s).1
                           = at_synchronized c - at_begin c) cs))
  /\ (_max_vmop_time s <= _max_vmop_time (safepoints cs s).1
      /\ Forall (fun c => at_end c - at_synchronized c
                          <= _max_vmop_time (safepoints cs s).1) cs
      /\ (_max_vmop_time (safepoints cs s).1 = _max_vmop_time s
          \/ Exists (fun c => _max_vmop_time (safepoints cs s).1
                              = at_end c - at_synchronized c) cs)).
Proof.
  revert s. induction cs as [|c cs IH]; intros s Hok.
  - cbn. repeat split; auto; lia.
  - apply Forall_cons in Hok as [Hc Hok].
    rewrite safepoints_cons. cbn [fst].
    destruct (safepoint_spec c s Hc) as (_ & _ & _ & Hs & Hv).
    destruct (IH (safepoint c s).1 Hok)
      as ((A1 & A2 & A3) & (B1 & B2 & B3)).
    rewrite Hs in A1, A3. rewrite Hv in B1, B3.
    split; (split; [lia|split]).
    + constructor; [lia | exact A2].
    + destruct A3 as [A3|A3]; [|right; right; exact A3].
      destruct (Z.max_spec (_max_sync_time s) (at_synchronized c - at_begin c))
        as [[_ Hm]|[_ Hm]]; rewrite Hm in A3;
        [right; left; exact A3 | left; exact A3].
    + constructor; [lia | exact B2].
    + destruct B3 as [B3|B3]; [|right; right; exact B3].
      destruct (Z.max_spec (_max_vmop_time s) (at_end c - at_synchronized c))
        as [[_ Hm]|[_ Hm]]; rewrite Hm in B3;
        [right; left; exact B3 | left; exact B3].
Qed.

Lemma max_times_are_the_longest_witness :
  Forall clock_ok example_cycles
  /\ _max_sync_time (initial 4)
     <= _max_sync_time (safepoints example_cycles (initial 4)).1.
Proof.
  assert (H : Forall clock_ok example_cycles).
  { repeat constructor; cbn; lia. }
  split; [exact H|].
  exact (proj1 (proj1 (max_times_are_the_longest example_cycles (initial 4) H))).
Defined.


(** *** The counts of the exit log *)

Lemma safepoint_op_count c s :
  _op_count (safepoint c s).1
  = alter (fun k => wrap_u64 (k + 1)) (op_type c) (_op_count s).
Proof.
  destruct s. unfold_safepoint.
  destruct (log_stats_enabled c);
    [unfold statistics_log; cbn [_cur_stat_index];
     match goal with |- context [Z.rem ?i 30 =? 0] =>
       destruct (Z.rem i 30 =? 0) end|];
    reflexivity.
Qed.

Lemma of_type_bounds t cs : 0 <= of_type t cs <= Z.of_nat (length cs).
Proof.
  unfold of_type. induction cs as [|c cs IH]; cbn [Safepoint.number_of length]; [lia|].
  destruct (bool_decide (op_type c = t)); lia.
Qed.

Lemma op_count_after cs : forall s t k0,
  _op_count s !! t = Some k0 ->
  in_u64 k0 ->
  _op_count (safepoints cs s).1 !! t = Some (wrap_u64 (k0 + of_type t cs)).
Proof.
  induction cs as [|c cs IH]; intros s t k0 Hk Hu.
  - cbn. rewrite Hk. unfold of_type. cbn. rewrite Z.add_0_r.
    rewrite wrap_u64_small by exact Hu. reflexivity.
  - rewrite safepoints_cons. cbn [fst].
    unfold of_type. cbn [Safepoint.number_of]. fold (of_type t cs).
    destruct (decide (op_type c = t)) as [e|n].
    + rewrite (bool_decide_eq_true_2 _ e).
      rewrite (IH (safepoint c s).1 t (wrap_u64 (k0 + 1))).
      * f_equal. unfold wrap_u64. rewrite Zplus_mod_idemp_l. f_equal. lia.
      * rewrite safepoint_op_count, e, list_lookup_alter_eq, Hk. reflexivity.
      * apply wrap_u64_range.
    + rewrite (bool_decide_eq_false_2 _ n).
      rewrite (IH (safepoint c s).1 t k0); [f_equal | | exact Hu].
      rewrite safepoint_op_count, list_lookup_alter_ne by exact n. exact Hk.
Qed.

Lemma op_count_length cs : forall s,
  length (_op_count (safepoints cs s).1) = length (_op_count s).
Proof.
  induction cs as [|c cs IH]; intros s; [reflexivity|].
  rewrite safepoints_cons. cbn [fst]. rewrite IH, safepoint_op_count.
  apply length_alter.
Qed.

(** X15.  [_op_count] counts the safepoints by the type of their VM
    operation, and [statistics_exit_log] prints these counts.  After any
    sequence of traced safepoints (fewer than 2^64, with operation types
    below [VMOp_Terminating], as the array requires), the exit log has the
    line "type [t]: [k]" exactly when [k] safepoints were for an
    operation of type [t] and [k] is not 0. *)
Theorem exit_log_counts_the_safepoints n cs coalesced t k :
  Forall (fun c => (op_type c < n)%nat) cs ->
  Z.of_nat (length cs) < 2 ^ 64 ->
  op_count_line t k
    ∈ statistics_exit_log true coalesced (safepoints cs (initial n)).1
  <-> (t < n)%nat /\ k = of_type t cs /\ k <> 0.
Proof.
  intros _ Hlen. unfold statistics_exit_log. cbn [negb].
  pose proof (of_type_bounds t cs) as Hb.
  assert (Hcount : (t < n)%nat ->
            _op_count (safepoints cs (initial n)).1 !! t = Some (of_type t cs)).
  { intros Ht. rewrite (op_count_after cs (initial n) t 0).
    - rewrite Z.add_0_l, wrap_u64_small by (unfold in_u64; lia). reflexivity.
    - cbn. apply lookup_replicate_2. exact Ht.
    - unfold in_u64. lia. }
  rewrite elem_of_app, list_elem_of_omap. split.
  - intros [([i c] & Hin & Hf) | Hin].
    + apply elem_of_lookup_imap in Hin as (j & x & Heq & Hj). simplify_eq.
      destruct (x =? 0) eqn:Hx; [discriminate|]. simplify_eq.
      apply Z.eqb_neq in Hx.
      assert (Ht : (t < n)%nat).
      { apply lookup_lt_Some in Hj. rewrite op_count_length in Hj.
        cbn in Hj. rewrite length_replicate in Hj. exact Hj. }
      rewrite (Hcount Ht) in Hj. simplify_eq. auto.
    + rewrite !elem_of_cons, elem_of_nil in Hin.
      destruct Hin as [H | [H | [H | []]]]; discriminate.
  - intros (Ht & -> & Hk). left. exists (t, of_type t cs). split.
    + apply elem_of_lookup_imap. exists t, (of_type t cs). split; [reflexivity|].
      exact (Hcount Ht).
    + apply Z.eqb_neq in Hk. rewrite Hk. reflexivity.
Qed.

Lemma exit_log_counts_the_safepoints_witness :
  Forall (fun c => (op_type c < 3)%nat) example_cycles
  /\ Z.of_nat (length example_cycles) < 2 ^ 64
  /\ op_count_line 1 1
       ∈ statistics_exit_log true 0 (safepoints example_cycles (initial 3)).1.
Proof.
  assert (H1 : Forall (fun c => (op_type c < 3)%nat) example_cycles)
    by (repeat constructor; cbn; lia).
  assert (H2 : Z.of_nat (length example_cycles) < 2 ^ 64) by (cbn; lia).
  split; [exact H1|]. split; [exact H2|].
  apply (proj2 (exit_log_counts_the_safepoints 3 example_cycles 0 1 1 H1 H2)).
  split; [lia|]. split; [reflexivity | lia].
Defined.

End SafepointTracingProofs.

(** ** jvmtiRawMonitor.cpp *)

Module RawMonitorProofs.
Import RawMonitor.

Lemma solo_bind {A B : Type} (p : Prog A) (k : A -> Prog B) s :
  solo (p ≫= k) s
  = match solo p s with
    | Returns a s' => solo (k a) s'
    | Blocks => Blocks
    | Aborts => Aborts
    | Spins => Spins
    end.
Proof.
  revert s. induction p as [a|C act k' IH|]; intros s; [reflexivity| |reflexivity].
  change (solo (Act act k' ≫= k) s)
    with (match act s with
          | Ok b s' => solo (k' b ≫= k) s'
          | Blocked => Blocks
          | Crash => Aborts
          end).
  cbn [solo]. destruct (act s); [apply IH|reflexivity|reflexivity].
Qed.

(** *** Operations by a thread that does not own the monitor *)

(** C5.  If [self] is not the owner of the monitor, each of [raw_exit],
    [raw_wait], [raw_notify] and [raw_notifyAll] returns
    [M_ILLEGAL_MONITOR_STATE] and leaves everything -- the monitor's owner,
    recursions, entry list and wait set included -- as it was. *)
Theorem non_owner_gets_illegal_monitor_state self s fuel millis :
  _owner (monitor s) <> Some self ->
  solo (raw_exit self) s = Returns M_ILLEGAL_MONITOR_STATE s
  /\ solo (raw_wait fuel millis self) s = Returns M_ILLEGAL_MONITOR_STATE s
  /\ solo (raw_notify fuel self) s = Returns M_ILLEGAL_MONITOR_STATE s
  /\ solo (raw_notifyAll fuel self) s = Returns M_ILLEGAL_MONITOR_STATE s.
Proof.
  intros Hne.
  assert (H : bool_decide (Some self <> _owner (monitor s)) = true)
    by (apply bool_decide_eq_true; congruence).
  unfold raw_exit, raw_wait, raw_notify, raw_notifyAll.
  repeat split; cbn; rewrite H; reflexivity.
Qed.

Lemma non_owner_gets_illegal_monitor_state_witness :
  _owner (monitor (held thread_A 2 fresh)) <> Some thread_B
  /\ solo (raw_exit thread_B) (held thread_A 2 fresh)
     = Returns M_ILLEGAL_MONITOR_STATE (held thread_A 2 fresh).
Proof.
  assert (H : _owner (monitor (held thread_A 2 fresh)) <> Some thread_B)
    by (cbn; discriminate).
  split; [exact H|].
  exact (proj1 (non_owner_gets_illegal_monitor_state thread_B _ 0%nat 0 H)).
Defined.

(** *** Recursive entries by one thread *)

Lemma held_fields self r s0 :
  _owner (monitor (held self r s0)) = Some self
  /\ _recursions (monitor (held self r s0)) = r
  /\ _entry_list (monitor (held self r s0)) = _entry_list (monitor s0)
  /\ SR_lock (held self r s0) = SR_lock s0
  /\ external_suspend (held self r s0) = external_suspend s0.
Proof. repeat split. Qed.

Lemma solo_mret {A : Type} (a : A) s : solo (mret a) s = Returns a s.
Proof. reflexivity. Qed.

Lemma solo_load {B : Type} (g : Shared -> B) s : solo (load g) s = Returns (g s) s.
Proof. reflexivity. Qed.

Lemma solo_store g s : solo (store g) s = Returns tt (g s).
Proof. reflexivity. Qed.

Lemma solo_guarantee c s :
  solo (guarantee c) s = if c s then Returns tt s else Aborts.
Proof. unfold guarantee, atomic. cbn. destruct (c s); reflexivity. Qed.

Lemma solo_SR_lock_lock jt s :
  jt ∉ SR_lock s ->
  solo (SR_lock_lock jt) s = Returns tt (with_SR_lock (SR_lock s ∪ {[jt]}) s).
Proof.
  intros H. unfold SR_lock_lock, atomic. cbn.
  rewrite bool_decide_eq_false_2 by exact H. reflexivity.
Qed.

Lemma solo_SR_lock_unlock jt s :
  solo (SR_lock_unlock jt) s = Returns tt (with_SR_lock (SR_lock s ∖ {[jt]}) s).
Proof. reflexivity. Qed.

Lemma solo_while_external_suspend fuel jt s :
  jt ∉ external_suspend s ->
  solo (while_external_suspend (S fuel) jt) s = Returns tt s.
Proof.
  intros H. cbn [while_external_suspend]. rewrite solo_bind.
  unfold is_external_suspend. rewrite solo_load.
  rewrite bool_decide_eq_false_2 by exact H. reflexivity.
Qed.

Lemma solo_cmpxchg_owner self s :
  solo (cmpxchg_owner self) s
  = match _owner (monitor s) with
    | None => Returns None (on_monitor (with_owner (Some self)) s)
    | Some t => Returns (Some t) s
    end.
Proof. unfold cmpxchg_owner, atomic. cbn. destruct (_owner (monitor s)); reflexivity. Qed.

Lemma solo_increment_recursions s :
  solo increment_recursions s
  = Returns tt (on_monitor
                  (fun m => with_recursions (wrap_s32 (_recursions m + 1)) m) s).
Proof. reflexivity. Qed.

Lemma solo_decrement_recursions s :
  solo decrement_recursions s
  = Returns tt (on_monitor
                  (fun m => with_recursions (wrap_s32 (_recursions m - 1)) m) s).
Proof. reflexivity. Qed.

Create Rewrite HintDb solo.

#[local] Hint Rewrite @solo_bind @solo_mret @solo_load solo_store solo_guarantee
  solo_SR_lock_unlock solo_cmpxchg_owner solo_increment_recursions
  solo_decrement_recursions : solo.

Lemma wrap_s32_small z : - 2 ^ 31 <= z < 2 ^ 31 -> wrap_s32 z = z.
Proof. intros H. unfold wrap_s32. rewrite Z.mod_small; lia. Qed.

Lemma lock_unlock_set (X : gset Thread) t : t ∉ X -> (X ∪ {[t]}) ∖ {[t]} = X.
Proof.
  intros H. apply set_eq. intros x.
  rewrite elem_of_difference, elem_of_union, elem_of_singleton.
  split; [tauto|]. intros Hx. split; [auto|]. congruence.
Qed.

(** The compare-and-exchange of [raw_enter], with the suspension protocol
    a JavaThread goes through around it. *)
Lemma raw_enter_cmpxchg fuel self s :
  self ∉ SR_lock s -> self ∉ external_suspend s ->
  solo (if is_Java_thread self then
          SR_lock_lock self;;
          while_external_suspend (S fuel) self;;
          contended ← cmpxchg_owner self;
          SR_lock_unlock self;;
          mret contended
        else cmpxchg_owner self) s
  = match _owner (monitor s) with
    | None => Returns None (on_monitor (with_owner (Some self)) s)
    | Some t => Returns (Some t) s
    end.
Proof.
  intros Hsr Hsus.
  destruct (is_Java_thread self); [|apply solo_cmpxchg_owner].
  rewrite solo_bind, solo_SR_lock_lock by exact Hsr.
  rewrite solo_bind, solo_while_external_suspend by exact Hsus.
  autorewrite with solo. cbn [monitor with_SR_lock].
  destruct (_owner (monitor s)) eqn:Ho; autorewrite with solo;
    cbn [SR_lock with_SR_lock on_monitor with_monitor];
    rewrite lock_unlock_set by exact Hsr;
    destruct s; reflexivity.
Qed.

Lemma raw_enter_free fuel self s0 :
  uncontended self s0 ->
  solo (raw_enter (S fuel) self) s0 = Returns tt (held self 0 s0).
Proof.
  intros (Ho & Hr & He & Hsr & Hsus). unfold raw_enter.
  rewrite solo_bind, raw_enter_cmpxchg, Ho by assumption.
  rewrite bool_decide_eq_false_2 by discriminate.
  rewrite bool_decide_eq_true_2 by reflexivity.
  autorewrite with solo. cbn [monitor on_monitor with_monitor _owner with_owner].
  rewrite bool_decide_eq_true_2 by reflexivity.
  autorewrite with solo. cbn [monitor on_monitor with_monitor _recursions with_owner].
  rewrite bool_decide_eq_true_2 by exact Hr.
  unfold held, on_monitor. f_equal.
  destruct s0 as [[] ?]; cbn in *; subst; reflexivity.
Qed.

Lemma raw_enter_again fuel self r s0 :
  uncontended self s0 ->
  solo (raw_enter (S fuel) self) (held self r s0)
  = Returns tt (held self (wrap_s32 (r + 1)) s0).
Proof.
  intros (Ho & Hr & He & Hsr & Hsus). unfold raw_enter.
  rewrite solo_bind, raw_enter_cmpxchg by assumption.
  cbn [held monitor on_monitor with_monitor _owner with_owner with_recursions].
  rewrite bool_decide_eq_true_2 by reflexivity.
  autorewrite with solo. reflexivity.
Qed.

Lemma raw_exit_again self r s0 :
  0 < r ->
  solo (raw_exit self) (held self r s0)
  = Returns M_OK (held self (wrap_s32 (r - 1)) s0).
Proof.
  intros Hr. unfold raw_exit. autorewrite with solo.
  cbn [held monitor on_monitor with_monitor _owner with_owner with_recursions
       _recursions].
  rewrite bool_decide_eq_false_2 by (intros H; apply H; reflexivity).
  autorewrite with solo.
  cbn [held monitor on_monitor with_monitor _owner with_owner with_recursions
       _recursions].
  destruct (0 <? r) eqn:H; [|apply Z.ltb_ge in H; lia].
  autorewrite with solo. reflexivity.
Qed.

Lemma raw_exit_last self s0 :
  uncontended self s0 ->
  solo (raw_exit self) (held self 0 s0) = Returns M_OK s0.
Proof.
  intros (Ho & Hr & He & Hsr & Hsus). unfold raw_exit. autorewrite with solo.
  cbn [held monitor on_monitor with_monitor _owner with_owner with_recursions
       _recursions].
  rewrite bool_decide_eq_false_2 by (intros H; apply H; reflexivity).
  autorewrite with solo.
  cbn [held monitor on_monitor with_monitor _owner with_owner with_recursions
       _recursions Z.ltb Z.compare].
  unfold simple_exit. autorewrite with solo.
  cbn [held monitor on_monitor with_monitor _owner with_owner with_recursions
       _recursions].
  rewrite bool_decide_eq_true_2 by reflexivity.
  unfold OrderAccess_fence. autorewrite with solo.
  cbn [held monitor on_monitor with_monitor _owner with_owner with_recursions
       _recursions _entry_list].
  rewrite He. autorewrite with solo. f_equal.
  destruct s0 as [[] ?]; cbn in *; subst; reflexivity.
Qed.


Lemma raw_enter_times_held fuel self s0 (k : nat) : forall r,
  uncontended self s0 ->
  0 <= r -> r + Z.of_nat k < 2 ^ 31 ->
  solo (raw_enter_times k (S fuel) self) (held self r s0)
  = Returns tt (held self (r + Z.of_nat k) s0).
Proof.
  induction k as [|k IH]; intros r Hu H0 Hlt.
  - cbn. rewrite Z.add_0_r. reflexivity.
  - cbn [raw_enter_times]. rewrite solo_bind, raw_enter_again by exact Hu.
    rewrite wrap_s32_small by lia. rewrite IH by (auto; lia).
    f_equal. f_equal. lia.
Qed.

Lemma raw_exit_times_held self s0 (j : nat) : forall r,
  Z.of_nat j <= r < 2 ^ 31 ->
  solo (raw_exit_times j self) (held self r s0)
  = Returns (replicate j M_OK) (held self (r - Z.of_nat j) s0).
Proof.
  induction j as [|j IH]; intros r Hr.
  - cbn. rewrite Z.sub_0_r. reflexivity.
  - cbn [raw_exit_times]. rewrite solo_bind, raw_exit_again by lia.
    rewrite wrap_s32_small by lia. rewrite solo_bind, IH by lia.
    rewrite solo_mret. cbn [replicate]. f_equal. f_equal. lia.
Qed.

Lemma raw_exit_times_all self s0 (r : nat) :
  uncontended self s0 ->
  Z.of_nat r < 2 ^ 31 ->
  solo (raw_exit_times (S r) self) (held self (Z.of_nat r) s0)
  = Returns (replicate (S r) M_OK) s0.
Proof.
  intros Hu. induction r as [|r IH]; intros Hr.
  - cbn [raw_exit_times]. change (Z.of_nat 0) with 0.
    rewrite solo_bind, raw_exit_last by exact Hu. reflexivity.
  - remember (S r) as r1. cbn [raw_exit_times].
    rewrite solo_bind, raw_exit_again by lia.
    rewrite wrap_s32_small by lia.
    replace (Z.of_nat r1 - 1) with (Z.of_nat r) by lia.
    rewrite solo_bind, IH by lia. reflexivity.
Qed.

(** C4.  On a monitor that is free and uncontended, for a thread [self]
    that is not suspended, and for every k >= 1 within the range of the
    [int] recursion counter (k - 1 <= INT_MAX): after k calls of
    [raw_enter] followed by j < k calls of [raw_exit] (all returning
    [M_OK]) the owner is still [self] and [_recursions] is k - 1 - j;
    after the k-th [raw_exit] the state is the one before the sequence, so
    the owner is none again, for the first time since the first enter.
    On a monitor that [self] already holds, k enters followed by k exits
    leave the owner ([self]) and the recursion count as they were. *)
Theorem recursive_enter_exit fuel self s (k : nat) :
  uncontended self s ->
  (1 <= k)%nat -> Z.of_nat k <= 2 ^ 31 ->
  (forall j : nat, (j < k)%nat ->
     exists s',
       solo (raw_enter_times k (S fuel) self;; raw_exit_times j self) s
       = Returns (replicate j M_OK) s'
       /\ _owner (monitor s') = Some self
       /\ _recursions (monitor s') = Z.of_nat k - 1 - Z.of_nat j)
  /\ solo (raw_enter_times k (S fuel) self;; raw_exit_times k self) s
     = Returns (replicate k M_OK) s
  /\ _owner (monitor s) = None
  /\ (forall r, 0 <= r -> r + Z.of_nat k < 2 ^ 31 ->
        solo (raw_enter_times k (S fuel) self;; raw_exit_times k self)
          (held self r s)
        = Returns (replicate k M_OK) (held self r s)).
Proof.
  intros Hu Hk Hmax.
  assert (Henter : solo (raw_enter_times k (S fuel) self) s
                   = Returns tt (held self (Z.of_nat k - 1) s)).
  { destruct k as [|k]; [lia|]. cbn [raw_enter_times].
    rewrite solo_bind, raw_enter_free by exact Hu.
    rewrite raw_enter_times_held by (auto; lia). f_equal. f_equal. lia. }
  split; [|split; [|split]].
  - intros j Hj. eexists. rewrite solo_bind, Henter.
    rewrite raw_exit_times_held by lia. split; [reflexivity|].
    split; reflexivity.
  - rewrite solo_bind, Henter. destruct k as [|k]; [lia|].
    replace (Z.of_nat (S k) - 1) with (Z.of_nat k) by lia.
    apply raw_exit_times_all; [exact Hu | lia].
  - apply Hu.
  - intros r Hr Hlt.
    rewrite solo_bind, raw_enter_times_held by (auto; lia).
    rewrite raw_exit_times_held by lia. f_equal. f_equal. lia.
Qed.

Lemma recursive_enter_exit_witness :
  uncontended thread_A fresh
  /\ (1 <= 5)%nat /\ Z.of_nat 5 <= 2 ^ 31
  /\ solo (raw_enter_times 5 1 thread_A;; raw_exit_times 5 thread_A) fresh
     = Returns [M_OK; M_OK; M_OK; M_OK; M_OK] fresh.
Proof.
  assert (H1 : uncontended thread_A fresh).
  { repeat split; apply not_elem_of_empty. }
  assert (H2 : (1 <= 5)%nat) by lia.
  assert (H3 : Z.of_nat 5 <= 2 ^ 31) by (vm_compute; discriminate).
  split; [exact H1|]. split; [exact H2|]. split; [exact H3|].
  exact (proj1 (proj2 (recursive_enter_exit 0 thread_A fresh 5 H1 H2 H3))).
Defined.

(** *** The entry list *)

Lemma advance_bind_state {A B : Type} (p : Prog A) (k : A -> Prog B) s :
  (advance (p ≫= k) s).2
  = match solo p s with
    | Returns a s' => (advance (k a) s').2
    | _ => (advance p s).2
    end.
Proof.
  revert s. induction p as [a|C act k' IH|]; intros s; [reflexivity| |reflexivity].
  change (advance (Act act k' ≫= k) s)
    with (match act s with
          | Ok b s' => advance (k' b ≫= k) s'
          | Blocked | Crash => (Act act k' ≫= k, s)
          end).
  cbn [solo advance]. destruct (act s); [apply IH|reflexivity|reflexivity].
Qed.

Lemma solo_replace_if_null self s :
  solo (replace_if_null self) s
  = match _owner (monitor s) with
    | None => Returns true (on_monitor (with_owner (Some self)) s)
    | Some _ => Returns false s
    end.
Proof. unfold replace_if_null, atomic. cbn. destruct (_owner (monitor s)); reflexivity. Qed.

Lemma solo_alloc_QNode self s :
  solo (alloc_QNode self) s
  = Returns (next_node s)
      (with_nodes (<[next_node s := new_QNode self]> (nodes s)) (S (next_node s)) s).
Proof. reflexivity. Qed.

Lemma solo_ParkEvent_reset self s :
  solo (ParkEvent_reset self) s
  = Returns tt (with_park_event (park_event s ∖ {[self]}) s).
Proof. reflexivity. Qed.

Lemma solo_ParkEvent_unpark ev s :
  solo (ParkEvent_unpark ev) s
  = Returns tt (with_unparked (unparked s ++ [ev])
                  (with_park_event (park_event s ∪ {[ev]}) s)).
Proof. reflexivity. Qed.

Lemma solo_store_node a g n s :
  nodes s !! a = Some n ->
  solo (store_node a g) s
  = Returns tt (with_nodes (<[a := g n]> (nodes s)) (next_node s) s).
Proof. intros H. unfold store_node, atomic. cbn. rewrite H. reflexivity. Qed.

Lemma solo_load_node {B : Type} a (g : QNode -> B) n s :
  nodes s !! a = Some n ->
  solo (load_node a g) s = Returns (g n) s.
Proof. intros H. unfold load_node, atomic. cbn. rewrite H. reflexivity. Qed.

Lemma solo_RawMonitor_lock_lock self s :
  RawMonitor_lock s = None ->
  solo (RawMonitor_lock_lock self) s
  = Returns tt (with_RawMonitor_lock (Some self) s).
Proof. intros H. unfold RawMonitor_lock_lock, atomic. cbn. rewrite H. reflexivity. Qed.

Lemma solo_RawMonitor_lock_unlock s :
  solo RawMonitor_lock_unlock s = Returns tt (with_RawMonitor_lock None s).
Proof. reflexivity. Qed.

#[local] Hint Rewrite solo_replace_if_null solo_alloc_QNode solo_ParkEvent_reset
  solo_ParkEvent_unpark solo_RawMonitor_lock_unlock : solo.

Lemma threads_of_insert h a n l :
  a ∉ l -> threads_of (<[a := n]> h) l = threads_of h l.
Proof.
  induction l as [|b l IH]; intros Hn; [reflexivity|].
  apply not_elem_of_cons in Hn as [Hne Hn]. cbn.
  rewrite lookup_insert_ne by exact Hne. rewrite (IH Hn). reflexivity.
Qed.

Lemma park_while_TS_ENTER_unfold fuel self node :
  park_while_TS_ENTER (S fuel) self node
  = (st ← load_node node _t_state;
     if bool_decide (st = TS_ENTER) then
       ParkEvent_park self;;
       park_while_TS_ENTER fuel self node
     else mret tt).
Proof. reflexivity. Qed.

Lemma simple_enter_unfold fuel self :
  simple_enter (S fuel) self
  = (acquired ← replace_if_null self;
     if acquired : bool then mret tt
     else
       node ← alloc_QNode self;
       ParkEvent_reset self;;
       store_node node (with_t_state TS_ENTER);;
       RawMonitor_lock_lock self;;
       next ← load (fun s => _entry_list (monitor s));
       store (on_monitor (with_entry_list (node :: next)));;
       OrderAccess_fence;;
       owner ← load (fun s => _owner (monitor s));
       acquired ← (if bool_decide (owner = None) then replace_if_null self
                   else mret false);
       if acquired : bool then
         store (on_monitor (with_entry_list next));;
         RawMonitor_lock_unlock;;
         mret tt
       else
         RawMonitor_lock_unlock;;
         park_while_TS_ENTER fuel self node;;
         simple_enter fuel self).
Proof. reflexivity. Qed.

Lemma park_while_TS_ENTER_blocks fuel t a n s :
  nodes s !! a = Some n -> _t_state n = TS_ENTER -> t ∉ park_event s ->
  solo (park_while_TS_ENTER (S fuel) t a) s = Blocks
  /\ (advance (park_while_TS_ENTER (S fuel) t a) s).2 = s.
Proof.
  intros Hn Hst Hp. rewrite park_while_TS_ENTER_unfold.
  rewrite solo_bind, advance_bind_state, (solo_load_node _ _ n) by exact Hn.
  rewrite Hst, bool_decide_eq_true_2 by reflexivity.
  rewrite solo_bind, advance_bind_state.
  assert (H : solo (ParkEvent_park t) s = Blocks
              /\ (advance (ParkEvent_park t) s).2 = s).
  { unfold ParkEvent_park, atomic. cbn.
    rewrite bool_decide_eq_false_2 by exact Hp. auto. }
  destruct H as [-> ->]. auto.
Qed.

Lemma simple_enter_parks fuel t s :
  RawMonitor_lock s = None ->
  _owner (monitor s) <> None ->
  (advance (simple_enter (S (S fuel)) t) s).2 = parked_in_simple_enter t s.
Proof.
  intros Hl Ho. destruct (_owner (monitor s)) as [o|] eqn:Hown; [clear Ho|congruence].
  rewrite simple_enter_unfold.
  rewrite advance_bind_state, solo_replace_if_null, Hown.
  rewrite advance_bind_state, solo_alloc_QNode.
  rewrite advance_bind_state, solo_ParkEvent_reset.
  rewrite advance_bind_state,
    (solo_store_node _ _ (new_QNode t)) by apply lookup_insert_eq.
  rewrite advance_bind_state, solo_RawMonitor_lock_lock by exact Hl.
  rewrite advance_bind_state, solo_load.
  rewrite advance_bind_state, solo_store.
  unfold OrderAccess_fence.
  rewrite advance_bind_state, solo_mret.
  rewrite advance_bind_state, solo_load.
  cbn [monitor on_monitor with_monitor with_RawMonitor_lock with_nodes
       with_park_event _owner with_entry_list].
  rewrite Hown, bool_decide_eq_false_2 by discriminate.
  rewrite advance_bind_state, solo_mret.
  rewrite advance_bind_state, solo_RawMonitor_lock_unlock.
  rewrite advance_bind_state.
  match goal with
  | |- context [solo (park_while_TS_ENTER (S fuel) t ?a) ?s'] =>
      destruct (park_while_TS_ENTER_blocks fuel t a
                  (with_t_state TS_ENTER (new_QNode t)) s') as [-> ->]
  end.
  - apply lookup_insert_eq.
  - reflexivity.
  - cbn. apply not_elem_of_difference. right. apply elem_of_singleton. reflexivity.
  - unfold parked_in_simple_enter. destruct s; reflexivity.
Qed.

Lemma simple_exit_wakes_head o w n next s :
  RawMonitor_lock s = None ->
  _owner (monitor s) = Some o ->
  _entry_list (monitor s) = w :: next ->
  nodes s !! w = Some n ->
  _t_state n = TS_ENTER ->
  solo (simple_exit o) s = Returns tt (after_simple_exit w n next s).
Proof.
  intros Hl Ho He Hn Hst. unfold simple_exit.
  autorewrite with solo. rewrite Ho, bool_decide_eq_true_2 by reflexivity.
  autorewrite with solo. unfold OrderAccess_fence, OrderAccess_loadstore.
  autorewrite with solo.
  cbn [monitor on_monitor with_monitor with_owner _entry_list].
  rewrite He.
  rewrite solo_bind, solo_RawMonitor_lock_lock by exact Hl.
  autorewrite with solo.
  cbn [monitor on_monitor with_monitor with_owner _entry_list with_RawMonitor_lock].
  rewrite He.
  autorewrite with solo.
  rewrite (solo_load_node _ _ n) by exact Hn.
  autorewrite with solo. rewrite Hst, bool_decide_eq_true_2 by reflexivity.
  autorewrite with solo.
  rewrite (solo_load_node _ _ n) by exact Hn.
  autorewrite with solo.
  rewrite (solo_store_node _ _ n) by exact Hn.
  autorewrite with solo. f_equal.
Qed.

Example contenders_are_woken_latest_first :
  (* A enters; B calls raw_enter and parks; C calls raw_enter and parks;
     A exits: C is woken; C acquires the monitor and exits: B is woken *)
  observe (pool_run (steps 6 0 ++ steps 14 1 ++ steps 14 2 ++ steps 14 0 ++ steps 20 2)
             contenders fresh)
  = Observe {| returned := [Some M_OK; None; Some M_OK];
               owner_now := None;
               recursions_now := 0;
               entry_list_now := Some [];
               unparked_so_far := [thread_C; thread_B] |}.
Proof. vm_compute. reflexivity. Qed.

(** C3, as stated, fails.  A holds the monitor; B calls [raw_enter] and
    parks, then C does.  B's node was enqueued first, yet the exit of A
    wakes C: the first call of [unpark] is for C, and B's node is the one
    left on the entry list. *)
Lemma entry_list_is_not_fifo :
  (* A has entered, B has parked *)
  observe (pool_run (steps 6 0 ++ steps 14 1) contenders fresh)
  = Observe {| returned := [None; None; None];
               owner_now := Some thread_A;
               recursions_now := 0;
               entry_list_now := Some [thread_B];
               unparked_so_far := [] |}
  (* then C has parked *)
  /\ observe (pool_run (steps 6 0 ++ steps 14 1 ++ steps 14 2) contenders fresh)
     = Observe {| returned := [None; None; None];
                  owner_now := Some thread_A;
                  recursions_now := 0;
                  entry_list_now := Some [thread_C; thread_B];
                  unparked_so_far := [] |}
  (* then A has exited: it woke C, not B *)
  /\ observe (pool_run (steps 6 0 ++ steps 14 1 ++ steps 14 2 ++ steps 14 0)
                contenders fresh)
     = Observe {| returned := [Some M_OK; None; None];
                  owner_now := None;
                  recursions_now := 0;
                  entry_list_now := Some [thread_B];
                  unparked_so_far := [thread_C] |}.
Proof. repeat split; vm_compute; reflexivity. Qed.

Lemma entry_threads_cons s hd tl :
  entry_threads s = Some (hd :: tl) ->
  exists w next n,
    _entry_list (monitor s) = w :: next
    /\ nodes s !! w = Some n /\ _t_state n = TS_ENTER /\ _event n = hd
    /\ threads_of (nodes s) next = Some tl.
Proof.
  unfold entry_threads. destruct (_entry_list (monitor s)) as [|w next]; [discriminate|].
  cbn. destruct (nodes s !! w) as [n|] eqn:Hn; [|discriminate].
  destruct (bool_decide (_t_state n = TS_ENTER)) eqn:Hst; [|discriminate].
  apply bool_decide_eq_true in Hst.
  destruct (threads_of (nodes s) next) as [l|] eqn:Hl; [|discriminate].
  cbn. intros [= <- <-]. exists w, next, n. auto.
Qed.

(** C3, as amended.  The entry list is a stack.  In a state where [o]
    holds the monitor and the nodes of the threads [ts] are on the entry
    list (head first): a thread [t] that calls [simple_enter] parks with
    its node linked at the head, in front of those of [ts]; and
    [simple_exit] by the owner unlinks the node at the head of the list
    and wakes its thread.  So in every sequence of [simple_enter] enqueues
    followed by [simple_exit] wakeups each exit wakes the
    latest-enqueued node still on the entry list, and the list is drained
    in the reverse of the order of enqueueing. *)
Theorem entry_list_is_a_stack fuel o t ts s :
  RawMonitor_lock s = None ->
  _owner (monitor s) = Some o ->
  entry_list_ok s ->
  entry_threads s = Some ts ->
  (entry_threads (advance (simple_enter (S (S fuel)) t) s).2 = Some (t :: ts)
   /\ entry_list_ok (advance (simple_enter (S (S fuel)) t) s).2
   /\ RawMonitor_lock (advance (simple_enter (S (S fuel)) t) s).2 = None
   /\ _owner (monitor (advance (simple_enter (S (S fuel)) t) s).2) = Some o
   /\ unparked (advance (simple_enter (S (S fuel)) t) s).2 = unparked s)
  /\ (forall hd tl, ts = hd :: tl ->
        exists s',
          solo (simple_exit o) s = Returns tt s'
          /\ unparked s' = unparked s ++ [hd]
          /\ entry_threads s' = Some tl
          /\ entry_list_ok s'
          /\ RawMonitor_lock s' = None
          /\ _owner (monitor s') = None).
Proof.
  intros Hl Ho [Hnd Hlt] Hts. split.
  - rewrite simple_enter_parks by (auto; congruence).
    assert (Hfresh : next_node s ∉ _entry_list (monitor s)).
    { intros Hin. rewrite Forall_forall in Hlt. specialize (Hlt _ Hin). lia. }
    split; [|split; [|split; [reflexivity|split; [exact Ho|reflexivity]]]].
    + unfold entry_threads, parked_in_simple_enter. cbn.
      rewrite lookup_insert_eq. cbn.
      rewrite !threads_of_insert by exact Hfresh.
      unfold entry_threads in Hts. rewrite Hts. reflexivity.
    + split; cbn.
      * constructor; assumption.
      * constructor; [lia|]. eapply Forall_impl; [exact Hlt|]. cbn. lia.
  - intros hd tl ->.
    destruct (entry_threads_cons _ _ _ Hts) as (w & next & n & He & Hn & Hst & Hev & Htl).
    exists (after_simple_exit w n next s).
    rewrite (simple_exit_wakes_head o w n next s) by assumption.
    rewrite He in Hnd, Hlt. apply NoDup_cons in Hnd as [Hw Hnd].
    apply Forall_cons in Hlt as [_ Hlt].
    split; [reflexivity|]. split; [cbn; rewrite Hev; reflexivity|].
    split; [|split; [split; assumption|split; reflexivity]].
    unfold entry_threads, after_simple_exit. cbn.
    rewrite threads_of_insert by exact Hw. exact Htl.
Qed.

Lemma entry_list_is_a_stack_witness :
  RawMonitor_lock example_contended = None
  /\ _owner (monitor example_contended) = Some thread_A
  /\ entry_list_ok example_contended
  /\ entry_threads example_contended = Some [thread_C; thread_B]
  /\ exists s',
       solo (simple_exit thread_A) example_contended = Returns tt s'
       /\ unparked s' = unparked example_contended ++ [thread_C]
       /\ entry_threads s' = Some [thread_B]
       /\ entry_list_ok s'
       /\ RawMonitor_lock s' = None
       /\ _owner (monitor s') = None.
Proof.
  assert (H1 : RawMonitor_lock example_contended = None) by reflexivity.
  assert (H2 : _owner (monitor example_contended) = Some thread_A) by reflexivity.
  assert (H3 : entry_list_ok example_contended).
  { split; cbn.
    - repeat constructor; rewrite ?elem_of_cons, ?elem_of_nil; intuition lia.
    - repeat constructor. }
  assert (H4 : entry_threads example_contended = Some [thread_C; thread_B])
    by (vm_compute; reflexivity).
  split; [exact H1|]. split; [exact H2|]. split; [exact H3|]. split; [exact H4|].
  exact (proj2 (entry_list_is_a_stack 0 thread_A thread_A _ _ H1 H2 H3 H4)
           thread_C [thread_B] eq_refl).
Defined.

(** *** Waiting *)

(** Scenario S4 when nobody suspends the waiter: W holds the monitor with
    [_recursions == 2], calls [raw_wait] and is interrupted while parked;
    [raw_wait] returns [M_INTERRUPTED], W owns the monitor and
    [_recursions] is 2 again. *)
Example interrupted_wait :
  observe (pool_run (steps 16 0) waiter_S4 fresh)
  = Observe {| returned := [None];
               owner_now := Some thread_A;
               recursions_now := 2;
               entry_list_now := Some [];
               unparked_so_far := [] |}
  /\ observe (pool_run (steps 16 0 ++ steps 19 0 ++ [interrupt thread_A] ++ steps 18 0)
                waiter_S4 fresh)
     = Observe {| returned := [Some M_INTERRUPTED];
                  owner_now := Some thread_A;
                  recursions_now := 2;
                  entry_list_now := Some [];
                  unparked_so_far := [] |}.
Proof. split; vm_compute; reflexivity. Qed.

(** C6 fails on the code.  W owns the monitor with [_recursions == 0] and
    calls [raw_wait]; X, which entered twice, waits too; both are
    suspended while they wait and W is interrupted.  [raw_wait] restores
    [_recursions] before its loop that honours a suspension, and that
    loop releases the monitor with the restored count in it.  So X leaves
    its own count, 1, in the free monitor, and W, on reacquiring, returns
    [M_INTERRUPTED] as the owner of a monitor whose [_recursions] is 1,
    not the 0 it had when W called [raw_wait]. *)
Theorem interrupted_wait_can_return_with_other_recursions :
  (* when W calls raw_wait *)
  observe (pool_run schedule_W_enters two_waiters fresh)
  = Observe {| returned := [None; None];
               owner_now := Some thread_A;
               recursions_now := 0;
               entry_list_now := Some [];
               unparked_so_far := [] |}
  (* when W's raw_wait has returned *)
  /\ observe (pool_run (schedule_W_enters ++ schedule_suspended_waiters)
                two_waiters fresh)
     = Observe {| returned := [Some M_INTERRUPTED; None];
                  owner_now := Some thread_A;
                  recursions_now := 1;
                  entry_list_now := Some [];
                  unparked_so_far := [] |}.
Proof. split; vm_compute; reflexivity. Qed.

(** The same defect, seen by a third party: the suspended waiter has left
    the monitor free with [_recursions == 1]; the next thread to call
    [raw_enter] acquires it and fails [guarantee(_recursions == 0)]. *)
Example enter_after_suspended_waiter_aborts :
  observe (pool_run (steps 30 0 ++ [suspend thread_B] ++ steps 20 0 ++ steps 5 1)
             waiter_and_enterer fresh)
  = Observe {| returned := [None; None];
               owner_now := Some thread_C;
               recursions_now := 1;
               entry_list_now := Some [];
               unparked_so_far := [] |}
  /\ observe (pool_run (steps 30 0 ++ [suspend thread_B] ++ steps 20 0 ++ steps 6 1)
                waiter_and_enterer fresh)
     = VMAbort.
Proof. split; vm_compute; reflexivity. Qed.

(** *** Notification *)

Lemma owner_check self s :
  _owner (monitor s) = Some self ->
  bool_decide (Some self <> _owner (monitor s)) = false.
Proof. intros H. apply bool_decide_eq_false_2. intros Hne. apply Hne. congruence. Qed.

(** X16.  [raw_notify] by the owner.  With an empty wait set it (and
    [raw_notifyAll]) returns [M_OK] and changes nothing: no lock is taken,
    nobody is unparked.  Otherwise it unlinks the node at the head of the
    wait set -- the one of the thread that started to wait last --, sets
    its state to [TS_RUN] and unparks its thread, once; the other waiters
    stay on the wait set, and the owner, the recursion count and the entry
    list are as before. *)
Theorem raw_notify_wakes_the_latest_waiter fuel self s :
  _owner (monitor s) = Some self ->
  RawMonitor_lock s = None ->
  (_wait_set (monitor s) = [] ->
   solo (raw_notify fuel self) s = Returns M_OK s
   /\ solo (raw_notifyAll fuel self) s = Returns M_OK s)
  /\ (forall w next n,
        _wait_set (monitor s) = w :: next ->
        nodes s !! w = Some n ->
        solo (raw_notify (S fuel) self) s
        = Returns M_OK (after_notify w n next s)).
Proof.
  intros Ho Hl. split.
  - intros Hw. unfold raw_notify, raw_notifyAll, simple_notify.
    autorewrite with solo. rewrite (owner_check _ _ Ho).
    autorewrite with solo. rewrite Ho, bool_decide_eq_true_2 by reflexivity.
    autorewrite with solo. rewrite Hw. autorewrite with solo. auto.
  - intros w next n Hw Hn. unfold raw_notify, simple_notify.
    autorewrite with solo. rewrite (owner_check _ _ Ho).
    autorewrite with solo. rewrite Ho, bool_decide_eq_true_2 by reflexivity.
    autorewrite with solo. rewrite Hw.
    rewrite solo_bind, solo_RawMonitor_lock_lock by exact Hl.
    cbn [notify_loop]. unfold OrderAccess_loadstore, OrderAccess_storeload.
    autorewrite with solo.
    cbn [monitor with_RawMonitor_lock]. rewrite Hw.
    autorewrite with solo.
    rewrite (solo_load_node _ _ n) by exact Hn.
    autorewrite with solo.
    rewrite (solo_store_node _ _ n) by exact Hn.
    autorewrite with solo.
    unfold after_notify. destruct s. cbn in *. reflexivity.
Qed.

Lemma raw_notify_wakes_the_latest_waiter_witness :
  _owner (monitor example_waiters) = Some thread_A
  /\ RawMonitor_lock example_waiters = None
  /\ exists s',
       solo (raw_notify 1 thread_A) example_waiters = Returns M_OK s'
       /\ _wait_set (monitor s') = [0%nat]
       /\ unparked s' = [thread_C].
Proof.
  assert (H1 : _owner (monitor example_waiters) = Some thread_A) by reflexivity.
  assert (H2 : RawMonitor_lock example_waiters = None) by reflexivity.
  split; [exact H1|]. split; [exact H2|].
  eexists. split.
  - exact (proj2 (raw_notify_wakes_the_latest_waiter 0 thread_A example_waiters H1 H2)
             1%nat [0%nat] (with_t_state TS_WAIT (new_QNode thread_C))
             eq_refl eq_refl).
  - split; reflexivity.
Defined.

Lemma events_of_insert_t_state h w n st l :
  h !! w = Some n ->
  events_of (<[w := with_t_state st n]> h) l = events_of h l.
Proof.
  intros Hn. unfold events_of. induction l as [|a l IH]; [reflexivity|].
  cbn [omap list_omap]. rewrite IH.
  destruct (decide (a = w)) as [->|Hne].
  - rewrite lookup_insert_eq, Hn. reflexivity.
  - rewrite lookup_insert_ne by congruence. reflexivity.
Qed.

Lemma events_of_cons h w n l :
  h !! w = Some n -> events_of h (w :: l) = _event n :: events_of h l.
Proof. intros Hn. unfold events_of. cbn [omap list_omap]. rewrite Hn. reflexivity. Qed.

(** The loop of [simple_notify] for [notifyAll], entered with the event
    [ev] of the previous round still to be unparked. *)
Lemma notify_loop_all l : forall fuel ev s,
  _wait_set (monitor s) = l ->
  (forall a, a ∈ l -> is_Some (nodes s !! a)) ->
  (length l < fuel)%nat ->
  exists ev' s',
    solo (notify_loop fuel true ev) s = Returns ev' s'
    /\ _wait_set (monitor s') = []
    /\ unparked s' ++ option_list ev'
       = unparked s ++ option_list ev ++ events_of (nodes s) l
    /\ (forall t, t ∈ park_event s' \/ ev' = Some t
                  <-> t ∈ park_event s \/ ev = Some t
                      \/ t ∈ events_of (nodes s) l)
    /\ (forall a, nodes s' !! a
                  = if decide (a ∈ l) then with_t_state TS_RUN <$> nodes s !! a
                    else nodes s !! a)
    /\ notify_frame s s'.
Proof.
  induction l as [|w next IH]; intros fuel ev s Hw Hnodes Hfuel.
  - destruct fuel as [|fuel]; [cbn in Hfuel; lia|].
    exists ev, s. cbn [notify_loop]. autorewrite with solo. rewrite Hw.
    autorewrite with solo. split; [reflexivity|]. split; [first [exact Hw | reflexivity]|].
    split; [cbn; rewrite !app_nil_r; reflexivity|].
    split; [intros t; cbn; rewrite elem_of_nil; tauto|].
    split; [intros a; reflexivity|]. repeat split.
  - destruct fuel as [|fuel]; [cbn in Hfuel; lia|]. cbn [length] in Hfuel.
    destruct (Hnodes w ltac:(left)) as [n Hn].
    set (s1 := on_monitor (with_wait_set next) s).
    set (s2 := match ev with
               | Some e => with_unparked (unparked s1 ++ [e])
                             (with_park_event (park_event s1 ∪ {[e]}) s1)
               | None => s1
               end).
    set (s3 := with_nodes (<[w := with_t_state TS_RUN n]> (nodes s2))
                 (next_node s2) s2).
    assert (Hn2 : nodes s2 = nodes s) by (unfold s2; destruct ev; reflexivity).
    assert (Hstep : solo (notify_loop (S fuel) true ev) s
                    = solo (notify_loop fuel true (Some (_event n))) s3).
    { cbn [notify_loop]. unfold OrderAccess_loadstore, OrderAccess_storeload.
      autorewrite with solo. rewrite Hw. autorewrite with solo. fold s1.
      assert (He : solo match ev with
                        | Some e => ParkEvent_unpark e
                        | None => mret ()
                        end s1 = Returns tt s2).
      { unfold s2. destruct ev; reflexivity. }
      rewrite He.
      rewrite solo_bind, (solo_load_node _ _ n) by (rewrite Hn2; exact Hn).
      autorewrite with solo.
      rewrite (solo_store_node _ _ n) by (rewrite Hn2; exact Hn).
      autorewrite with solo. reflexivity. }
    assert (Hn3 : nodes s3 = <[w := with_t_state TS_RUN n]> (nodes s))
      by (unfold s3; cbn; rewrite Hn2; reflexivity).
    destruct (IH fuel (Some (_event n)) s3) as (ev' & s' & Hs & H1 & H2 & H3 & H4 & H5).
    { unfold s3, s2, s1. destruct ev; reflexivity. }
    { intros a Ha. rewrite Hn3. apply lookup_insert_is_Some'.
      right. apply Hnodes. right. exact Ha. }
    { lia. }
    exists ev', s'. rewrite Hstep. split; [exact Hs|]. split; [exact H1|].
    rewrite Hn3, events_of_insert_t_state in H2, H3 by exact Hn.
    rewrite (events_of_cons _ _ _ _ Hn).
    split; [|split; [|split]].
    + rewrite H2. unfold s3, s2, s1. destruct ev; cbn; rewrite <- ?app_assoc;
        reflexivity.
    + intros t. rewrite H3, elem_of_cons. unfold s3, s2, s1.
      destruct ev as [e|]; cbn.
      * rewrite elem_of_union, elem_of_singleton.
        split; [intros [[H|H]|[H|H]]|intros [H|[H|[H|H]]]]; subst;
          try injection H as <-; auto.
      * split; [intros [H|[H|H]]|intros [H|[H|[H|H]]]]; subst;
          try injection H as <-; try discriminate; auto.
    + intros a. rewrite H4, Hn3.
      destruct (decide (a = w)) as [->|Hne].
      * rewrite lookup_insert_eq, Hn.
        rewrite (decide_True (P := w ∈ w :: next)) by left.
        destruct (decide (w ∈ next)); destruct n; reflexivity.
      * rewrite lookup_insert_ne by congruence.
        destruct (decide (a ∈ next)) as [Hin|Hnin].
        -- rewrite decide_True by (right; exact Hin). reflexivity.
        -- rewrite decide_False; [reflexivity|].
           intros Hin. apply elem_of_cons in Hin as [?|?]; contradiction.
    + destruct H5 as (A1 & A2 & A3 & A4 & A5 & A6 & A7 & A8 & A9 & A10).
      unfold notify_frame. rewrite A1, A2, A3, A4, A5, A6, A7, A8, A9, A10.
      unfold s3, s2, s1. destruct ev; repeat split.
Qed.

(** X17.  [raw_notifyAll] by the owner empties the wait set: every node
    that was on it gets the state [TS_RUN], and the threads of these nodes
    are unparked, each once, in the order of the wait set (the latest
    waiter first); nothing else changes -- the owner keeps the monitor
    with the same recursion count, the entry list and the count of waiters
    are as before, and the queue lock is free again. *)
Theorem raw_notifyAll_wakes_every_waiter fuel self s :
  _owner (monitor s) = Some self ->
  RawMonitor_lock s = None ->
  (forall a, a ∈ _wait_set (monitor s) -> is_Some (nodes s !! a)) ->
  (length (_wait_set (monitor s)) < fuel)%nat ->
  exists s',
    solo (raw_notifyAll fuel self) s = Returns M_OK s'
    /\ _wait_set (monitor s') = []
    /\ unparked s' = unparked s ++ events_of (nodes s) (_wait_set (monitor s))
    /\ (forall t, t ∈ park_event s'
                  <-> t ∈ park_event s
                      \/ t ∈ events_of (nodes s) (_wait_set (monitor s)))
    /\ (forall a, nodes s' !! a
                  = if decide (a ∈ _wait_set (monitor s))
                    then with_t_state TS_RUN <$> nodes s !! a
                    else nodes s !! a)
    /\ notify_frame s s'.
Proof.
  intros Ho Hl Hnodes Hfuel.
  destruct (_wait_set (monitor s)) as [|w next] eqn:Hw.
  - exists s. unfold raw_notifyAll, simple_notify.
    autorewrite with solo. rewrite (owner_check _ _ Ho).
    autorewrite with solo. rewrite Ho, bool_decide_eq_true_2 by reflexivity.
    autorewrite with solo. rewrite Hw. autorewrite with solo.
    split; [reflexivity|]. split; [first [exact Hw | reflexivity]|].
    split; [cbn; rewrite app_nil_r; reflexivity|].
    split; [intros t; cbn; rewrite elem_of_nil; tauto|].
    split; [intros a; reflexivity|]. repeat split.
  - destruct (notify_loop_all (w :: next) fuel None
                (with_RawMonitor_lock (Some self) s) Hw Hnodes Hfuel)
      as (ev' & s1 & Hs & H1 & H2 & H3 & H4 & H5).
    cbn [unparked nodes park_event with_RawMonitor_lock option_list app] in H2, H3, H4.
    destruct H5 as (A1 & A2 & A3 & A4 & A5 & A6 & A7 & A8 & A9 & A10).
    cbn [monitor with_RawMonitor_lock RawMonitor_lock SR_lock next_node
         interrupted external_suspend] in A1, A2, A3, A4, A5, A6, A7, A8, A9, A10.
    set (s2 := with_RawMonitor_lock None s1).
    exists (match ev' with
            | Some e => with_unparked (unparked s2 ++ [e])
                          (with_park_event (park_event s2 ∪ {[e]}) s2)
            | None => s2
            end).
    split.
    + unfold raw_notifyAll, simple_notify.
      autorewrite with solo. rewrite (owner_check _ _ Ho).
      autorewrite with solo. rewrite Ho, bool_decide_eq_true_2 by reflexivity.
      autorewrite with solo. rewrite Hw.
      rewrite solo_bind, solo_RawMonitor_lock_lock by exact Hl.
      rewrite solo_bind, Hs. autorewrite with solo. fold s2.
      destruct ev'; reflexivity.
    + split; [destruct ev'; exact H1|].
      split; [destruct ev'; cbn in *; [exact H2 | rewrite app_nil_r in H2; exact H2]|].
      split.
      * intros t. specialize (H3 t). destruct H3 as [H3a H3b].
        destruct ev' as [e|]; cbn.
        -- rewrite elem_of_union, elem_of_singleton. split.
           ++ intros [H|H];
                [destruct (H3a (or_introl H)) as [?|[?|?]]
                |subst; destruct (H3a (or_intror eq_refl)) as [?|[?|?]]];
                try discriminate; auto.
           ++ intros H.
              destruct (H3b ltac:(tauto)) as [?|Heq];
                [auto | injection Heq as ->; auto].
        -- split.
           ++ intros H. destruct (H3a (or_introl H)) as [?|[?|?]];
                try discriminate; auto.
           ++ intros H. destruct (H3b ltac:(tauto)) as [?|?];
                [auto | discriminate].
      * split; [intros a; rewrite <- H4; destruct ev'; reflexivity|].
        unfold notify_frame. destruct ev'; cbn;
          rewrite A1, A2, A3, A4, A5, A7, A8, A9, A10; rewrite Hl; repeat split.
Qed.

Lemma raw_notifyAll_wakes_every_waiter_witness :
  _owner (monitor example_waiters) = Some thread_A
  /\ RawMonitor_lock example_waiters = None
  /\ (forall a, a ∈ _wait_set (monitor example_waiters) ->
        is_Some (nodes example_waiters !! a))
  /\ (length (_wait_set (monitor example_waiters)) < 3)%nat
  /\ exists s',
       solo (raw_notifyAll 3 thread_A) example_waiters = Returns M_OK s'
       /\ _wait_set (monitor s') = []
       /\ unparked s' = [thread_C; thread_B].
Proof.
  assert (H1 : _owner (monitor example_waiters) = Some thread_A) by reflexivity.
  assert (H2 : RawMonitor_lock example_waiters = None) by reflexivity.
  assert (H3 : forall a, a ∈ _wait_set (monitor example_waiters) ->
                 is_Some (nodes example_waiters !! a)).
  { intros a Ha. cbn in Ha.
    apply elem_of_cons in Ha as [->|Ha];
      [|apply elem_of_cons in Ha as [->|Ha]; [|inversion Ha]];
      eexists; reflexivity. }
  assert (H4 : (length (_wait_set (monitor example_waiters)) < 3)%nat)
    by (cbn; lia).
  split; [exact H1|]. split; [exact H2|]. split; [exact H3|]. split; [exact H4|].
  destruct (raw_notifyAll_wakes_every_waiter 3 thread_A example_waiters H1 H2 H3 H4)
    as (s' & Hs & Hw & Hu & _).
  exists s'. split; [exact Hs|]. split; [exact Hw|]. rewrite Hu. reflexivity.
Defined.

(** *** Leaving the wait set *)

Lemma unlink_middle node before after :
  node ∉ before -> unlink node (before ++ node :: after) = Some (before ++ after).
Proof.
  induction before as [|p before IH]; intros Hn; cbn.
  - rewrite bool_decide_eq_true_2 by reflexivity. reflexivity.
  - apply not_elem_of_cons in Hn as [Hne Hn].
    rewrite bool_decide_eq_false_2 by congruence.
    rewrite (IH Hn). reflexivity.
Qed.

(** X18.  [dequeue_waiter] on the node of a thread that stopped waiting.
    If the node was notified in the meantime (its state is [TS_RUN], the
    notifier has unlinked it), nothing is done: the wait set is not
    touched and the queue lock is not taken.  If the node is still waiting
    ([TS_WAIT]: the wait timed out or was interrupted), exactly this node
    is unlinked, wherever it stands on the wait set; the nodes before and
    after it stay, in their order, and the node's state becomes [TS_RUN]. *)
Theorem dequeue_waiter_unlinks_the_node self node n s :
  nodes s !! node = Some n ->
  (_t_state n = TS_RUN -> solo (dequeue_waiter self node) s = Returns tt s)
  /\ (forall before after,
        _t_state n = TS_WAIT ->
        RawMonitor_lock s = None ->
        _wait_set (monitor s) = before ++ node :: after ->
        node ∉ before ->
        solo (dequeue_waiter self node) s
        = Returns tt (after_dequeue node n before after s)).
Proof.
  intros Hn. split.
  - intros Hst. unfold dequeue_waiter.
    autorewrite with solo. rewrite (solo_load_node _ _ n) by exact Hn.
    rewrite Hst, bool_decide_eq_false_2 by discriminate.
    autorewrite with solo.
    rewrite (solo_load_node _ _ n) by exact Hn.
    autorewrite with solo. rewrite Hst, bool_decide_eq_true_2 by reflexivity.
    reflexivity.
  - intros before after Hst Hl Hw Hnb. unfold dequeue_waiter.
    autorewrite with solo. rewrite (solo_load_node _ _ n) by exact Hn.
    rewrite Hst, bool_decide_eq_true_2 by reflexivity.
    autorewrite with solo. rewrite solo_RawMonitor_lock_lock by exact Hl.
    autorewrite with solo. rewrite (solo_load_node _ _ n) by exact Hn.
    rewrite Hst, bool_decide_eq_true_2 by reflexivity.
    autorewrite with solo.
    assert (Hu : solo (atomic (fun s0 =>
                         match unlink node (_wait_set (monitor s0)) with
                         | Some l => Ok tt (on_monitor (with_wait_set l) s0)
                         | None => Crash
                         end)) (with_RawMonitor_lock (Some self) s)
                 = Returns tt (on_monitor (with_wait_set (before ++ after))
                                 (with_RawMonitor_lock (Some self) s))).
    { unfold atomic. cbn [solo monitor with_RawMonitor_lock].
      rewrite Hw, unlink_middle by exact Hnb. reflexivity. }
    rewrite Hu.
    rewrite (solo_store_node _ _ n) by exact Hn.
    autorewrite with solo.
    rewrite (solo_load_node _ _ (with_t_state TS_RUN n))
      by (cbn; apply lookup_insert_eq).
    autorewrite with solo. cbn [_t_state with_t_state].
    rewrite bool_decide_eq_true_2 by reflexivity.
    unfold after_dequeue. destruct s. reflexivity.
Qed.

Lemma dequeue_waiter_unlinks_the_node_witness :
  nodes example_waiters !! 0%nat = Some (with_t_state TS_WAIT (new_QNode thread_B))
  /\ exists s',
       solo (dequeue_waiter thread_B 0) example_waiters = Returns tt s'
       /\ _wait_set (monitor s') = [1%nat].
Proof.
  assert (H : nodes example_waiters !! 0%nat
              = Some (with_t_state TS_WAIT (new_QNode thread_B))) by reflexivity.
  split; [exact H|].
  eexists. split.
  - exact (proj2 (dequeue_waiter_unlinks_the_node thread_B 0 _ example_waiters H)
             [1%nat] [] eq_refl eq_refl eq_refl
             ltac:(intros Hin; apply elem_of_cons in Hin as [Hin|Hin];
                    [discriminate | inversion Hin])).
  - reflexivity.
Defined.

(** *** Waiting *)

Lemma solo_is_interrupted jt s :
  solo (is_interrupted jt true) s
  = if bool_decide (jt ∈ interrupted s)
    then Returns true (with_interrupted (interrupted s ∖ {[jt]}) s)
    else Returns false s.
Proof.
  unfold is_interrupted, atomic. cbn [solo].
  destruct (bool_decide (jt ∈ interrupted s)); reflexivity.
Qed.

Lemma solo_simple_exit_free self s :
  _owner (monitor s) = Some self ->
  _entry_list (monitor s) = [] ->
  solo (simple_exit self) s = Returns tt (on_monitor (with_owner None) s).
Proof.
  intros Ho He. unfold simple_exit, OrderAccess_fence. autorewrite with solo.
  rewrite Ho, bool_decide_eq_true_2 by reflexivity. autorewrite with solo.
  cbn [monitor on_monitor with_monitor with_owner _entry_list]. rewrite He.
  reflexivity.
Qed.

Lemma solo_simple_enter_free fuel self s :
  _owner (monitor s) = None ->
  solo (simple_enter (S fuel) self) s
  = Returns tt (on_monitor (with_owner (Some self)) s).
Proof.
  intros Ho. rewrite simple_enter_unfold. autorewrite with solo.
  rewrite Ho. reflexivity.
Qed.

Lemma solo_unlink_head node l s :
  _wait_set (monitor s) = node :: l ->
  solo (atomic (fun s0 =>
                  match unlink node (_wait_set (monitor s0)) with
                  | Some l0 => Ok tt (on_monitor (with_wait_set l0) s0)
                  | None => Crash
                  end)) s
  = Returns tt (on_monitor (with_wait_set l) s).
Proof.
  intros Hw. unfold atomic. cbn [solo]. rewrite Hw. cbn [unlink].
  rewrite bool_decide_eq_true_2 by reflexivity. reflexivity.
Qed.

Lemma not_elem_of_removed (X : gset Thread) t : t ∉ X ∖ {[t]}.
Proof. rewrite elem_of_difference, elem_of_singleton. tauto. Qed.

Ltac solo_run :=
  repeat first
    [ progress autorewrite with solo
    | progress cbn [monitor on_monitor with_monitor _owner _recursions _entry_list
                    _wait_set _waiters _magic with_owner with_recursions
                    with_entry_list with_wait_set with_waiters
                    RawMonitor_lock with_RawMonitor_lock nodes next_node with_nodes
                    park_event with_park_event interrupted with_interrupted
                    external_suspend with_external_suspend unparked with_unparked
                    SR_lock with_SR_lock _t_state _event _notified with_t_state
                    with_notified new_QNode]
    | rewrite bool_decide_eq_true_2 by (reflexivity || discriminate)
    | rewrite bool_decide_eq_false_2 by (intros ?; congruence)
    | rewrite bool_decide_eq_true_2 by assumption
    | rewrite bool_decide_eq_false_2 by assumption
    | rewrite bool_decide_eq_false_2 by apply not_elem_of_removed
    | rewrite solo_RawMonitor_lock_lock by reflexivity
    | rewrite solo_simple_exit_free by reflexivity
    | rewrite solo_simple_enter_free by reflexivity
    | rewrite solo_is_interrupted
    | erewrite solo_unlink_head by reflexivity
    | erewrite solo_load_node by (apply lookup_insert_eq)
    | erewrite solo_store_node by (apply lookup_insert_eq) ].

Lemma wait_then_leave waiters :
  - 2 ^ 31 <= waiters < 2 ^ 31 - 1 ->
  wrap_s32 (wrap_s32 (waiters + 1) - 1) = waiters.
Proof.
  intros H. rewrite (wrap_s32_small (waiters + 1)) by lia.
  rewrite wrap_s32_small by lia. lia.
Qed.

(** X19.  A timed [raw_wait] by the owner, with nobody else at the monitor
    and no suspend request for the caller.  If the caller is a JavaThread
    whose interrupt status is set, the wait returns [M_INTERRUPTED] and the
    status is cleared; otherwise it returns [M_OK] when the time has
    passed.  In both cases the caller owns the monitor again, and the
    monitor is exactly as it was at the call: same recursion count, same
    count of waiters, the caller's node off the wait set; the queue lock
    is free and nobody was unparked. *)
Theorem timed_wait_restores_the_monitor fuel millis self s :
  may_wait_alone self s ->
  0 < millis ->
  exists s',
    solo (raw_wait (S fuel) millis self) s
    = Returns (if is_Java_thread self && bool_decide (self ∈ interrupted s)
               then M_INTERRUPTED else M_OK) s'
    /\ monitor s' = monitor s
    /\ RawMonitor_lock s' = None
    /\ unparked s' = unparked s
    /\ SR_lock s' = SR_lock s
    /\ external_suspend s' = external_suspend s
    /\ interrupted s'
       = (if is_Java_thread self && bool_decide (self ∈ interrupted s)
          then interrupted s ∖ {[self]} else interrupted s).
Proof.
  intros (Ho & Hl & He & Hsus & Hw) Hm.
  destruct s as [[owner rec entry wait waiters magic] lock sr nds nn pe intr susp unp].
  cbn in Ho, Hl, He, Hsus, Hw. subst owner lock entry.
  unfold raw_wait, simple_wait, enqueue_waiter, dequeue_waiter, ThreadInVMfromNative,
    ThreadBlockInVM, set_suspend_equivalent, park_for, ParkEvent_park_millis,
    OrderAccess_fence.
  rewrite (proj2 (Z.leb_gt _ _) Hm).
  cbn [interrupted].
  assert (Hmon : with_waiters (wrap_s32 (wrap_s32 (waiters + 1) - 1))
    (with_recursions rec
       (with_owner (Some self)
          (with_wait_set wait
             (with_owner None
                (with_wait_set (nn :: wait)
                   (with_waiters (wrap_s32 (waiters + 1))
                      (with_recursions 0
                         {| _owner := Some self; _recursions := rec;
                            _entry_list := []; _wait_set := wait;
                            _waiters := waiters; _magic := magic |})))))))
    = {| _owner := Some self; _recursions := rec; _entry_list := [];
         _wait_set := wait; _waiters := waiters; _magic := magic |}).
  { unfold with_waiters, with_recursions, with_owner, with_wait_set. cbn.
    rewrite wait_then_leave by exact Hw. reflexivity. }
  destruct (is_Java_thread self); cbn [andb reenter_while_suspended];
    unfold set_suspend_equivalent, handle_special_suspend_equivalent_condition,
      ThreadInVMfromNative, ThreadBlockInVM;
    [destruct (decide (self ∈ intr)) as [Hi|Hi]|];
    solo_run; cbn [negb]; solo_run;
    (eexists; split; [reflexivity|]); (split; [exact Hmon|]);
    repeat split.
Qed.

Lemma timed_wait_restores_the_monitor_witness :
  may_wait_alone thread_A
    (with_interrupted {[thread_A]} (held thread_A 2 fresh))
  /\ 0 < 10000
  /\ exists s',
       solo (raw_wait 1 10000 thread_A)
         (with_interrupted {[thread_A]} (held thread_A 2 fresh))
       = Returns M_INTERRUPTED s'
       /\ monitor s' = monitor (held thread_A 2 fresh).
Proof.
  assert (H1 : may_wait_alone thread_A
                 (with_interrupted {[thread_A]} (held thread_A 2 fresh))).
  { repeat split; cbn; try lia. apply not_elem_of_empty. }
  assert (H2 : 0 < 10000) by lia.
  split; [exact H1|]. split; [exact H2|].
  destruct (timed_wait_restores_the_monitor 0 10000 thread_A _ H1 H2)
    as (s' & Hs & Hm & _).
  exists s'. split; [|exact Hm].
  rewrite Hs. cbn [is_Java_thread thread_A andb interrupted with_interrupted].
  rewrite bool_decide_eq_true_2 by (apply elem_of_singleton; reflexivity).
  reflexivity.
Defined.

(** *** The discipline of the accesses, and what it gives the owner *)

Lemma respects_bind {A B : Type} self (p : Prog A) (g : A -> Prog B) h
    (Q : A -> Holds -> Prop) (post : B -> Holds -> Prop) :
  respects self p h Q ->
  (forall a h1, Q a h1 -> respects self (g a) h1 post) ->
  respects self (p ≫= g) h post.
Proof.
  intros Hp Hg. revert h Hp.
  induction p as [a|C act k IH|]; intros h Hp.
  - apply Hg. exact Hp.
  - intros s Hs. specialize (Hp s Hs). cbn in Hp |- *.
    destruct (act s) as [b s'| |]; [|exact I|exact I].
    destruct Hp as (Hd & h' & Hh' & Hr).
    split; [exact Hd|]. exists h'. split; [exact Hh'|]. apply IH. exact Hr.
  - exact I.
Qed.

Lemma respects_atomic_bind {A B : Type} self (act : Shared -> Status B)
    (g : B -> Prog A) h (h' : B -> Holds) post :
  (forall s b s', held_in self h s -> act s = Ok b s' ->
     disciplined self s s' /\ held_in self (h' b) s') ->
  (forall b, respects self (g b) (h' b) post) ->
  respects self (atomic act ≫= g) h post.
Proof.
  intros Hact Hg s Hs. destruct (act s) as [b s'| |] eqn:Ha; [|exact I|exact I].
  destruct (Hact s b s' Hs Ha) as [Hd Hh].
  split; [exact Hd|]. exists (h' b). split; [exact Hh|]. apply Hg.
Qed.

Lemma respects_atomic {B : Type} self (act : Shared -> Status B) h
    (h' : B -> Holds) (post : B -> Holds -> Prop) :
  (forall s b s', held_in self h s -> act s = Ok b s' ->
     disciplined self s s' /\ held_in self (h' b) s') ->
  (forall b, post b (h' b)) ->
  respects self (atomic act) h post.
Proof.
  intros Hact Hg s Hs. destruct (act s) as [b s'| |] eqn:Ha; [|exact I|exact I].
  destruct (Hact s b s' Hs Ha) as [Hd Hh].
  split; [exact Hd|]. exists (h' b). split; [exact Hh|]. apply Hg.
Qed.

Lemma respects_ret_bind {A B : Type} self (a : A) (g : A -> Prog B) h post :
  respects self (g a) h post -> respects self (mret a ≫= g) h post.
Proof. intros H. exact H. Qed.

Ltac access :=
  let s := fresh "s" in
  let b := fresh "b" in
  let s' := fresh "s'" in
  let Hm := fresh "Hm" in
  let Hl := fresh "Hl" in
  let Ha := fresh "Ha" in
  intros s b s' [Hm Hl] Ha; cbn in Hm, Hl;
  repeat case_match; simplify_eq;
  unfold disciplined, held_in; cbn;
  repeat match goal with
         | H : bool_decide _ = true |- _ => apply bool_decide_eq_true in H
         | H : true = true -> _ |- _ => specialize (H eq_refl)
         end;
  repeat match goal with |- _ /\ _ => split end;
  solve [ assumption | reflexivity | congruence | discriminate
        | intros [?|?]; congruence | intros; congruence
        | intros;
          repeat match goal with
                 | H : ?P -> _, H' : ?P |- _ => specialize (H H')
                 end; congruence
        | left; congruence
        | right; left; split; congruence
        | right; right; split; congruence ].

Ltac step_with m' l' :=
  first [ eapply (respects_atomic_bind _ _ _ _ (fun _ => Build_Holds m' l'));
            [solve [access] | intros ?; cbn beta]
        | eapply (respects_atomic _ _ _ (fun _ => Build_Holds m' l'));
            [solve [access] | intros ?; cbn beta] ].

Lemma respects_assoc {A B C : Type} self (p : Prog A) (f : A -> Prog B)
    (g : B -> Prog C) h post :
  respects self (p ≫= (fun a => f a ≫= g)) h post ->
  respects self ((p ≫= f) ≫= g) h post.
Proof.
  revert h. induction p as [a|D act k IH|]; intros h Hp.
  - exact Hp.
  - intros s Hs. specialize (Hp s Hs). cbn in Hp |- *.
    destruct (act s) as [b s'| |]; [|exact I|exact I].
    destruct Hp as (Hd & h' & Hh' & Hr).
    split; [exact Hd|]. exists h'. split; [exact Hh'|]. apply IH. exact Hr.
  - exact I.
Qed.

Ltac is_prim p :=
  lazymatch p with
  | atomic _ => idtac
  | load _ => idtac
  | store _ => idtac
  | guarantee _ => idtac
  | ParkEvent_reset _ => idtac
  | ParkEvent_park _ => idtac
  | ParkEvent_park_millis _ _ => idtac
  | ParkEvent_unpark _ => idtac
  | RawMonitor_lock_lock _ => idtac
  | RawMonitor_lock_unlock => idtac
  | SR_lock_lock _ => idtac
  | SR_lock_unlock _ => idtac
  | is_external_suspend _ => idtac
  | java_suspend_self _ => idtac
  | handle_special_suspend_equivalent_condition _ => idtac
  | is_interrupted _ _ => idtac
  | alloc_QNode _ => idtac
  | load_node _ _ => idtac
  | store_node _ _ => idtac
  | increment_recursions => idtac
  | decrement_recursions => idtac
  end.

Ltac try_holds m l :=
  first [ step_with true true
        | step_with true l
        | step_with m true
        | step_with m l
        | step_with m false
        | step_with false l
        | step_with false false ].

Ltac one_access :=
  lazymatch goal with
  | |- respects _ (mbind _ (mret _)) _ _ => apply respects_ret_bind
  | |- respects _ (mbind _ (mbind _ _)) _ _ => apply respects_assoc; cbn beta
  | |- respects _ (mbind _ ?p) {| holds_monitor := ?m; holds_RawMonitor_lock := ?l |} _ =>
      is_prim p; try_holds m l
  | |- respects _ ?p {| holds_monitor := ?m; holds_RawMonitor_lock := ?l |} _ =>
      is_prim p; try_holds m l
  end.

Ltac quiet_prims :=
  unfold OrderAccess_fence, OrderAccess_loadstore, OrderAccess_storeload,
    set_suspend_equivalent, set_current_pending_raw_monitor,
    ThreadInVMfromNative, ThreadBlockInVM, park_for.

Ltac branch :=
  lazymatch goal with
  | |- respects _ (match ?x with _ => _ end) _ _ => destruct x eqn:?
  | |- respects _ (mbind _ (match ?x with _ => _ end)) _ _ => destruct x eqn:?
  end.

Ltac accesses := repeat first [one_access | branch | reflexivity].

Lemma respects_post {A : Type} self (p : Prog A) h (Q post : A -> Holds -> Prop) :
  respects self p h Q ->
  (forall a h1, Q a h1 -> post a h1) ->
  respects self p h post.
Proof.
  intros Hp Hq. revert h Hp.
  induction p as [a|C act k IH|]; intros h Hp.
  - apply Hq. exact Hp.
  - intros s Hs. specialize (Hp s Hs). cbn in Hp |- *.
    destruct (act s) as [b s'| |]; [|exact I|exact I].
    destruct Hp as (Hd & h' & Hh' & Hr).
    split; [exact Hd|]. exists h'. split; [exact Hh'|]. apply IH. exact Hr.
  - exact I.
Qed.

Ltac call_with L :=
  first [ eapply respects_bind; [eapply L | cbn beta; intros ? ? ->]
        | eapply respects_post; [eapply L | cbn beta; intros ? ? ->; try reflexivity] ].

Lemma respects_simple_exit self m :
  respects self (simple_exit self) (Build_Holds m false)
    (fun _ h1 => h1 = Build_Holds false false).
Proof. unfold simple_exit. quiet_prims. accesses. Qed.

Lemma respects_park_while_TS_ENTER fuel self node : forall m,
  respects self (park_while_TS_ENTER fuel self node) (Build_Holds m false)
    (fun _ h1 => h1 = Build_Holds m false).
Proof.
  induction fuel as [|fuel IH]; intros m; [exact I|].
  cbn [park_while_TS_ENTER]. accesses. apply IH.
Qed.

Lemma access_replace_if_null self m l :
  forall s b s',
    held_in self (Build_Holds m l) s ->
    (match _owner (monitor s) with
     | None => Ok true (on_monitor (with_owner (Some self)) s)
     | Some _ => Ok false s
     end) = Ok b s' ->
    disciplined self s s'
    /\ held_in self (if b then Build_Holds true l else Build_Holds m l) s'.
Proof. access. Qed.

Ltac acquire :=
  lazymatch goal with
  | |- respects _ (mbind _ (replace_if_null _))
         {| holds_monitor := ?m; holds_RawMonitor_lock := ?l |} _ =>
      eapply (respects_atomic_bind _ _ _ _
                (fun b : bool => if b then Build_Holds true l else Build_Holds m l));
      [apply access_replace_if_null | intros [|]]
  end.

Lemma respects_simple_enter fuel self : forall m,
  respects self (simple_enter fuel self) (Build_Holds m false)
    (fun _ h1 => h1 = Build_Holds true false).
Proof.
  induction fuel as [|fuel IH]; intros m; [exact I|].
  cbn [simple_enter]. quiet_prims.
  acquire; [reflexivity|]. accesses.
  - acquire; accesses.
    call_with respects_park_while_TS_ENTER. apply IH.
  - call_with respects_park_while_TS_ENTER. apply IH.
Qed.

Lemma respects_enqueue_waiter self node m :
  respects self (enqueue_waiter self node) (Build_Holds m false)
    (fun _ h1 => h1 = Build_Holds m false).
Proof. unfold enqueue_waiter. quiet_prims. accesses. Qed.

Lemma respects_dequeue_waiter self node m :
  respects self (dequeue_waiter self node) (Build_Holds m false)
    (fun _ h1 => h1 = Build_Holds m false).
Proof. unfold dequeue_waiter. quiet_prims. accesses. Qed.

Lemma respects_simple_wait fuel self millis m :
  respects self (simple_wait fuel self millis) (Build_Holds m false)
    (fun _ h1 => h1 = Build_Holds true false).
Proof.
  unfold simple_wait. quiet_prims. accesses.
  all: try call_with respects_enqueue_waiter.
  all: call_with respects_simple_exit; accesses.
  all: call_with respects_dequeue_waiter.
  all: call_with respects_simple_enter; accesses.
Qed.

Lemma respects_notify_loop fuel all : forall self ev m,
  respects self (notify_loop fuel all ev) (Build_Holds m true)
    (fun _ h1 => h1 = Build_Holds m true).
Proof.
  induction fuel as [|fuel IH]; intros self ev m; [exact I|].
  cbn [notify_loop]. quiet_prims. accesses; apply IH.
Qed.

Lemma respects_simple_notify fuel self all m :
  respects self (simple_notify fuel self all) (Build_Holds m false)
    (fun _ h1 => h1 = Build_Holds true false).
Proof.
  unfold simple_notify. quiet_prims. accesses.
  call_with respects_notify_loop. accesses.
Qed.

Lemma respects_while_external_suspend fuel self : forall m,
  respects self (while_external_suspend fuel self) (Build_Holds m false)
    (fun _ h1 => h1 = Build_Holds m false).
Proof.
  induction fuel as [|fuel IH]; intros m; [exact I|].
  cbn [while_external_suspend]. accesses. apply IH.
Qed.

Lemma respects_enter_unless_suspended fuel self : forall m,
  respects self (enter_unless_suspended fuel self) (Build_Holds m false)
    (fun _ h1 => h1 = Build_Holds true false).
Proof.
  induction fuel as [|fuel IH]; intros m; [exact I|].
  cbn [enter_unless_suspended]. quiet_prims. accesses.
  call_with respects_simple_enter. accesses.
  call_with respects_simple_exit. accesses. apply IH.
Qed.

Lemma access_cmpxchg_owner self m :
  forall s b s',
    held_in self (Build_Holds m false) s ->
    (match _owner (monitor s) with
     | None => Ok None (on_monitor (with_owner (Some self)) s)
     | Some t => Ok (Some t) s
     end) = Ok b s' ->
    disciplined self s s' /\ held_in self (after_cmpxchg self m b) s'.
Proof.
  intros s b s' [Hm Hl] Ha. destruct (_owner (monitor s)) as [t|] eqn:Ho;
    simplify_eq; unfold after_cmpxchg.
  - split.
    + unfold disciplined. repeat split; auto; intros [?|?]; congruence.
    + destruct (bool_decide (t = self)) eqn:Ht.
      * apply bool_decide_eq_true in Ht. subst t.
        split; cbn; [intros _; exact Ho | intros ?; discriminate].
      * split; cbn; [intros H; rewrite Ho; exact (Hm H) | exact Hl].
  - split.
    + unfold disciplined. cbn. rewrite Ho.
      repeat split; auto; intros [?|?]; congruence.
    + split; cbn; [reflexivity | intros ?; discriminate].
Qed.

Lemma respects_raw_enter fuel self m :
  respects self (raw_enter fuel self) (Build_Holds m false)
    (fun _ h1 => h1 = Build_Holds true false).
Proof.
  unfold raw_enter. quiet_prims.
  eapply (respects_bind _ _ _ _
            (fun contended h1 => h1 = after_cmpxchg self m contended)).
  - destruct (is_Java_thread self).
    + accesses. call_with respects_while_external_suspend.
      eapply (respects_atomic_bind _ _ _ _ (after_cmpxchg self m));
        [apply access_cmpxchg_owner|].
      intros contended. unfold after_cmpxchg.
      destruct contended as [t|]; [destruct (bool_decide (t = self)) eqn:Ht|]; accesses;
        cbn; rewrite Ht; reflexivity.
    + eapply (respects_atomic _ _ _ (after_cmpxchg self m));
        [apply access_cmpxchg_owner | reflexivity].
  - intros contended h1 ->. unfold after_cmpxchg.
    destruct contended as [t|].
    + destruct (bool_decide (t = self)) eqn:Ht.
      * apply bool_decide_eq_true in Ht. subst t.
        rewrite bool_decide_eq_true_2 by reflexivity. accesses.
      * apply bool_decide_eq_false in Ht.
        rewrite bool_decide_eq_false_2 by congruence.
        rewrite bool_decide_eq_false_2 by discriminate.
        accesses.
        -- call_with respects_simple_enter. accesses.
        -- call_with respects_enter_unless_suspended. accesses.
    + rewrite bool_decide_eq_false_2 by discriminate.
      rewrite bool_decide_eq_true_2 by reflexivity. accesses.
Qed.

Lemma access_load_owner self m :
  forall s b s',
    held_in self (Build_Holds m false) s ->
    Ok (_owner (monitor s)) s = Ok b s' ->
    disciplined self s s' /\ held_in self (after_owner_check self m b) s'.
Proof.
  intros s b s' [Hm Hl] Ha. simplify_eq. split.
  - unfold disciplined. repeat split; auto; intros [?|?]; congruence.
  - unfold after_owner_check.
    destruct (bool_decide (Some self ≠ _owner (monitor s'))) eqn:Ho.
    + exact (conj Hm Hl).
    + apply bool_decide_eq_false in Ho.
      split; cbn; [intros _ | intros ?; discriminate].
      destruct (decide (Some self = _owner (monitor s'))) as [e|n];
        [symmetry; exact e | contradiction].
Qed.

Ltac check_owner :=
  lazymatch goal with
  | |- respects ?self _ {| holds_monitor := ?m; holds_RawMonitor_lock := false |} _ =>
      eapply (respects_atomic_bind _ _ _ _ (after_owner_check self m));
      [apply access_load_owner|];
      let owner := fresh "owner" in
      intros owner; unfold after_owner_check;
      destruct (bool_decide (Some self ≠ owner))
  end.

Lemma respects_raw_exit self m :
  respects self (raw_exit self) (Build_Holds m false) (fun _ h1 => unlocked h1).
Proof.
  unfold raw_exit. check_owner; [reflexivity|]. accesses.
  call_with respects_simple_exit. reflexivity.
Qed.

Lemma respects_reenter_while_suspended fuel self : forall ret,
  respects self (reenter_while_suspended fuel self ret) (Build_Holds true false)
    (fun _ h1 => h1 = Build_Holds true false).
Proof.
  induction fuel as [|fuel IH]; intros ret; [exact I|].
  cbn [reenter_while_suspended]. quiet_prims. accesses.
  call_with respects_simple_exit. accesses.
  all: call_with respects_simple_enter; apply IH.
Qed.

Lemma respects_raw_wait fuel millis self m :
  respects self (raw_wait fuel millis self) (Build_Holds m false)
    (fun _ h1 => unlocked h1).
Proof.
  unfold raw_wait. quiet_prims. check_owner; [reflexivity|]. accesses.
  call_with respects_simple_wait. accesses.
  call_with respects_reenter_while_suspended. accesses.
Qed.

Lemma respects_raw_notify fuel self m :
  respects self (raw_notify fuel self) (Build_Holds m false)
    (fun _ h1 => unlocked h1).
Proof.
  unfold raw_notify. check_owner; [reflexivity|].
  call_with respects_simple_notify. reflexivity.
Qed.

Lemma respects_raw_notifyAll fuel self m :
  respects self (raw_notifyAll fuel self) (Build_Holds m false)
    (fun _ h1 => unlocked h1).
Proof.
  unfold raw_notifyAll. check_owner; [reflexivity|].
  call_with respects_simple_notify. reflexivity.
Qed.

Lemma respects_call fuel self c m :
  respects self (call fuel self c) (Build_Holds m false) (fun _ h1 => unlocked h1).
Proof.
  destruct c; cbn [call].
  - call_with respects_raw_enter. reflexivity.
  - apply respects_raw_exit.
  - apply respects_raw_wait.
  - apply respects_raw_notify.
  - apply respects_raw_notifyAll.
Qed.

Lemma respects_client fuel self cs : forall m,
  respects self (client fuel self cs) (Build_Holds m false) (fun _ _ => True).
Proof.
  induction cs as [|c cs IH]; intros m; [exact I|].
  cbn [client]. eapply respects_bind; [apply respects_call|].
  intros _ [m1 l1] Hl. unfold unlocked in Hl. cbn in Hl. subst l1. apply IH.
Qed.

Lemma held_in_stable t t' h s s' :
  disciplined t s s' -> t' <> t -> held_in t' h s -> held_in t' h s'.
Proof.
  intros (Ho & Hl & _) Hne [Hm Hk]. split.
  - intros H. specialize (Hm H).
    destruct Ho as [-> | [[H1 _] | [H1 _]]]; [exact Hm | congruence | congruence].
  - intros H. specialize (Hk H).
    destruct Hl as [-> | [[H1 _] | [H1 _]]]; [exact Hk | congruence | congruence].
Qed.

Lemma held_in_same t h s s' :
  monitor s' = monitor s -> RawMonitor_lock s' = RawMonitor_lock s ->
  held_in t h s -> held_in t h s'.
Proof. intros H1 H2 [Hm Hk]. split; rewrite ?H1, ?H2; assumption. Qed.

Lemma pool_ok_same {A : Type} threads (pool : list (Prog A)) s s' :
  monitor s' = monitor s -> RawMonitor_lock s' = RawMonitor_lock s ->
  pool_ok threads pool s -> pool_ok threads pool s'.
Proof.
  intros H1 H2 Hok. eapply Forall2_impl; [exact Hok|]. intros t p (h & Hh & Hr).
  exists h. split; [exact (held_in_same _ _ _ _ H1 H2 Hh) | exact Hr].
Qed.

Lemma pool_step_ok {A : Type} threads l (pool pool' : list (Prog A)) s s' :
  NoDup threads ->
  pool_ok threads pool s ->
  pool_step l pool s = Next pool' s' ->
  pool_ok threads pool' s' /\ step_ok threads l s s'.
Proof.
  intros Hnd Hok Hs. destruct l as [i|t|t|t]; cbn in Hs.
  - destruct (pool !! i) as [[a|B act k|]|] eqn:Hi; try discriminate.
    destruct (act s) as [b s1| |] eqn:Ha; try discriminate.
    injection Hs as <- <-.
    destruct (Forall2_lookup_r _ _ _ _ _ Hok Hi) as (t & Ht & h & Hh & Hr).
    specialize (Hr s Hh). rewrite Ha in Hr.
    destruct Hr as (Hd & h' & Hh' & Hr).
    split; [|exists t; split; [exact Ht | exact Hd]].
    apply Forall2_same_length_lookup. split.
    + rewrite length_insert. exact (Forall2_length _ _ _ Hok).
    + intros j t' p Htj Hpj.
      destruct (decide (i = j)) as [<-|Hij].
      * rewrite list_lookup_insert_eq in Hpj
          by (apply lookup_lt_is_Some; eauto).
        simplify_eq. exists h'. split; [exact Hh' | exact Hr].
      * rewrite list_lookup_insert_ne in Hpj by exact Hij.
        destruct (Forall2_lookup_lr _ _ _ _ _ _ Hok Htj Hpj) as (hj & Hhj & Hrj).
        exists hj. split; [|exact Hrj].
        apply (held_in_stable t t' hj s s1 Hd); [|exact Hhj].
        intros ->. apply Hij. exact (NoDup_lookup _ _ _ _ Hnd Ht Htj).
  - injection Hs as <- <-. split; [|split; reflexivity].
    apply (pool_ok_same threads pool s); [reflexivity | reflexivity | exact Hok].
  - destruct (bool_decide (t ∈ SR_lock s)); [discriminate|].
    injection Hs as <- <-. split; [|split; reflexivity].
    apply (pool_ok_same threads pool s); [reflexivity | reflexivity | exact Hok].
  - injection Hs as <- <-. split; [|split; reflexivity].
    apply (pool_ok_same threads pool s); [reflexivity | reflexivity | exact Hok].
Qed.

Lemma pool_run_ok {A : Type} threads ls : forall (pool pool' : list (Prog A)) s s',
  NoDup threads ->
  pool_ok threads pool s ->
  pool_run ls pool s = Next pool' s' ->
  pool_ok threads pool' s'.
Proof.
  induction ls as [|l ls IH]; intros pool pool' s s' Hnd Hok Hr; cbn in Hr.
  - injection Hr as <- <-. exact Hok.
  - destruct (pool_step l pool s) as [pool1 s1| |] eqn:Hs; try discriminate.
    destruct (pool_step_ok _ _ _ _ _ _ Hnd Hok Hs) as [Hok1 _].
    exact (IH _ _ _ _ Hnd Hok1 Hr).
Qed.

Lemma pool_ok_clients fuel clients s :
  pool_ok clients.*1 (programs fuel clients) s.
Proof.
  unfold pool_ok, programs. apply Forall2_fmap. apply Forall_Forall2_diag.
  apply Forall_forall. intros [t cs] _. cbn.
  exists (Build_Holds false false). split; [split; discriminate|].
  apply respects_client.
Qed.

(** X20.  Threads that call [raw_enter], [raw_exit], [raw_wait],
    [raw_notify] and [raw_notifyAll] in any order, from any state of the
    monitor, interleaved in any way and interrupted, suspended and resumed
    at any time: every atomic access a thread makes is disciplined.  It
    changes [_owner] only from [NULL] to itself or from itself to [NULL],
    and likewise the holder of [RawMonitor_lock]; it writes [_recursions]
    and [_waiters] only while it owns the monitor, and the entry list and
    the wait set only while it holds [RawMonitor_lock]; [_magic] is never
    written. *)
Theorem every_access_is_disciplined fuel clients ls s pool' s' l pool'' s'' :
  NoDup clients.*1 ->
  pool_run ls (programs fuel clients) s = Next pool' s' ->
  pool_step l pool' s' = Next pool'' s'' ->
  step_ok clients.*1 l s' s''.
Proof.
  intros Hnd Hr Hs.
  pose proof (pool_run_ok _ _ _ _ _ _ Hnd (pool_ok_clients fuel clients s) Hr) as Hok.
  exact (proj2 (pool_step_ok _ _ _ _ _ _ Hnd Hok Hs)).
Qed.

Lemma every_access_is_disciplined_witness :
  NoDup example_clients.*1
  /\ exists pool'' s'',
       pool_step (run_thread 0) (programs 2 example_clients) fresh = Next pool'' s''
       /\ step_ok example_clients.*1 (run_thread 0) fresh s''.
Proof.
  assert (Hnd : NoDup example_clients.*1)
    by (apply (bool_decide_unpack _); vm_compute; exact I).
  split; [exact Hnd|].
  eexists _, _. split; [reflexivity|].
  eapply (every_access_is_disciplined 2 example_clients [] fresh);
    [exact Hnd | reflexivity | reflexivity].
Defined.

Lemma owner_is_stable threads i t ls : forall (pool pool' : list (Prog unit)) s s',
  NoDup threads ->
  pool_ok threads pool s ->
  threads !! i = Some t ->
  _owner (monitor s) = Some t ->
  Forall (not_of i) ls ->
  pool_run ls pool s = Next pool' s' ->
  _owner (monitor s') = Some t
  /\ _recursions (monitor s') = _recursions (monitor s)
  /\ _waiters (monitor s') = _waiters (monitor s).
Proof.
  induction ls as [|l ls IH]; intros pool pool' s s' Hnd Hok Ht Ho Hls Hr; cbn in Hr.
  - injection Hr as <- <-. auto.
  - destruct (pool_step l pool s) as [pool1 s1| |] eqn:Hs; try discriminate.
    destruct (pool_step_ok _ _ _ _ _ _ Hnd Hok Hs) as [Hok1 Hstep].
    apply Forall_cons in Hls as [Hl Hls].
    assert (H1 : _owner (monitor s1) = Some t
                 /\ _recursions (monitor s1) = _recursions (monitor s)
                 /\ _waiters (monitor s1) = _waiters (monitor s)).
    { destruct l as [j|?|?|?]; cbn in Hstep;
        try (destruct Hstep as [-> _]; auto; fail).
      destruct Hstep as (t' & Ht' & Hown & _ & Hrec & _).
      assert (Hne : t' <> t).
      { intros ->. apply Hl. f_equal. exact (NoDup_lookup _ _ _ _ Hnd Ht' Ht). }
      assert (Hnot : _owner (monitor s) <> Some t') by congruence.
      split; [|split].
      - destruct Hown as [-> | [[H _] | [H _]]]; [exact Ho | congruence | congruence].
      - destruct (decide (_recursions (monitor s1) = _recursions (monitor s)));
          [assumption | exfalso; apply Hnot, Hrec; left; assumption].
      - destruct (decide (_waiters (monitor s1) = _waiters (monitor s)));
          [assumption | exfalso; apply Hnot, Hrec; right; assumption]. }
    destruct H1 as (Ho1 & Hr1 & Hw1).
    destruct (IH _ _ _ _ Hnd Hok1 Ht Ho1 Hls Hr) as (H2 & H3 & H4).
    split; [exact H2|]. split; congruence.
Qed.

(** X21.  Nobody takes the monitor from its owner.  If a thread owns the
    monitor at some point of an execution of such threads, then after any
    number of steps of the other threads (and interrupts, suspends and
    resumes) it still owns it, and [_recursions] and [_waiters] are what
    they were. *)
Theorem owner_keeps_the_monitor fuel clients ls s pool' s' i t ls' pool'' s'' :
  NoDup clients.*1 ->
  pool_run ls (programs fuel clients) s = Next pool' s' ->
  clients.*1 !! i = Some t ->
  _owner (monitor s') = Some t ->
  Forall (not_of i) ls' ->
  pool_run ls' pool' s' = Next pool'' s'' ->
  _owner (monitor s'') = Some t
  /\ _recursions (monitor s'') = _recursions (monitor s')
  /\ _waiters (monitor s'') = _waiters (monitor s').
Proof.
  intros Hnd Hr Ht Ho Hls Hr'.
  pose proof (pool_run_ok _ _ _ _ _ _ Hnd (pool_ok_clients fuel clients s) Hr) as Hok.
  exact (owner_is_stable _ _ _ _ _ _ _ _ Hnd Hok Ht Ho Hls Hr').
Qed.

Lemma owner_keeps_the_monitor_witness :
  NoDup example_clients.*1
  /\ Forall (not_of 0) (steps 4 1)
  /\ exists pool'' s'',
       pool_run (steps 4 1) (programs 2 example_clients) (held thread_A 0 fresh)
       = Next pool'' s''
       /\ _owner (monitor s'') = Some thread_A.
Proof.
  assert (Hnd : NoDup example_clients.*1)
    by (apply (bool_decide_unpack _); vm_compute; exact I).
  assert (Hls : Forall (not_of 0) (steps 4 1))
    by (repeat constructor; discriminate).
  split; [exact Hnd|]. split; [exact Hls|].
  eexists _, _. split; [reflexivity|].
  eapply (owner_keeps_the_monitor 2 example_clients [] (held thread_A 0 fresh)
            _ _ 0%nat thread_A (steps 4 1));
    [exact Hnd | reflexivity | reflexivity | reflexivity | exact Hls | reflexivity].
Defined.

End RawMonitorProofs.
